(** * Catalog synchronisation core: progress write rule, outbox reconciler,
      follow counters and the soft-delete client extension.

    Each module embeds one part of the TypeScript sources and proves the
    properties stated about it.  Timestamps ([Date], [timestamptz]) are
    integers (milliseconds / microseconds since the epoch), identifiers
    (UUID strings) are strings, SQL tables are finite maps or row lists. *)

From Stdlib Require Import ZArith QArith Lia Bool Sorted Ascii.
From stdpp Require Import base option list list_numbers sorting gmap strings pretty.

Local Open Scope string_scope.
Local Open Scope list_scope.
Local Open Scope Z_scope.

(* ===================================================================== *)
(** ** Progress route: [PATCH /api/library/[id]/progress], step 8
       ("Record Chapter Read (V2 with Race-Safe LWW)"). *)
(* ===================================================================== *)
Module Progress.

(** One row of [user_chapter_reads_v2]; the columns written by the route. *)
Record UserChapterReadV2 := mkRead {
  id : string;
  is_read : bool;
  updated_at : Z;
  read_at : Z;
  source_used_id : option string;
  device_id : option string;
  server_received_at : Z;
}.

(** The values of one request as they reach the [INSERT]: [isRead],
    [targetTimestamp] (the client's [timestamp], or the route's clock when
    absent), [sourceId], [deviceId]; [now] is SQL [NOW()] and [fresh_id]
    is [gen_random_uuid()]. *)
Record ProgressUpdate := mkUpdate {
  fresh_id : string;
  isRead : bool;
  targetTimestamp : Z;
  sourceId : option string;
  deviceId : option string;
  now : Z;
}.

(** The proposed row: the [VALUES] list, called [EXCLUDED] on conflict. *)
Definition excluded (u : ProgressUpdate) : UserChapterReadV2 :=
  {| id := fresh_id u;
     is_read := isRead u;
     updated_at := targetTimestamp u;
     read_at := targetTimestamp u;
     source_used_id := sourceId u;
     device_id := deviceId u;
     server_received_at := now u |}.

(** The [WHERE] of [ON CONFLICT ... DO UPDATE]. *)
Definition lww_where (ex old : UserChapterReadV2) : bool :=
  (updated_at old <? updated_at ex)
  || ((updated_at ex =? updated_at old)
      && (server_received_at ex <? server_received_at old)).

(** The [SET] list of [DO UPDATE]; [id] is not assigned and stays. *)
Definition do_update (ex old : UserChapterReadV2) : UserChapterReadV2 :=
  {| id := id old;
     is_read := is_read ex;
     updated_at := updated_at ex;
     read_at := if is_read ex then updated_at ex else read_at old;
     source_used_id := source_used_id ex;
     device_id := device_id ex;
     server_received_at := server_received_at ex |}.

(** The table, keyed by its unique constraint [(user_id, chapter_id)]. *)
Abbreviation ReadTable := (gmap (string * string) UserChapterReadV2).

(** [INSERT ... ON CONFLICT (user_id, chapter_id) DO UPDATE ... WHERE ...]. *)
Definition record_chapter_read
    (tbl : ReadTable) (user_id chapter_id : string) (u : ProgressUpdate)
  : ReadTable :=
  match tbl !! (user_id, chapter_id) with
  | None => <[(user_id, chapter_id) := excluded u]> tbl
  | Some old =>
      if lww_where (excluded u) old
      then <[(user_id, chapter_id) := do_update (excluded u) old]> tbl
      else tbl
  end.

(** The rule of the spec, stated on the two timestamps. *)
Definition wins (u : ProgressUpdate) (old : UserChapterReadV2) : Prop :=
  updated_at old < targetTimestamp u
  \/ (targetTimestamp u = updated_at old /\ now u < server_received_at old).

Lemma lww_where_spec u old : lww_where (excluded u) old = true <-> wins u old.
Proof.
  unfold lww_where, wins; cbn.
  rewrite orb_true_iff, andb_true_iff, !Z.ltb_lt, Z.eqb_eq.
  reflexivity.
Qed.

Lemma record_first tbl usr ch u :
  tbl !! (usr, ch) = None ->
  record_chapter_read tbl usr ch u !! (usr, ch) = Some (excluded u).
Proof.
  intros Hnone. unfold record_chapter_read. rewrite Hnone.
  apply lookup_insert_eq.
Qed.

Lemma record_conflict tbl usr ch old u :
  tbl !! (usr, ch) = Some old ->
  record_chapter_read tbl usr ch u !! (usr, ch)
  = Some (if lww_where (excluded u) old then do_update (excluded u) old else old).
Proof.
  intros Hold. unfold record_chapter_read. rewrite Hold.
  destruct (lww_where (excluded u) old).
  - apply lookup_insert_eq.
  - exact Hold.
Qed.

Lemma record_other tbl usr ch u k :
  k <> (usr, ch) -> record_chapter_read tbl usr ch u !! k = tbl !! k.
Proof.
  intros Hk. unfold record_chapter_read.
  destruct (tbl !! (usr, ch)) as [old|].
  - destruct (lww_where (excluded u) old); [|reflexivity].
    apply lookup_insert_ne; congruence.
  - apply lookup_insert_ne; congruence.
Qed.

(** C1. For a user and logical chapter that already have a row, a progress
    update replaces the stored read-state exactly when its client timestamp
    is strictly later, or equal with a strictly earlier server receipt time;
    otherwise the table is left as it is, and rows of other keys are never
    touched.  In particular, of two updates with the same client timestamp
    on a key that has no row yet, the one the server received first is the
    stored read-state, in whichever order the two statements are applied. *)
Theorem progress_last_writer_wins
    (tbl : ReadTable) (usr ch : string) (old : UserChapterReadV2)
    (u : ProgressUpdate) :
  tbl !! (usr, ch) = Some old ->
  (lww_where (excluded u) old = true <-> wins u old)
  /\ (wins u old ->
      record_chapter_read tbl usr ch u
      = <[(usr, ch) := do_update (excluded u) old]> tbl)
  /\ (~ wins u old -> record_chapter_read tbl usr ch u = tbl)
  /\ (forall k, k <> (usr, ch) ->
        record_chapter_read tbl usr ch u !! k = tbl !! k)
  /\ (forall (t0 : ReadTable) (u1 u2 : ProgressUpdate),
        t0 !! (usr, ch) = None ->
        targetTimestamp u1 = targetTimestamp u2 ->
        now u1 < now u2 ->
        record_chapter_read (record_chapter_read t0 usr ch u1) usr ch u2
          !! (usr, ch) = Some (excluded u1)
        /\ record_chapter_read (record_chapter_read t0 usr ch u2) usr ch u1
          !! (usr, ch)
           = Some (mkRead (fresh_id u2) (isRead u1) (targetTimestamp u1)
                     (targetTimestamp u1) (sourceId u1) (deviceId u1) (now u1))).
Proof.
  intros Hold.
  split; [apply lww_where_spec|].
  split.
  { intros Hw. apply lww_where_spec in Hw.
    unfold record_chapter_read. rewrite Hold, Hw. reflexivity. }
  split.
  { intros Hw. unfold record_chapter_read. rewrite Hold.
    destruct (lww_where (excluded u) old) eqn:E; [|reflexivity].
    apply lww_where_spec in E. contradiction. }
  split; [intros k Hk; apply record_other; exact Hk|].
  intros t0 u1 u2 Hfree Hts Hrecv.
  split.
  - rewrite (record_conflict _ _ _ (excluded u1)) by (apply record_first, Hfree).
    assert (E : lww_where (excluded u2) (excluded u1) = false).
    { unfold lww_where; cbn.
      apply orb_false_iff; split; [apply Z.ltb_ge; lia|].
      apply andb_false_iff; right. apply Z.ltb_ge; lia. }
    rewrite E. reflexivity.
  - rewrite (record_conflict _ _ _ (excluded u2)) by (apply record_first, Hfree).
    assert (E : lww_where (excluded u1) (excluded u2) = true).
    { unfold lww_where; cbn.
      apply orb_true_iff; right.
      apply andb_true_iff; split; [apply Z.eqb_eq; exact Hts|].
      apply Z.ltb_lt; exact Hrecv. }
    rewrite E. unfold do_update; cbn.
    destruct (isRead u1); rewrite ?Hts; reflexivity.
Qed.

(** A stored row written at client time 1000 and received at 50; a retry
    with the same client time received at 60 leaves it in place. *)
Definition stored_row : UserChapterReadV2 :=
  mkRead "r1" true 1000 1000 None (Some "phone") 50.
Definition late_duplicate : ProgressUpdate :=
  mkUpdate "r2" false 1000 None (Some "tablet") 60.
Definition one_row_table : ReadTable := {[ ("u1", "c1") := stored_row ]}.

Lemma progress_last_writer_wins_witness :
  one_row_table !! ("u1", "c1") = Some stored_row
  /\ record_chapter_read one_row_table "u1" "c1" late_duplicate = one_row_table.
Proof.
  assert (H : one_row_table !! ("u1", "c1") = Some stored_row)
    by apply lookup_singleton_eq.
  split; [exact H|].
  destruct (progress_last_writer_wins one_row_table "u1" "c1" stored_row
              late_duplicate H) as (_ & _ & Hkeep & _).
  apply Hkeep. unfold wins; cbn. lia.
Defined.

(** *** The read table over many statements *)

(** One execution of the statement: the key and the values it carries. *)
Record Statement := mkStatement {
  st_user : string;
  st_chapter : string;
  st_update : ProgressUpdate;
}.

Definition record_all (sts : list Statement) (tbl : ReadTable) : ReadTable :=
  fold_left (fun t st => record_chapter_read t (st_user st) (st_chapter st)
                           (st_update st))
            sts tbl.

(** What the statement keeps true of a row: [read_at] is never later than
    [updated_at], and is equal to it while the row is marked read. *)
Definition row_ok (r : UserChapterReadV2) : Prop :=
  read_at r <= updated_at r /\ (is_read r = true -> read_at r = updated_at r).

Definition table_ok (tbl : ReadTable) : Prop :=
  forall k r, tbl !! k = Some r -> row_ok r.

Lemma record_chapter_read_lookup tbl usr ch u :
  record_chapter_read tbl usr ch u !! (usr, ch)
  = Some match tbl !! (usr, ch) with
         | None => excluded u
         | Some old => if lww_where (excluded u) old
                       then do_update (excluded u) old else old
         end.
Proof.
  destruct (tbl !! (usr, ch)) as [old|] eqn:E.
  - apply record_conflict, E.
  - apply record_first, E.
Qed.

Lemma do_update_ok u old :
  lww_where (excluded u) old = true -> row_ok old ->
  row_ok (do_update (excluded u) old)
  /\ updated_at old <= updated_at (do_update (excluded u) old).
Proof.
  intros Hw [Hle Hread]. apply lww_where_spec in Hw. unfold wins in Hw.
  unfold row_ok, do_update; cbn.
  destruct (isRead u); cbn; repeat split; try lia; intros; try discriminate; lia.
Qed.

Lemma record_chapter_read_ok tbl usr ch u :
  table_ok tbl ->
  table_ok (record_chapter_read tbl usr ch u)
  /\ (forall k r, tbl !! k = Some r ->
        exists r', record_chapter_read tbl usr ch u !! k = Some r'
                   /\ id r' = id r /\ updated_at r <= updated_at r').
Proof.
  intros Hok. split.
  - intros k r. destruct (decide (k = (usr, ch))) as [->|Hk].
    + rewrite record_chapter_read_lookup. intros [= <-].
      destruct (tbl !! (usr, ch)) as [old|] eqn:E.
      * destruct (lww_where (excluded u) old) eqn:Hw; [|apply (Hok _ _ E)].
        apply do_update_ok; [exact Hw|apply (Hok _ _ E)].
      * unfold row_ok, excluded; cbn. split; [lia|reflexivity].
    + rewrite record_other by exact Hk. apply Hok.
  - intros k r Hr. destruct (decide (k = (usr, ch))) as [->|Hk].
    + rewrite record_chapter_read_lookup, Hr.
      destruct (lww_where (excluded u) r) eqn:Hw.
      * eexists. split; [reflexivity|]. split; [reflexivity|].
        apply do_update_ok; [exact Hw|apply (Hok _ _ Hr)].
      * exists r. split; [reflexivity|]. split; [reflexivity|lia].
    + exists r. rewrite record_other by exact Hk. split; [exact Hr|].
      split; [reflexivity|lia].
Qed.

(** X12. Whatever statements are executed, in whatever order, a stored
    row is never lost, keeps its [id], and never moves back in time: its
    [updated_at] only grows.  And every row keeps [read_at] no later than
    [updated_at], equal to it while the row is marked read. *)
Theorem read_rows_only_move_forward (sts : list Statement) (tbl : ReadTable) :
  table_ok tbl ->
  table_ok (record_all sts tbl)
  /\ (forall k r, tbl !! k = Some r ->
        exists r', record_all sts tbl !! k = Some r'
                   /\ id r' = id r /\ updated_at r <= updated_at r').
Proof.
  revert tbl. induction sts as [|st sts IH]; intros tbl Hok.
  - split; [exact Hok|]. intros k r Hr. exists r.
    split; [exact Hr|]. split; [reflexivity|lia].
  - cbn [record_all fold_left].
    destruct (record_chapter_read_ok tbl (st_user st) (st_chapter st)
                (st_update st) Hok) as [Hok1 Hstep].
    destruct (IH _ Hok1) as [Hok2 Hrest].
    split; [exact Hok2|].
    intros k r Hr. destruct (Hstep k r Hr) as (r1 & Hr1 & Hid1 & Hle1).
    destruct (Hrest k r1 Hr1) as (r2 & Hr2 & Hid2 & Hle2).
    exists r2. split; [exact Hr2|]. split; [congruence|lia].
Qed.

Lemma read_rows_only_move_forward_witness :
  table_ok one_row_table
  /\ table_ok (record_all [mkStatement "u1" "c1" late_duplicate;
                           mkStatement "u1" "c2" late_duplicate] one_row_table).
Proof.
  assert (H : table_ok one_row_table).
  { unfold one_row_table. intros k r [_ <-]%lookup_singleton_Some.
    unfold row_ok, stored_row; cbn. split; [lia|reflexivity]. }
  split; [exact H|].
  exact (proj1 (read_rows_only_move_forward
                  [mkStatement "u1" "c1" late_duplicate;
                   mkStatement "u1" "c2" late_duplicate] one_row_table H)).
Defined.

(** X13. Replaying a progress update is harmless.  Once a statement has
    been executed, executing it again for the same key with the same
    client timestamp, received by the server at the same time or later,
    changes nothing, whatever read flag, source or device the replay
    carries. *)
Theorem replay_changes_nothing (tbl : ReadTable) (usr ch : string)
    (u u' : ProgressUpdate) :
  targetTimestamp u' = targetTimestamp u ->
  now u <= now u' ->
  record_chapter_read (record_chapter_read tbl usr ch u) usr ch u'
  = record_chapter_read tbl usr ch u.
Proof.
  intros Hts Hnow.
  pose proof (record_chapter_read_lookup tbl usr ch u) as Hrow.
  unfold record_chapter_read at 1. rewrite Hrow.
  match goal with
  | |- (if ?c then _ else _) = _ => assert (Hlost : c = false); [|rewrite Hlost; reflexivity]
  end.
  apply not_true_iff_false. rewrite lww_where_spec. unfold wins.
  destruct (tbl !! (usr, ch)) as [old|]; [|cbn; lia].
  destruct (lww_where (excluded u) old) eqn:Hw; [cbn; lia|].
  apply not_true_iff_false in Hw. rewrite lww_where_spec in Hw.
  unfold wins in Hw. lia.
Qed.

Lemma replay_changes_nothing_witness :
  record_chapter_read
    (record_chapter_read one_row_table "u1" "c1"
       (mkUpdate "r3" true 2000 None (Some "phone") 70))
    "u1" "c1" (mkUpdate "r4" false 2000 None (Some "tablet") 80)
  = record_chapter_read one_row_table "u1" "c1"
      (mkUpdate "r3" true 2000 None (Some "phone") 70).
Proof.
  apply (replay_changes_nothing one_row_table "u1" "c1"
           (mkUpdate "r3" true 2000 None (Some "phone") 70)
           (mkUpdate "r4" false 2000 None (Some "tablet") 80)).
  - reflexivity.
  - cbn. lia.
Defined.

(** *** Steps 1 to 5 of the transaction: the library entry and the XP *)

(** The two columns of the library entry that step 5 writes; [None] is
    [null].  Chapter numbers are rationals, and the column gives back the
    number that was written to it. *)
Record LibraryEntry := mkEntry {
  last_read_chapter : option Q;
  last_read_at : option Z;
}.

(** One request as the transaction sees it: the validated body
    ([chapterNumber] is absent or [null] as [None]) and [alreadyRead], what
    step 3 finds in the two read tables. *)
Record ProgressRequest := mkRequest {
  chapterNumber : option Q;
  body : ProgressUpdate;
  alreadyRead : bool;
}.

(** [Number(entry.last_read_chapter || 0)]. *)
Definition currentLastRead (entry : LibraryEntry) : Q :=
  match last_read_chapter entry with
  | Some c => c
  | None => 0%Q
  end.

(** [chapterNumber !== undefined && chapterNumber !== null
     && chapterNumber > currentLastRead]. *)
Definition isNewChapter (req : ProgressRequest) (entry : LibraryEntry) : bool :=
  match chapterNumber req with
  | Some c => negb (Qle_bool c (currentLastRead entry))
  | None => false
  end.

(** [isRead && isNewChapter && !alreadyRead]. *)
Definition shouldAwardXp (req : ProgressRequest) (entry : LibraryEntry) : bool :=
  isRead (body req) && isNewChapter req entry && negb (alreadyRead req).

(** Step 5, [tx.libraryEntry.update]. *)
Definition update_entry (req : ProgressRequest) (entry : LibraryEntry)
  : LibraryEntry :=
  let advance := isRead (body req) && isNewChapter req entry in
  mkEntry (if advance then chapterNumber req else last_read_chapter entry)
          (if advance then Some (targetTimestamp (body req)) else last_read_at entry).

(** Requests served one after the other: the entry at the end, and which
    requests were awarded XP. *)
Fixpoint serve (reqs : list ProgressRequest) (entry : LibraryEntry)
  : LibraryEntry * list bool :=
  match reqs with
  | [] => (entry, [])
  | req :: reqs' =>
      let (entry', awards) := serve reqs' (update_entry req entry) in
      (entry', shouldAwardXp req entry :: awards)
  end.

(** The chapter numbers of the requests that were awarded XP, in order. *)
Fixpoint awarded (reqs : list ProgressRequest) (awards : list bool) : list Q :=
  match reqs, awards with
  | req :: reqs', award :: awards' =>
      match chapterNumber req with
      | Some c => if award then c :: awarded reqs' awards' else awarded reqs' awards'
      | None => awarded reqs' awards'
      end
  | _, _ => []
  end.

Lemma isNewChapter_spec req entry :
  isNewChapter req entry = true
  <-> exists c, chapterNumber req = Some c /\ (currentLastRead entry < c)%Q.
Proof.
  unfold isNewChapter. destruct (chapterNumber req) as [c|].
  - rewrite negb_true_iff, <- not_true_iff_false, Qle_bool_iff. split.
    + intros H. exists c. split; [reflexivity|]. apply Qnot_le_lt, H.
    + intros (c' & [= <-] & Hlt) Hle. apply (Qlt_not_le _ _ Hlt Hle).
  - split; [discriminate|]. intros (c & H & _). discriminate H.
Qed.

Lemma update_entry_cases req entry :
  (isRead (body req) && isNewChapter req entry = true
   /\ exists c, chapterNumber req = Some c /\ (currentLastRead entry < c)%Q
                /\ currentLastRead (update_entry req entry) = c)
  \/ (isRead (body req) && isNewChapter req entry = false
      /\ update_entry req entry = entry).
Proof.
  unfold update_entry.
  destruct (isRead (body req) && isNewChapter req entry) eqn:E.
  - left. split; [reflexivity|].
    apply andb_true_iff in E as [_ (c & Hc & Hlt)%isNewChapter_spec].
    exists c. unfold currentLastRead; cbn. rewrite Hc. auto.
  - right. split; [reflexivity|]. destruct entry; reflexivity.
Qed.

Lemma serve_spec reqs : forall entry,
  (currentLastRead entry <= currentLastRead (fst (serve reqs entry)))%Q
  /\ (forall req c, req ∈ reqs -> isRead (body req) = true ->
        chapterNumber req = Some c ->
        (c <= currentLastRead (fst (serve reqs entry)))%Q)
  /\ (fst (serve reqs entry) = entry
      \/ exists req, req ∈ reqs /\ isRead (body req) = true
           /\ last_read_chapter (fst (serve reqs entry)) = chapterNumber req
           /\ last_read_at (fst (serve reqs entry))
              = Some (targetTimestamp (body req)))
  /\ Forall (fun c => (currentLastRead entry < c)%Q)
            (awarded reqs (snd (serve reqs entry)))
  /\ StronglySorted Qlt (awarded reqs (snd (serve reqs entry))).
Proof.
  induction reqs as [|req reqs IH]; intros entry.
  - cbn. split; [apply Qle_refl|]. split; [intros req c H; inversion H|].
    split; [left; reflexivity|]. split; constructor.
  - cbn [serve]. specialize (IH (update_entry req entry)).
    destruct (serve reqs (update_entry req entry)) as [entry' awards].
    cbn [fst snd] in *.
    destruct IH as (Hmono & Hbound & Hfrom & Hgt & Hsorted).
    assert (Hstep : (currentLastRead entry
                     <= currentLastRead (update_entry req entry))%Q).
    { destruct (update_entry_cases req entry)
        as [(_ & c & _ & Hlt & ->)|(_ & ->)];
        [apply Qlt_le_weak, Hlt|apply Qle_refl]. }
    split; [eapply Qle_trans; eassumption|].
    split.
    { intros r c [->|Hr]%elem_of_cons Hread Hc; [|eapply Hbound; eassumption].
      eapply Qle_trans; [|exact Hmono].
      destruct (update_entry_cases req entry)
        as [(_ & c' & Hc' & _ & ->)|(Hno & ->)].
      - rewrite Hc in Hc'. injection Hc' as <-. apply Qle_refl.
      - rewrite Hread in Hno. cbn in Hno.
        unfold isNewChapter in Hno. rewrite Hc in Hno.
        apply negb_false_iff, Qle_bool_iff in Hno. exact Hno. }
    split.
    { destruct Hfrom as [->|(r & Hr & Hread & Hch & Hat)].
      - destruct (update_entry_cases req entry) as [(Hadv & _)|(_ & ->)];
          [|left; reflexivity].
        right. exists req. split; [apply list_elem_of_here|].
        split; [apply andb_true_iff in Hadv as [Hread _]; exact Hread|].
        unfold update_entry. rewrite Hadv. split; reflexivity.
      - right. exists r. split; [apply list_elem_of_further, Hr|]. auto. }
    assert (Hgt' : Forall (fun c => (currentLastRead entry < c)%Q)
                     (awarded reqs awards)).
    { eapply Forall_impl; [exact Hgt|]. intros c Hc.
      eapply Qle_lt_trans; eassumption. }
    cbn [awarded]. destruct (chapterNumber req) as [c|] eqn:Hc;
      [|split; assumption].
    destruct (shouldAwardXp req entry) eqn:Haward; [|split; assumption].
    unfold shouldAwardXp in Haward.
    apply andb_true_iff in Haward as [Hadv _].
    destruct (update_entry_cases req entry)
      as [(_ & c' & Hc' & Hlt & Hcur)|(Hno & _)]; [|congruence].
    rewrite Hc in Hc'. injection Hc' as <-.
    rewrite Hcur in Hgt.
    split; constructor; assumption.
Qed.

(** X14. However many progress requests are served on a library entry,
    its last-read chapter never goes down and ends at least as high as
    every chapter number a request marked read.  The entry at the end is
    the entry at the start, or carries the chapter number and the
    timestamp of one of the requests that marked a chapter read; requests
    with [isRead] false never write it. *)
Theorem last_read_chapter_never_goes_back
    (reqs : list ProgressRequest) (entry : LibraryEntry) :
  let entry' := fst (serve reqs entry) in
  (currentLastRead entry <= currentLastRead entry')%Q
  /\ (forall req c, req ∈ reqs -> isRead (body req) = true ->
        chapterNumber req = Some c -> (c <= currentLastRead entry')%Q)
  /\ (entry' = entry
      \/ exists req, req ∈ reqs /\ isRead (body req) = true
           /\ last_read_chapter entry' = chapterNumber req
           /\ last_read_at entry' = Some (targetTimestamp (body req))).
Proof.
  cbn zeta. destruct (serve_spec reqs entry) as (H1 & H2 & H3 & _).
  auto.
Qed.

(** X15. XP for reading is awarded for strictly increasing chapter
    numbers only: the requests that are awarded XP carry chapter numbers
    above the entry's last-read chapter, each higher than the one before.
    So a replayed request, a lower chapter, or a chapter marked unread
    earns nothing, whatever the read tables say. *)
Theorem xp_awards_strictly_increase
    (reqs : list ProgressRequest) (entry : LibraryEntry) :
  let awards := snd (serve reqs entry) in
  length awards = length reqs
  /\ Forall (fun c => (currentLastRead entry < c)%Q) (awarded reqs awards)
  /\ StronglySorted Qlt (awarded reqs awards)
  /\ (forall req, shouldAwardXp req (update_entry req entry) = false).
Proof.
  cbn zeta. destruct (serve_spec reqs entry) as (_ & _ & _ & H4 & H5).
  split; [|split; [exact H4|split; [exact H5|]]].
  - revert entry H4 H5. induction reqs as [|req reqs IH]; intros entry _ _;
      [reflexivity|].
    cbn [serve]. specialize (IH (update_entry req entry)).
    destruct (serve_spec reqs (update_entry req entry)) as (_ & _ & _ & H4 & H5).
    specialize (IH H4 H5).
    destruct (serve reqs (update_entry req entry)). cbn in *. lia.
  - intros req. unfold shouldAwardXp.
    destruct (isRead (body req)) eqn:Hread; [|reflexivity].
    destruct (isNewChapter req (update_entry req entry)) eqn:Hnew; [|reflexivity].
    exfalso. apply isNewChapter_spec in Hnew as (c & Hc & Hlt).
    destruct (update_entry_cases req entry)
      as [(_ & c' & Hc' & _ & Hcur)|(Hno & Hsame)].
    + rewrite Hc in Hc'. injection Hc' as <-. rewrite Hcur in Hlt.
      apply (Qlt_irrefl _ Hlt).
    + rewrite Hsame in Hlt. rewrite Hread in Hno. cbn in Hno.
      unfold isNewChapter in Hno. rewrite Hc in Hno.
      apply negb_false_iff, Qle_bool_iff in Hno.
      apply (Qlt_not_le _ _ Hlt Hno).
Qed.

End Progress.

(* ===================================================================== *)
(** ** Library removal: [removeFromLibrary] (server action) and
       [DELETE /api/library/[id]] (route); both run the same transaction. *)
(* ===================================================================== *)
Module Library.

Record LibraryEntry := mkEntry {
  user_id : string;
  series_id : option string;
  deleted_at : option Z;
}.

Record Series := mkSeries {
  title : string;
  total_follows : Z;
}.

(** The two tables the transaction touches, keyed by primary key. *)
Record Db := mkDb {
  library_entries : gmap string LibraryEntry;
  series : gmap string Series;
}.

Inductive Outcome := Removed | EntryNotFound.

(** [tx.libraryEntry.findUnique({ where: { id, user_id } })] through the
    soft-delete client: the row must belong to the user and be live. *)
Definition findUnique (db : Db) (entryId userId : string) : option LibraryEntry :=
  match library_entries db !! entryId with
  | Some e =>
      if bool_decide (user_id e = userId) && bool_decide (deleted_at e = None)
      then Some e else None
  | None => None
  end.

(** [tx.libraryEntry.delete]: the client turns it into setting [deleted_at]. *)
Definition delete_entry (now : Z) (entryId : string)
    (t : gmap string LibraryEntry) : gmap string LibraryEntry :=
  alter (fun e => mkEntry (user_id e) (series_id e) (Some now)) entryId t.

(** [UPDATE series SET total_follows = GREATEST(0, total_follows - 1)
     WHERE id = sid]. *)
Definition decrement_follows (sid : string)
    (t : gmap string Series) : gmap string Series :=
  alter (fun s => mkSeries (title s) (Z.max 0 (total_follows s - 1))) sid t.

(** The transaction body.  A missing entry throws, and the transaction
    then leaves the database as it was.  [if (entry.series_id)] is
    JavaScript truthiness: neither [null] nor the empty string. *)
Definition removeFromLibrary (now : Z) (entryId userId : string) (db : Db)
  : Db * Outcome :=
  match findUnique db entryId userId with
  | None => (db, EntryNotFound)
  | Some entry =>
      let entries' := delete_entry now entryId (library_entries db) in
      let series' :=
        match series_id entry with
        | Some sid => if negb (String.eqb sid "")
                      then decrement_follows sid (series db)
                      else series db
        | None => series db
        end in
      (mkDb entries' series', Removed)
  end.

(** One removal request: clock, entry id, authenticated user. *)
Record Removal := mkRemoval { at_time : Z; entry : string; by_user : string }.

Definition remove_all (rs : list Removal) (db : Db) : Db :=
  fold_left (fun d r => fst (removeFromLibrary (at_time r) (entry r) (by_user r) d))
            rs db.

Definition follows_nonneg (t : gmap string Series) : Prop :=
  forall sid s, t !! sid = Some s -> 0 <= total_follows s.

Lemma decrement_follows_lookup sid t k :
  decrement_follows sid t !! k
  = if decide (sid = k)
    then (fun s => mkSeries (title s) (Z.max 0 (total_follows s - 1))) <$> t !! k
    else t !! k.
Proof.
  unfold decrement_follows. destruct (decide (sid = k)) as [->|Hne].
  - apply lookup_alter_eq.
  - apply lookup_alter_ne. exact Hne.
Qed.

Lemma decrement_follows_nonneg sid t :
  follows_nonneg t -> follows_nonneg (decrement_follows sid t).
Proof.
  intros Ht k s. rewrite decrement_follows_lookup.
  destruct (decide (sid = k)) as [_|_]; [|apply Ht].
  destruct (t !! k) as [s0|]; cbn; [|discriminate].
  intros [= <-]. cbn. lia.
Qed.

Lemma removeFromLibrary_nonneg now entryId userId db :
  follows_nonneg (series db) ->
  follows_nonneg (series (fst (removeFromLibrary now entryId userId db))).
Proof.
  intros Hdb. unfold removeFromLibrary.
  destruct (findUnique db entryId userId) as [e|]; cbn; [|exact Hdb].
  destruct (series_id e) as [sid|]; [|exact Hdb].
  destruct (negb (String.eqb sid "")); [|exact Hdb].
  apply decrement_follows_nonneg, Hdb.
Qed.

Lemma remove_all_nonneg rs : forall db,
  follows_nonneg (series db) -> follows_nonneg (series (remove_all rs db)).
Proof.
  induction rs as [|r rs IH]; intros db Hdb; [exact Hdb|].
  cbn. apply IH, removeFromLibrary_nonneg, Hdb.
Qed.

(** C9. Removing a live library entry of the user sets the owning series'
    [total_follows] to [max 0 (total_follows - 1)] in the same transaction
    that marks the entry deleted, and leaves every other series row alone;
    so after any sequence of removals no [total_follows] is negative. *)
Theorem follow_count_floor (db : Db) (rs : list Removal) :
  follows_nonneg (series db) ->
  follows_nonneg (series (remove_all rs db))
  /\ (forall now entryId userId e sid s,
        findUnique db entryId userId = Some e ->
        series_id e = Some sid -> sid <> "" ->
        series db !! sid = Some s ->
        let db' := fst (removeFromLibrary now entryId userId db) in
        snd (removeFromLibrary now entryId userId db) = Removed
        /\ series db' !! sid
           = Some (mkSeries (title s) (Z.max 0 (total_follows s - 1)))
        /\ 0 <= Z.max 0 (total_follows s - 1)
        /\ (forall k, k <> sid -> series db' !! k = series db !! k)
        /\ library_entries db' !! entryId
           = Some (mkEntry (user_id e) (series_id e) (Some now))).
Proof.
  intros Hdb. split; [apply remove_all_nonneg, Hdb|].
  intros now entryId userId e sid s Hfind Hsid Hne Hs db'.
  subst db'. unfold removeFromLibrary. rewrite Hfind, Hsid.
  assert (Ht : negb (String.eqb sid "") = true).
  { apply negb_true_iff, String.eqb_neq, Hne. }
  rewrite Ht. cbn.
  split; [reflexivity|].
  split.
  { rewrite decrement_follows_lookup, decide_True by reflexivity.
    rewrite Hs. reflexivity. }
  split; [lia|].
  split.
  { intros k Hk. rewrite decrement_follows_lookup, decide_False by congruence.
    reflexivity. }
  unfold delete_entry. rewrite lookup_alter_eq.
  unfold findUnique in Hfind.
  destruct (library_entries db !! entryId) as [e0|]; [|discriminate].
  destruct (bool_decide (user_id e0 = userId) && bool_decide (deleted_at e0 = None));
    [|discriminate].
  injection Hfind as ->. cbn. rewrite Hsid. reflexivity.
Qed.

(** A series with no follower left: removing its last two entries keeps
    the counter at zero. *)
Definition small_db : Db :=
  mkDb {[ "e1" := mkEntry "u1" (Some "s1") None;
          "e2" := mkEntry "u2" (Some "s1") None ]}
       {[ "s1" := mkSeries "One Piece" 1 ]}.

Lemma follow_count_floor_witness :
  follows_nonneg (series small_db)
  /\ follows_nonneg
       (series (remove_all [mkRemoval 10 "e1" "u1"; mkRemoval 11 "e2" "u2"] small_db)).
Proof.
  assert (H : follows_nonneg (series small_db)).
  { intros sid s. unfold small_db; cbn.
    intros [_ <-]%lookup_singleton_Some. cbn. lia. }
  split; [exact H|].
  exact (proj1 (follow_count_floor small_db
                  [mkRemoval 10 "e1" "u1"; mkRemoval 11 "e2" "u2"] H)).
Defined.

Example remove_twice_stays_zero :
  total_follows <$>
    series (remove_all [mkRemoval 10 "e1" "u1"; mkRemoval 11 "e2" "u2"] small_db)
      !! "s1"
  = Some 0.
Proof. vm_compute. reflexivity. Qed.

(** *** Further facts about [removeFromLibrary] *)

Lemma findUnique_Some db entryId userId e :
  findUnique db entryId userId = Some e ->
  library_entries db !! entryId = Some e
  /\ user_id e = userId /\ deleted_at e = None.
Proof.
  unfold findUnique. destruct (library_entries db !! entryId) as [e0|]; [|discriminate].
  destruct (bool_decide (user_id e0 = userId)) eqn:Hu; [|discriminate].
  destruct (bool_decide (deleted_at e0 = None)) eqn:Hd; [|discriminate].
  intros [= <-]. apply bool_decide_eq_true_1 in Hu, Hd. auto.
Qed.

Lemma findUnique_deleted db entryId userId e now :
  library_entries db !! entryId = Some (mkEntry (user_id e) (series_id e) (Some now)) ->
  findUnique db entryId userId = None.
Proof.
  unfold findUnique. intros ->.
  assert (H : bool_decide (user_id (mkEntry (user_id e) (series_id e) (Some now)) = userId)
              && bool_decide (deleted_at (mkEntry (user_id e) (series_id e) (Some now))
                              = None) = false).
  { apply andb_false_iff. right. apply bool_decide_eq_false_2. discriminate. }
  rewrite H. reflexivity.
Qed.

(** X5. An entry is removed at most once.  After a removal that
    succeeded, a further removal of the same entry, by its owner or by
    anyone else, finds no entry and leaves both tables as they are, so the
    follow count of its series is not lowered a second time. *)
Theorem removal_happens_once (now now' : Z) (entryId userId userId' : string) (db : Db) :
  snd (removeFromLibrary now entryId userId db) = Removed ->
  let db1 := fst (removeFromLibrary now entryId userId db) in
  removeFromLibrary now' entryId userId' db1 = (db1, EntryNotFound).
Proof.
  unfold removeFromLibrary at 1 2.
  destruct (findUnique db entryId userId) as [e|] eqn:Hfind; [|discriminate].
  intros _. cbn [fst].
  apply findUnique_Some in Hfind as (Hlook & _ & _).
  unfold removeFromLibrary.
  rewrite (findUnique_deleted _ entryId userId' e now); [reflexivity|].
  cbn [library_entries]. unfold delete_entry.
  rewrite lookup_alter_eq, Hlook. reflexivity.
Qed.

Lemma removal_happens_once_witness :
  snd (removeFromLibrary 10 "e1" "u1" small_db) = Removed
  /\ removeFromLibrary 11 "e1" "u1" (fst (removeFromLibrary 10 "e1" "u1" small_db))
     = (fst (removeFromLibrary 10 "e1" "u1" small_db), EntryNotFound).
Proof.
  split; [vm_compute; reflexivity|].
  apply (removal_happens_once 10 11 "e1" "u1" "u1" small_db).
  vm_compute. reflexivity.
Defined.

(** X6. A removal never drops a row and never touches what is not the
    caller's: both tables keep their keys, every entry other than the
    named one is unchanged, and the named entry itself is unchanged, with
    no follow count moved, when it belongs to another user. *)
Theorem removal_spares_others (now : Z) (entryId userId : string) (db : Db) :
  let db' := fst (removeFromLibrary now entryId userId db) in
  dom (library_entries db') = dom (library_entries db)
  /\ dom (series db') = dom (series db)
  /\ (forall k, k <> entryId -> library_entries db' !! k = library_entries db !! k)
  /\ (forall e, library_entries db !! entryId = Some e -> user_id e <> userId ->
        removeFromLibrary now entryId userId db = (db, EntryNotFound)).
Proof.
  cbn zeta. split; [|split; [|split]].
  - unfold removeFromLibrary.
    destruct (findUnique db entryId userId); cbn; [|reflexivity].
    unfold delete_entry. apply dom_alter_L.
  - unfold removeFromLibrary.
    destruct (findUnique db entryId userId) as [e|]; cbn; [|reflexivity].
    destruct (series_id e) as [sid|]; [|reflexivity].
    destruct (negb (String.eqb sid "")); [|reflexivity].
    unfold decrement_follows. apply dom_alter_L.
  - intros k Hk. unfold removeFromLibrary.
    destruct (findUnique db entryId userId); cbn; [|reflexivity].
    unfold delete_entry. apply lookup_alter_ne. congruence.
  - intros e He Hu. unfold removeFromLibrary, findUnique. rewrite He.
    rewrite (bool_decide_eq_false_2 _ Hu). reflexivity.
Qed.

End Library.

(* ===================================================================== *)
(** ** Sync reconciler: [src/lib/sync/reconciler.ts]. *)
(* ===================================================================== *)
Module Reconciler.

Definition MAX_RETRIES : Z := 5.

(** [SyncAction['type']]: the five action types of the outbox. *)
Inductive ActionType :=
  CHAPTER_READ | LIBRARY_UPDATE | LIBRARY_DELETE | LIBRARY_ADD | SETTING_UPDATE.

#[global] Instance ActionType_eq_dec : EqDecision ActionType.
Proof. solve_decision. Defined.

(** The payload fields the handlers read; a field an action type does not
    carry is [None] (JavaScript [undefined]) or the empty string. *)
Record Payload := mkPayload {
  entryId : string;
  seriesId : string;
  payload_status : option string;
  rating : option Z;
  chapterNumber : option Q;
  sourceId : option string;
  settings : string;
}.

Record SyncAction := mkAction {
  id : string;
  type : ActionType;
  payload : Payload;
  timestamp : Z;
  deviceId : string;
  retryCount : Z;
}.

(** One [fetch] call: its route, method and the body fields sent. *)
Inductive Request :=
| ReplayBatch (actions : list SyncAction)        (* POST /api/sync/replay *)
| ProgressPatch (entry : string) (chapter : option Q) (source : option string)
                (time : Z) (device : string)     (* PATCH /api/library/:id/progress *)
| LibraryPatch (entry : string) (new_status : option string)
               (new_rating : option Z)           (* PATCH /api/library/:id *)
| LibraryDelete (entry : string)                 (* DELETE /api/library/:id *)
| LibraryPost (series : string) (new_status : string)  (* POST /api/library *)
| UserPatch (new_settings : string).             (* PATCH /api/users/me *)

(** What the reconciler reads of a response: the HTTP status and, for the
    batch route, the parsed [results] ([None]: the body does not parse to
    an object with an iterable [results], so reading it throws). *)
Record Response := mkResponse {
  status : Z;
  results : option (list (string * string));
}.

(** [response.ok]. *)
Definition ok (r : Response) : bool := (200 <=? status r) && (status r <=? 299).

(** A settled [fetch]: a response, or a rejection (network failure). *)
Inductive FetchResult := Resolved (r : Response) | Rejected.

(** What a drain pass does, in program order. *)
Inductive Event :=
| EvFetch (req : Request)
| EvSettled (res : FetchResult)
| EvDequeue (action_id : string)
| EvUpdateRetry (action_id : string)
| EvSkipped (action_id : string).

(** Modelled from the spec: [SyncOutbox.dequeue] of [./outbox], which is not
    among the sources; an action is "removed on confirmed server
    acceptance". *)
Definition SyncOutbox_dequeue (i : string) (l : list SyncAction) : list SyncAction :=
  filter (fun a => id a <> i) l.

Definition bump (a : SyncAction) : SyncAction :=
  mkAction (id a) (type a) (payload a) (timestamp a) (deviceId a) (retryCount a + 1).

(** Modelled from the spec: [SyncOutbox.updateRetry] of [./outbox], which is
    not among the sources; the "retry count [is] incremented on failure". *)
Definition SyncOutbox_updateRetry (i : string) (l : list SyncAction) : list SyncAction :=
  (fun a => if decide (id a = i) then bump a else a) <$> l.

(** [[...actions].sort((a, b) => a.timestamp - b.timestamp)]: ascending by
    timestamp, and stable as [Array.prototype.sort] is. *)
Fixpoint insert_by_timestamp (a : SyncAction) (l : list SyncAction) : list SyncAction :=
  match l with
  | [] => [a]
  | b :: l' =>
      if timestamp a <=? timestamp b then a :: b :: l'
      else b :: insert_by_timestamp a l'
  end.

Definition sort_by_timestamp (l : list SyncAction) : list SyncAction :=
  foldr insert_by_timestamp [] l.

Definition requests (t : list Event) : list Request :=
  omap (fun e => match e with EvFetch r => Some r | _ => None end) t.

(** Every request is settled before anything else happens: while a request
    is in flight ([in_flight = true]) the only event allowed is its
    settlement, so no second request is issued before the response. *)
Fixpoint awaited_from (in_flight : bool) (t : list Event) : bool :=
  match t with
  | [] => negb in_flight
  | EvFetch _ :: t' => if in_flight then false else awaited_from true t'
  | EvSettled _ :: t' => if in_flight then awaited_from false t' else false
  | _ :: t' => if in_flight then false else awaited_from false t'
  end.

Definition awaited (t : list Event) : bool := awaited_from false t.

(** The calls made on the outbox store for action id [i]. *)
Definition touches (i : string) (e : Event) : bool :=
  match e with
  | EvDequeue j | EvUpdateRetry j => bool_decide (j = i)
  | EvFetch _ | EvSettled _ | EvSkipped _ => false
  end.

Definition store_calls (i : string) (t : list Event) : list Event :=
  List.filter (touches i) t.

Section Drain.

(** The server: any state, any way of answering a request. *)
Context {Server : Type} (respond : Server -> Request -> Server * FetchResult).

(** The outbox store, the server, and the events so far. *)
Record World := mkWorld {
  outbox : list SyncAction;
  server : Server;
  trace : list Event;
}.

Definition emit (es : list Event) (w : World) : World :=
  mkWorld (outbox w) (server w) (trace w ++ es).

Definition fetch (req : Request) (w : World) : FetchResult * World :=
  let '(s', res) := respond (server w) req in
  (res, mkWorld (outbox w) s' (trace w ++ [EvFetch req; EvSettled res])).

Definition dequeue (i : string) (w : World) : World :=
  mkWorld (SyncOutbox_dequeue i (outbox w)) (server w) (trace w ++ [EvDequeue i]).

Definition updateRetry (i : string) (w : World) : World :=
  mkWorld (SyncOutbox_updateRetry i (outbox w)) (server w)
          (trace w ++ [EvUpdateRetry i]).

(** The largest time value a [Date] holds, in milliseconds either side of
    the epoch; [new Date(t).toISOString()] throws a RangeError beyond it. *)
Definition MAX_TIME_VALUE : Z := 8640000000000000.

Definition valid_time (t : Z) : bool :=
  (- MAX_TIME_VALUE <=? t) && (t <=? MAX_TIME_VALUE).

(** A handler's verdict on a settled fetch: [Some b] when it returns [b],
    [None] when the awaited [fetch] threw.  [None] is what a handler that
    throws gives. *)
Definition verdict (accept : Response -> bool) (res : FetchResult) : option bool :=
  match res with
  | Resolved r => Some (accept r)
  | Rejected => None
  end.

(** The body is built before the request goes out, and
    [new Date(timestamp).toISOString()] throws on a timestamp no [Date] can
    hold: then nothing is fetched. *)
Definition handleChapterRead (action : SyncAction) (w : World) : option bool * World :=
  let p := payload action in
  if valid_time (timestamp action) then
    let '(res, w') :=
      fetch (ProgressPatch (entryId p) (chapterNumber p) (sourceId p)
               (timestamp action) (deviceId action)) w in
    (verdict (fun r => ok r || (status r =? 409)) res, w')
  else (None, w).

Definition handleLibraryUpdate (p : Payload) (w : World) : option bool * World :=
  let '(res, w') := fetch (LibraryPatch (entryId p) (payload_status p) (rating p)) w in
  (verdict ok res, w').

Definition handleLibraryDelete (p : Payload) (w : World) : option bool * World :=
  let '(res, w') := fetch (LibraryDelete (entryId p)) w in
  (verdict (fun r => ok r || (status r =? 404)) res, w').

(** [payload.status || 'reading']: an absent or empty status defaults. *)
Definition handleLibraryAdd (p : Payload) (w : World) : option bool * World :=
  let st := match payload_status p with
            | Some s => if String.eqb s "" then "reading" else s
            | None => "reading"
            end in
  let '(res, w') := fetch (LibraryPost (seriesId p) st) w in
  (verdict ok res, w').

Definition handleSettingUpdate (p : Payload) (w : World) : option bool * World :=
  let '(res, w') := fetch (UserPatch (settings p)) w in
  (verdict ok res, w').

(** [executeAction]; its [default] arm is out of reach of the five types. *)
Definition executeAction (action : SyncAction) (w : World) : option bool * World :=
  match type action with
  | CHAPTER_READ => handleChapterRead action w
  | LIBRARY_UPDATE => handleLibraryUpdate (payload action) w
  | LIBRARY_DELETE => handleLibraryDelete (payload action) w
  | LIBRARY_ADD => handleLibraryAdd (payload action) w
  | SETTING_UPDATE => handleSettingUpdate (payload action) w
  end.

(** The body of [for (const res of results)]. *)
Definition apply_result (w : World) (res : string * string) : World :=
  if String.eqb (snd res) "success"
  then dequeue (fst res) w
  else updateRetry (fst res) w.

(** [chapterReadActions.forEach(a => SyncOutbox.updateRetry(a.id))]. *)
Definition retry_all (l : list SyncAction) (w : World) : World :=
  fold_left (fun w a => updateRetry (id a) w) l w.

(** Step 2: one request for all chapter-read actions. *)
Definition replay_batch (chapterReadActions : list SyncAction) (w : World) : World :=
  let '(res, w') := fetch (ReplayBatch chapterReadActions) w in
  match res with
  | Resolved r =>
      if ok r then
        match results r with
        | Some rs => fold_left apply_result rs w'
        | None => retry_all chapterReadActions w'
        end
      else retry_all chapterReadActions w'
  | Rejected => retry_all chapterReadActions w'
  end.

(** Step 3, the body of [for (const action of otherActions)]. *)
Definition replay_one (w : World) (action : SyncAction) : World :=
  if MAX_RETRIES <=? retryCount action
  then emit [EvSkipped (id action)] w
  else
    let '(success, w') := executeAction action w in
    match success with
    | Some true => dequeue (id action) w'
    | Some false | None => updateRetry (id action) w'
    end.

(** [processOutbox].  [browser] is [typeof window !== 'undefined'], [onLine]
    is [navigator.onLine]; [actions] is what [SyncOutbox.getActions()]
    returns, the stored outbox. *)
Definition processOutbox (browser onLine : bool)
    (actions : list SyncAction) (s : Server) : World :=
  let w := mkWorld actions s [] in
  if negb browser || negb onLine then w
  else
    match actions with
    | [] => w
    | _ :: _ =>
        let sortedActions := sort_by_timestamp actions in
        let chapterReadActions :=
          filter (fun a => type a = CHAPTER_READ) sortedActions in
        let otherActions :=
          filter (fun a => type a <> CHAPTER_READ) sortedActions in
        let w1 := match chapterReadActions with
                  | [] => w
                  | _ :: _ => replay_batch chapterReadActions w
                  end in
        fold_left replay_one otherActions w1
    end.

(** The request each handler builds for an action. *)
Definition request_of (a : SyncAction) : Request :=
  let p := payload a in
  match type a with
  | CHAPTER_READ =>
      ProgressPatch (entryId p) (chapterNumber p) (sourceId p) (timestamp a) (deviceId a)
  | LIBRARY_UPDATE => LibraryPatch (entryId p) (payload_status p) (rating p)
  | LIBRARY_DELETE => LibraryDelete (entryId p)
  | LIBRARY_ADD =>
      LibraryPost (seriesId p)
        match payload_status p with
        | Some s => if String.eqb s "" then "reading" else s
        | None => "reading"
        end
  | SETTING_UPDATE => UserPatch (settings p)
  end.

(** Whether the handler of an action gets as far as its [fetch]. *)
Definition reaches_fetch (a : SyncAction) : bool :=
  match type a with
  | CHAPTER_READ => valid_time (timestamp a)
  | LIBRARY_UPDATE | LIBRARY_DELETE | LIBRARY_ADD | SETTING_UPDATE => true
  end.

(** Which statuses each handler accepts as success. *)
Definition accepted (ty : ActionType) (r : Response) : bool :=
  match ty with
  | CHAPTER_READ => ok r || (status r =? 409)
  | LIBRARY_DELETE => ok r || (status r =? 404)
  | LIBRARY_UPDATE | LIBRARY_ADD | SETTING_UPDATE => ok r
  end.

(** [w'] continues [w]: same store discipline, the trace grows by events
    whose requests are [rs], each awaited. *)
Definition extends (w w' : World) (rs : list Request) : Prop :=
  exists es : list Event,
    trace w' = (trace w ++ es)%list /\ requests es = rs /\ awaited es = true.

End Drain.

Arguments World : clear implicits.

(** *** Sorting *)

Lemma insert_by_timestamp_perm a l : insert_by_timestamp a l ≡ₚ a :: l.
Proof.
  induction l as [|b l IH]; cbn; [reflexivity|].
  destruct (timestamp a <=? timestamp b); [reflexivity|].
  rewrite IH. apply Permutation_swap.
Qed.

Lemma sort_by_timestamp_cons a l :
  sort_by_timestamp (a :: l) = insert_by_timestamp a (sort_by_timestamp l).
Proof. reflexivity. Qed.

Lemma sort_by_timestamp_perm l : sort_by_timestamp l ≡ₚ l.
Proof.
  induction l as [|a l IH]; [reflexivity|].
  rewrite sort_by_timestamp_cons, insert_by_timestamp_perm. f_equiv. exact IH.
Qed.

Definition by_timestamp (a b : SyncAction) : Prop := timestamp a <= timestamp b.

Lemma insert_by_timestamp_sorted a l :
  StronglySorted by_timestamp l -> StronglySorted by_timestamp (insert_by_timestamp a l).
Proof.
  induction 1 as [|b l Hl IH Hb]; cbn.
  - repeat constructor.
  - destruct (Z.leb_spec (timestamp a) (timestamp b)) as [Hle|Hgt].
    + constructor; [constructor; assumption|].
      constructor; [exact Hle|].
      eapply Forall_impl; [exact Hb|]. unfold by_timestamp. intros c Hc. lia.
    + constructor; [exact IH|].
      rewrite insert_by_timestamp_perm.
      constructor; [unfold by_timestamp; lia|exact Hb].
Qed.

Lemma sort_by_timestamp_sorted l : StronglySorted by_timestamp (sort_by_timestamp l).
Proof.
  induction l as [|a l IH]; [constructor|].
  rewrite sort_by_timestamp_cons. apply insert_by_timestamp_sorted, IH.
Qed.

(** Stability: actions with the same timestamp keep their outbox order. *)
Lemma insert_by_timestamp_stable t a l :
  StronglySorted by_timestamp l ->
  filter (fun b => timestamp b = t) (insert_by_timestamp a l)
  = filter (fun b => timestamp b = t) (a :: l).
Proof.
  induction 1 as [|b l Hl IH Hb]; cbn; [reflexivity|].
  destruct (Z.leb_spec (timestamp a) (timestamp b)) as [Hle|Hgt]; [reflexivity|].
  rewrite (filter_cons _ b), IH, !filter_cons.
  destruct (decide (timestamp b = t)) as [Eb|Nb];
    destruct (decide (timestamp a = t)) as [Ea|Na]; try reflexivity.
  lia.
Qed.

Lemma sort_by_timestamp_stable t l :
  filter (fun b => timestamp b = t) (sort_by_timestamp l)
  = filter (fun b => timestamp b = t) l.
Proof.
  induction l as [|a l IH]; [reflexivity|].
  rewrite sort_by_timestamp_cons.
  rewrite insert_by_timestamp_stable by apply sort_by_timestamp_sorted.
  rewrite !filter_cons, IH. reflexivity.
Qed.

(** *** Traces *)

Lemma requests_app t1 t2 : requests (t1 ++ t2) = requests t1 ++ requests t2.
Proof. apply omap_app. Qed.

Lemma awaited_from_app b t1 t2 :
  awaited_from b t1 = true -> awaited_from b (t1 ++ t2) = awaited_from false t2.
Proof.
  revert b. induction t1 as [|e t1 IH]; intros b H; cbn in *.
  - destruct b; [discriminate|reflexivity].
  - destruct e, b; try discriminate; apply IH, H.
Qed.

Lemma awaited_app t1 t2 :
  awaited t1 = true -> awaited t2 = true -> awaited (t1 ++ t2) = true.
Proof.
  unfold awaited. intros H1 H2. rewrite awaited_from_app by exact H1. exact H2.
Qed.

Section DrainFacts.

Context {Server : Type} (respond : Server -> Request -> Server * FetchResult).

Abbreviation extends := (@extends Server).

Lemma extends_refl w : extends w w [].
Proof. exists []. rewrite app_nil_r. repeat split. Qed.

Lemma extends_trans w1 w2 w3 r1 r2 :
  extends w1 w2 r1 -> extends w2 w3 r2 -> extends w1 w3 (r1 ++ r2).
Proof.
  intros (e1 & T1 & R1 & A1) (e2 & T2 & R2 & A2).
  exists (e1 ++ e2). rewrite T2, T1, app_assoc, requests_app, R1, R2.
  split; [reflexivity|]. split; [reflexivity|].
  apply awaited_app; assumption.
Qed.

Lemma extends_quiet w w' e :
  trace w' = trace w ++ [e] ->
  match e with EvFetch _ | EvSettled _ => False | _ => True end ->
  extends w w' [].
Proof.
  intros T He. exists [e]. split; [exact T|].
  destruct e; try contradiction; split; reflexivity.
Qed.

Lemma dequeue_extends i w : extends w (dequeue i w) [].
Proof. apply (extends_quiet _ _ (EvDequeue i)); [reflexivity|exact I]. Qed.

Lemma updateRetry_extends i w : extends w (updateRetry i w) [].
Proof. apply (extends_quiet _ _ (EvUpdateRetry i)); [reflexivity|exact I]. Qed.

Lemma fetch_extends req w :
  extends w (snd (fetch respond req w)) [req]
  /\ outbox (snd (fetch respond req w)) = outbox w
  /\ respond (server w) req
     = (server (snd (fetch respond req w)), fst (fetch respond req w)).
Proof.
  unfold fetch. destruct (respond (server w) req) as [s' res]. cbn.
  split; [|split; reflexivity].
  exists [EvFetch req; EvSettled res]. repeat split.
Qed.

(** A handler that throws before its [fetch] leaves the world as it is. *)
Lemma executeAction_throws a w :
  reaches_fetch a = false -> executeAction respond a w = (None, w).
Proof.
  unfold reaches_fetch, executeAction, handleChapterRead.
  destruct (type a); try discriminate. intros ->. reflexivity.
Qed.

(** [executeAction] issues the one request of the action's handler and
    returns the handler's verdict on the answer; the outbox is not touched. *)
Lemma executeAction_spec a w :
  reaches_fetch a = true ->
  extends w (snd (executeAction respond a w)) [request_of a]
  /\ outbox (snd (executeAction respond a w)) = outbox w
  /\ fst (executeAction respond a w)
     = verdict (accepted (type a)) (snd (respond (server w) (request_of a))).
Proof.
  unfold reaches_fetch, executeAction, request_of, accepted,
    handleChapterRead, handleLibraryUpdate, handleLibraryDelete,
    handleLibraryAdd, handleSettingUpdate.
  destruct (type a); intros Hreach; rewrite ?Hreach;
    match goal with
    | |- context [fetch respond ?req w] =>
        destruct (fetch_extends req w) as (He & Ho & Hr);
        destruct (fetch respond req w) as [res w']; cbn in *;
        rewrite Hr; cbn; repeat split; assumption
    end.
Qed.

Lemma executeAction_outbox a w :
  outbox (snd (executeAction respond a w)) = outbox w.
Proof.
  destruct (reaches_fetch a) eqn:Hreach.
  - apply (executeAction_spec a w Hreach).
  - rewrite (executeAction_throws a w Hreach). reflexivity.
Qed.

Lemma others_reach_fetch (l : list SyncAction) :
  Forall (fun a => reaches_fetch a = true)
    (filter (fun a => type a <> CHAPTER_READ) l).
Proof.
  apply Forall_forall. intros a [Hty _]%list_elem_of_filter.
  unfold reaches_fetch. destruct (type a); [contradiction|reflexivity..].
Qed.

Lemma replay_one_extends a w :
  reaches_fetch a = true ->
  extends w (replay_one respond w a)
    (if MAX_RETRIES <=? retryCount a then [] else [request_of a]).
Proof.
  intros Hreach.
  unfold replay_one. destruct (MAX_RETRIES <=? retryCount a).
  - apply (extends_quiet _ _ (EvSkipped (id a))); [reflexivity|exact I].
  - destruct (executeAction_spec a w Hreach) as (He & _ & _).
    destruct (executeAction respond a w) as [success w']; cbn in He.
    change [request_of a] with ([request_of a] ++ []).
    destruct success as [[|]|];
      (eapply extends_trans; [exact He|]);
      auto using dequeue_extends, updateRetry_extends.
Qed.

Lemma fold_replay_extends l : forall w,
  Forall (fun a => reaches_fetch a = true) l ->
  extends w (fold_left (replay_one respond) l w)
    (request_of <$> filter (fun a => retryCount a < MAX_RETRIES) l).
Proof.
  induction l as [|a l IH]; intros w Hl; [apply extends_refl|].
  apply Forall_cons in Hl as [Hreach Hl].
  cbn [fold_left]. rewrite filter_cons.
  pose proof (replay_one_extends a w Hreach) as Ha.
  destruct (Z.leb_spec MAX_RETRIES (retryCount a)) as [Hge|Hlt].
  - rewrite decide_False by lia.
    change (request_of <$> _) with ([] ++ (request_of <$>
      filter (fun a => retryCount a < MAX_RETRIES) l)).
    eapply extends_trans; [exact Ha|apply IH, Hl].
  - rewrite decide_True by lia.
    change (request_of <$> _) with ([request_of a] ++ (request_of <$>
      filter (fun a => retryCount a < MAX_RETRIES) l)).
    eapply extends_trans; [exact Ha|apply IH, Hl].
Qed.

Lemma retry_all_extends l : forall w, extends w (retry_all l w) [].
Proof.
  induction l as [|a l IH]; intros w; [apply extends_refl|].
  change [] with (@nil Request ++ []).
  eapply extends_trans; [apply (updateRetry_extends (id a))|apply IH].
Qed.

Lemma fold_apply_result_extends rs : forall w,
  extends w (fold_left apply_result rs w) [].
Proof.
  induction rs as [|res rs IH]; intros w; [apply extends_refl|].
  change [] with (@nil Request ++ []).
  eapply extends_trans; [|apply IH].
  unfold apply_result. destruct (String.eqb (snd res) "success");
    auto using dequeue_extends, updateRetry_extends.
Qed.

Lemma replay_batch_extends crs w :
  extends w (replay_batch respond crs w) [ReplayBatch crs].
Proof.
  unfold replay_batch.
  destruct (fetch_extends (ReplayBatch crs) w) as (He & _ & _).
  destruct (fetch respond (ReplayBatch crs) w) as [res w']; cbn in He.
  change [ReplayBatch crs] with ([ReplayBatch crs] ++ []).
  eapply extends_trans; [exact He|].
  destruct res as [r|]; [|apply retry_all_extends].
  destruct (ok r); [|apply retry_all_extends].
  destruct (results r); [apply fold_apply_result_extends|apply retry_all_extends].
Qed.

(** The requests of a drain pass that gets past the connectivity guard. *)
Definition batch_requests (sortedActions : list SyncAction) : list Request :=
  match filter (fun a => type a = CHAPTER_READ) sortedActions with
  | [] => []
  | crs => [ReplayBatch crs]
  end.

Definition sequential_requests (sortedActions : list SyncAction) : list Request :=
  request_of <$>
    filter (fun a => retryCount a < MAX_RETRIES)
      (filter (fun a => type a <> CHAPTER_READ) sortedActions).

Lemma processOutbox_extends acts s :
  extends (mkWorld acts s []) (processOutbox respond true true acts s)
    (batch_requests (sort_by_timestamp acts)
     ++ sequential_requests (sort_by_timestamp acts)).
Proof.
  unfold processOutbox, batch_requests, sequential_requests. cbn [negb orb].
  destruct acts as [|a0 acts]; [apply extends_refl|].
  set (sorted := sort_by_timestamp (a0 :: acts)).
  eapply extends_trans; [|apply fold_replay_extends, others_reach_fetch].
  destruct (filter (fun a => type a = CHAPTER_READ) sorted) as [|c crs];
    [apply extends_refl|apply replay_batch_extends].
Qed.

Lemma processOutbox_requests acts s :
  requests (trace (processOutbox respond true true acts s))
  = batch_requests (sort_by_timestamp acts)
    ++ sequential_requests (sort_by_timestamp acts)
  /\ awaited (trace (processOutbox respond true true acts s)) = true.
Proof.
  destruct (processOutbox_extends acts s) as (es & T & R & A).
  rewrite T. cbn [trace app]. rewrite R, A. split; reflexivity.
Qed.

(** *** The outbox store, one id at a time *)

Lemma at_id_dequeue i j l :
  filter (fun b => id b = i) (SyncOutbox_dequeue j l)
  = if decide (i = j) then [] else filter (fun b => id b = i) l.
Proof.
  unfold SyncOutbox_dequeue.
  induction l as [|b l IH]; [destruct (decide (i = j)); reflexivity|].
  rewrite (filter_cons _ b l), (filter_cons (fun b => id b = i) b l).
  destruct (decide (id b <> j)) as [Hb|Hb].
  - rewrite filter_cons, IH.
    destruct (decide (id b = i)), (decide (i = j)); try reflexivity; congruence.
  - rewrite IH. apply dec_stable in Hb.
    destruct (decide (id b = i)), (decide (i = j)); try reflexivity; congruence.
Qed.

Lemma at_id_updateRetry i j l :
  filter (fun b => id b = i) (SyncOutbox_updateRetry j l)
  = if decide (i = j) then bump <$> filter (fun b => id b = i) l
    else filter (fun b => id b = i) l.
Proof.
  unfold SyncOutbox_updateRetry.
  induction l as [|b l IH]; [destruct (decide (i = j)); reflexivity|].
  rewrite fmap_cons, filter_cons, IH, (filter_cons (fun b => id b = i) b l).
  destruct (decide (id b = j)) as [Hb|Hb]; cbn [id bump];
    destruct (decide (id b = i)), (decide (i = j)); try reflexivity; congruence.
Qed.

Lemma at_id_absent (l : list SyncAction) i :
  i ∉ id <$> l -> filter (fun b => id b = i) l = [].
Proof.
  induction l as [|b l IH]; intros Hi; [reflexivity|].
  rewrite fmap_cons in Hi. apply not_elem_of_cons in Hi as [Hb Hi].
  rewrite filter_cons, decide_False by congruence. apply IH, Hi.
Qed.

Lemma at_id_unique (l : list SyncAction) a :
  NoDup (id <$> l) -> a ∈ l -> filter (fun b => id b = id a) l = [a].
Proof.
  induction l as [|b l IH]; intros Hnd Ha; [inversion Ha|].
  rewrite fmap_cons in Hnd. apply NoDup_cons in Hnd as [Hb Hnd].
  rewrite filter_cons. apply elem_of_cons in Ha as [->|Ha].
  - rewrite decide_True by reflexivity. f_equal.
    apply at_id_absent, Hb.
  - rewrite decide_False; [apply IH; assumption|].
    intros Hid. apply Hb. rewrite Hid. apply list_elem_of_fmap. eauto.
Qed.

Lemma replay_one_outbox a w i :
  i <> id a ->
  filter (fun b => id b = i) (outbox (replay_one respond w a))
  = filter (fun b => id b = i) (outbox w).
Proof.
  intros Hi. unfold replay_one.
  destruct (MAX_RETRIES <=? retryCount a); [reflexivity|].
  pose proof (executeAction_outbox a w) as Ho.
  destruct (executeAction respond a w) as [success w']; cbn in Ho.
  destruct success as [[|]|]; cbn [outbox dequeue updateRetry];
    rewrite ?at_id_dequeue, ?at_id_updateRetry, decide_False, Ho by exact Hi;
    reflexivity.
Qed.

Lemma fold_replay_outbox l : forall w i,
  i ∉ id <$> l ->
  filter (fun b => id b = i) (outbox (fold_left (replay_one respond) l w))
  = filter (fun b => id b = i) (outbox w).
Proof.
  induction l as [|a l IH]; intros w i Hi; [reflexivity|].
  rewrite fmap_cons in Hi. apply not_elem_of_cons in Hi as [Hia Hi].
  cbn [fold_left]. rewrite IH by exact Hi. apply replay_one_outbox, Hia.
Qed.

Lemma apply_result_outbox (w : World Server) res i :
  filter (fun b => id b = i) (outbox (apply_result w res))
  = if decide (i = fst res)
    then if String.eqb (snd res) "success" then []
         else bump <$> filter (fun b => id b = i) (outbox w)
    else filter (fun b => id b = i) (outbox w).
Proof.
  unfold apply_result.
  destruct (String.eqb (snd res) "success"); cbn [outbox dequeue updateRetry].
  - apply at_id_dequeue.
  - apply at_id_updateRetry.
Qed.

Lemma fold_apply_result_other rs : forall (w : World Server) i,
  i ∉ rs.*1 ->
  filter (fun b => id b = i) (outbox (fold_left apply_result rs w))
  = filter (fun b => id b = i) (outbox w).
Proof.
  induction rs as [|res rs IH]; intros w i Hi; [reflexivity|].
  rewrite fmap_cons in Hi. apply not_elem_of_cons in Hi as [Hres Hi].
  cbn [fold_left]. rewrite IH by exact Hi.
  rewrite apply_result_outbox, decide_False by exact Hres. reflexivity.
Qed.

(** Each item of a per-item answer is settled on its own: the outbox rows
    of id [i] after the loop depend on [i]'s status alone. *)
Lemma fold_apply_result_once rs : forall (w : World Server) i st,
  NoDup rs.*1 -> (i, st) ∈ rs ->
  filter (fun b => id b = i) (outbox (fold_left apply_result rs w))
  = if String.eqb st "success" then []
    else bump <$> filter (fun b => id b = i) (outbox w).
Proof.
  induction rs as [|res rs IH]; intros w i st Hnd Hin; [inversion Hin|].
  rewrite fmap_cons in Hnd. apply NoDup_cons in Hnd as [Hres Hnd].
  cbn [fold_left]. apply elem_of_cons in Hin as [<-|Hin].
  - rewrite fold_apply_result_other by exact Hres.
    rewrite apply_result_outbox, decide_True by reflexivity. reflexivity.
  - rewrite (IH _ _ st) by assumption.
    rewrite apply_result_outbox, decide_False; [reflexivity|].
    intros ->. apply Hres. apply list_elem_of_fmap. exists (fst res, st).
    split; [reflexivity|exact Hin].
Qed.

(** *** The calls on the store, one id at a time *)

Lemma store_calls_app i t1 t2 :
  store_calls i (t1 ++ t2) = store_calls i t1 ++ store_calls i t2.
Proof. apply List.filter_app. Qed.

Lemma fetch_calls i req (w : World Server) :
  store_calls i (trace (snd (fetch respond req w))) = store_calls i (trace w).
Proof.
  unfold fetch. destruct (respond (server w) req) as [s' res]. cbn [snd trace].
  rewrite store_calls_app. cbn. apply app_nil_r.
Qed.

Lemma executeAction_calls i a (w : World Server) :
  store_calls i (trace (snd (executeAction respond a w))) = store_calls i (trace w).
Proof.
  unfold executeAction, handleChapterRead, handleLibraryUpdate,
    handleLibraryDelete, handleLibraryAdd, handleSettingUpdate.
  destruct (type a); try (destruct (valid_time (timestamp a)); [|reflexivity]);
    match goal with
    | |- context [fetch respond ?req w] =>
        pose proof (fetch_calls i req w) as H;
        destruct (fetch respond req w) as [res w']; exact H
    end.
Qed.

Lemma dequeue_calls i j (w : World Server) :
  store_calls i (trace (dequeue j w))
  = store_calls i (trace w) ++ (if decide (i = j) then [EvDequeue j] else []).
Proof.
  unfold dequeue. cbn [trace]. rewrite store_calls_app. f_equal. cbn.
  destruct (decide (i = j)) as [->|Hne].
  - rewrite bool_decide_eq_true_2 by reflexivity. reflexivity.
  - rewrite bool_decide_eq_false_2 by congruence. reflexivity.
Qed.

Lemma updateRetry_calls i j (w : World Server) :
  store_calls i (trace (updateRetry j w))
  = store_calls i (trace w) ++ (if decide (i = j) then [EvUpdateRetry j] else []).
Proof.
  unfold updateRetry. cbn [trace]. rewrite store_calls_app. f_equal. cbn.
  destruct (decide (i = j)) as [->|Hne].
  - rewrite bool_decide_eq_true_2 by reflexivity. reflexivity.
  - rewrite bool_decide_eq_false_2 by congruence. reflexivity.
Qed.

Lemma replay_one_calls a (w : World Server) i :
  i <> id a ->
  store_calls i (trace (replay_one respond w a)) = store_calls i (trace w).
Proof.
  intros Hi. unfold replay_one.
  destruct (MAX_RETRIES <=? retryCount a).
  - unfold emit. cbn [trace]. rewrite store_calls_app. cbn. apply app_nil_r.
  - pose proof (executeAction_calls i a w) as He.
    destruct (executeAction respond a w) as [success w']; cbn [snd] in He.
    destruct success as [[|]|];
      rewrite ?dequeue_calls, ?updateRetry_calls, decide_False, app_nil_r by exact Hi;
      exact He.
Qed.

Lemma fold_replay_calls l : forall (w : World Server) i,
  i ∉ id <$> l ->
  store_calls i (trace (fold_left (replay_one respond) l w))
  = store_calls i (trace w).
Proof.
  induction l as [|a l IH]; intros w i Hi; [reflexivity|].
  rewrite fmap_cons in Hi. apply not_elem_of_cons in Hi as [Hia Hi].
  cbn [fold_left]. rewrite IH by exact Hi. apply replay_one_calls, Hia.
Qed.

(** The store call the loop over [results] makes for one item. *)
Definition result_call (res : string * string) : Event :=
  if String.eqb (snd res) "success" then EvDequeue (fst res)
  else EvUpdateRetry (fst res).

Lemma apply_result_calls (w : World Server) res i :
  store_calls i (trace (apply_result w res))
  = store_calls i (trace w) ++ (if decide (i = fst res) then [result_call res] else []).
Proof.
  unfold apply_result, result_call.
  destruct (String.eqb (snd res) "success").
  - apply dequeue_calls.
  - apply updateRetry_calls.
Qed.

Lemma fold_apply_result_calls_other rs : forall (w : World Server) i,
  i ∉ rs.*1 ->
  store_calls i (trace (fold_left apply_result rs w)) = store_calls i (trace w).
Proof.
  induction rs as [|res rs IH]; intros w i Hi; [reflexivity|].
  rewrite fmap_cons in Hi. apply not_elem_of_cons in Hi as [Hres Hi].
  cbn [fold_left]. rewrite IH by exact Hi.
  rewrite apply_result_calls, decide_False by exact Hres. apply app_nil_r.
Qed.

Lemma fold_apply_result_calls_once rs : forall (w : World Server) i st,
  NoDup rs.*1 -> (i, st) ∈ rs ->
  store_calls i (trace (fold_left apply_result rs w))
  = store_calls i (trace w) ++ [result_call (i, st)].
Proof.
  induction rs as [|res rs IH]; intros w i st Hnd Hin; [inversion Hin|].
  rewrite fmap_cons in Hnd. apply NoDup_cons in Hnd as [Hres Hnd].
  cbn [fold_left]. apply elem_of_cons in Hin as [<-|Hin].
  - rewrite fold_apply_result_calls_other by exact Hres.
    rewrite apply_result_calls, decide_True by reflexivity. reflexivity.
  - rewrite (IH _ _ st) by assumption.
    rewrite apply_result_calls, decide_False; [rewrite app_nil_r; reflexivity|].
    intros ->. apply Hres. apply list_elem_of_fmap. exists (fst res, st).
    split; [reflexivity|exact Hin].
Qed.

End DrainFacts.

(** C4. In a drain pass that gets past the connectivity guard, the snapshot
    of the outbox is sorted by client timestamp ascending (a stable
    permutation); all CHAPTER_READ actions of the snapshot go out as one
    batch request, first; then the other actions are replayed one request
    each in timestamp order, those whose retry count has reached 5 being
    skipped; and every request is settled before the next event, so no
    request is issued before the previous response. *)
Theorem drain_order {Server : Type}
    (respond : Server -> Request -> Server * FetchResult)
    (acts : list SyncAction) (s : Server) :
  let sortedActions := sort_by_timestamp acts in
  let chapterReadActions := filter (fun a => type a = CHAPTER_READ) sortedActions in
  let otherActions := filter (fun a => type a <> CHAPTER_READ) sortedActions in
  let w := processOutbox respond true true acts s in
  sortedActions ≡ₚ acts
  /\ StronglySorted by_timestamp sortedActions
  /\ (forall t, filter (fun a => timestamp a = t) sortedActions
               = filter (fun a => timestamp a = t) acts)
  /\ requests (trace w)
     = match chapterReadActions with
       | [] => []
       | _ :: _ => [ReplayBatch chapterReadActions]
       end
       ++ (request_of <$> filter (fun a => retryCount a < MAX_RETRIES) otherActions)
  /\ awaited (trace w) = true.
Proof.
  intros sortedActions chapterReadActions otherActions w.
  split; [apply sort_by_timestamp_perm|].
  split; [apply sort_by_timestamp_sorted|].
  split; [intros t; apply sort_by_timestamp_stable|].
  destruct (processOutbox_requests respond acts s) as [Hreq Haw].
  split; [|exact Haw].
  subst w. rewrite Hreq. unfold batch_requests, sequential_requests.
  fold sortedActions. fold chapterReadActions. fold otherActions.
  destruct chapterReadActions; reflexivity.
Qed.

(** The pass as the specification words it, for comparison: one batch of all
    CHAPTER_READ actions, then every other action, in timestamp order. *)
Definition claimed_requests (acts : list SyncAction) : list Request :=
  let sortedActions := sort_by_timestamp acts in
  match filter (fun a => type a = CHAPTER_READ) sortedActions with
  | [] => []
  | crs => [ReplayBatch crs]
  end
  ++ (request_of <$> filter (fun a => type a <> CHAPTER_READ) sortedActions).

Definition no_payload : Payload := mkPayload "" "" None None None None "".

(** A server that accepts everything. *)
Definition always_ok (_ : unit) (_ : Request) : unit * FetchResult :=
  (tt, Resolved (mkResponse 200 None)).

(** A rating that has already failed five times. *)
Definition stuck_update : SyncAction :=
  mkAction "a7" LIBRARY_UPDATE
    (mkPayload "e1" "" (Some "completed") None None None "") 1000 "phone" 5.

(** The same rating, queued for the first time. *)
Definition fresh_update : SyncAction :=
  mkAction "a8" LIBRARY_UPDATE
    (mkPayload "e1" "" (Some "completed") None None None "") 2000 "phone" 0.

(** At the retry ceiling a non-batched action is not replayed at all and
    stays queued, and a pass started offline sends nothing. *)
Lemma drain_order_counterexample :
  claimed_requests [stuck_update] = [LibraryPatch "e1" (Some "completed") None]
  /\ requests (trace (processOutbox always_ok true true [stuck_update] tt)) = []
  /\ outbox (processOutbox always_ok true true [stuck_update] tt) = [stuck_update]
  /\ claimed_requests [fresh_update] = [LibraryPatch "e1" (Some "completed") None]
  /\ trace (processOutbox always_ok true false [fresh_update] tt) = [].
Proof.
  split; [reflexivity|].
  split; [vm_compute; reflexivity|].
  split; [vm_compute; reflexivity|].
  split; [reflexivity|].
  vm_compute; reflexivity.
Qed.

(** A chapter-read action whose retry count is [n]. *)
Definition worn_read (n : Z) : SyncAction :=
  mkAction "a1" CHAPTER_READ
    (mkPayload "e1" "" None None (Some (5 # 1)%Q) None "") 1000 "phone" n.

(** C3, at the failing input.  A CHAPTER_READ action whose retry count is 5
    (or anything else) is sent to the server in the batch request: the
    batch path has no retry check, unlike the sequential loop. *)
Theorem batch_ignores_retry_ceiling {Server : Type}
    (respond : Server -> Request -> Server * FetchResult) (s : Server) (n : Z) :
  (MAX_RETRIES <=? retryCount (worn_read 5)) = true
  /\ requests (trace (processOutbox respond true true [worn_read n] s))
     = [ReplayBatch [worn_read n]]
  /\ requests (trace (processOutbox respond true true [worn_read 5] s))
     = [ReplayBatch [worn_read 5]].
Proof.
  split; [reflexivity|].
  split.
  - destruct (processOutbox_requests respond [worn_read n] s) as [-> _].
    unfold batch_requests, sequential_requests. cbn [sort_by_timestamp foldr insert_by_timestamp].
    rewrite !filter_cons, !filter_nil. cbn [type worn_read].
    rewrite decide_True by reflexivity.
    rewrite decide_False by (intros H; apply H; reflexivity).
    reflexivity.
  - destruct (processOutbox_requests respond [worn_read 5] s) as [-> _].
    reflexivity.
Qed.

(** The sequential loop does check: no request for an action at the ceiling. *)
Lemma sequential_skips_at_ceiling {Server : Type}
    (respond : Server -> Request -> Server * FetchResult) (w : World Server) a :
  MAX_RETRIES <= retryCount a ->
  replay_one respond w a = emit [EvSkipped (id a)] w.
Proof.
  intros H. unfold replay_one.
  destruct (Z.leb_spec MAX_RETRIES (retryCount a)); [reflexivity|lia].
Qed.

(** C5. With unique action ids and a successful batch answer that lists
    each id at most once, the pass makes exactly one call on the outbox
    store for a listed chapter-read action: [dequeue] when its status is
    "success", [updateRetry] otherwise.  So an action listed as "success"
    is gone from the outbox after the pass, and one listed with any other
    status is still there with its retry count raised by exactly one,
    whatever the statuses of the other items are. *)
Theorem batch_partial_failure {Server : Type}
    (respond : Server -> Request -> Server * FetchResult)
    (acts : list SyncAction) (s s' : Server) (a : SyncAction)
    (r : Response) (rs : list (string * string)) (st : string) :
  NoDup (id <$> acts) ->
  a ∈ acts ->
  type a = CHAPTER_READ ->
  respond s (ReplayBatch (filter (fun a => type a = CHAPTER_READ)
                                 (sort_by_timestamp acts)))
    = (s', Resolved r) ->
  ok r = true ->
  results r = Some rs ->
  NoDup rs.*1 ->
  (id a, st) ∈ rs ->
  let w := processOutbox respond true true acts s in
  store_calls (id a) (trace w)
  = [if String.eqb st "success" then EvDequeue (id a) else EvUpdateRetry (id a)]
  /\ filter (fun b => id b = id a) (outbox w)
     = if String.eqb st "success" then [] else [bump a].
Proof.
  intros Hnd Ha Hty Hresp Hok Hres Hndrs Hst w.
  assert (Hone : filter (fun b => id b = id a) acts = [a])
    by (apply at_id_unique; assumption).
  subst w. unfold processOutbox. cbn [negb orb].
  destruct acts as [|a0 acts']; [inversion Ha|].
  set (acts := a0 :: acts') in *.
  set (sorted := sort_by_timestamp acts) in *.
  assert (Hperm : sorted ≡ₚ acts) by apply sort_by_timestamp_perm.
  assert (Hcr : a ∈ filter (fun a => type a = CHAPTER_READ) sorted).
  { apply list_elem_of_filter. split; [exact Hty|]. rewrite Hperm. exact Ha. }
  assert (Hoth : id a ∉ id <$> filter (fun a => type a <> CHAPTER_READ) sorted).
  { intros (b & Hid & Hb)%list_elem_of_fmap.
    apply list_elem_of_filter in Hb as [Hbty Hb]. rewrite Hperm in Hb.
    assert (Hba : b ∈ filter (fun c => id c = id a) acts).
    { apply list_elem_of_filter. split; [congruence|exact Hb]. }
    rewrite Hone in Hba. apply list_elem_of_singleton in Hba as ->.
    contradiction. }
  rewrite fold_replay_outbox, fold_replay_calls by exact Hoth.
  destruct (filter (fun a => type a = CHAPTER_READ) sorted) as [|c crs] eqn:Ecrs;
    [inversion Hcr|].
  unfold replay_batch, fetch. cbn [server]. rewrite Hresp, Hok, Hres.
  rewrite (fold_apply_result_once rs _ (id a) st) by assumption.
  rewrite (fold_apply_result_calls_once rs _ (id a) st) by assumption.
  cbn [outbox trace]. rewrite Hone. unfold result_call. cbn [fst snd].
  split; [reflexivity|].
  destruct (String.eqb st "success"); reflexivity.
Qed.

(** Three queued chapter reads; the batch answer fails the second. *)
Definition read_of (i : string) (t : Z) : SyncAction :=
  mkAction i CHAPTER_READ no_payload t "phone" 0.

Definition three_reads : list SyncAction :=
  [read_of "a1" 10; read_of "a2" 20; read_of "a3" 30].

Definition second_fails : list (string * string) :=
  [("a1", "success"); ("a2", "failure"); ("a3", "success")].

Definition second_fails_server (_ : unit) (_ : Request) : unit * FetchResult :=
  (tt, Resolved (mkResponse 200 (Some second_fails))).

Lemma batch_partial_failure_witness :
  NoDup (id <$> three_reads)
  /\ NoDup second_fails.*1
  /\ store_calls "a2"
       (trace (processOutbox second_fails_server true true three_reads tt))
     = [EvUpdateRetry "a2"]
  /\ filter (fun b => id b = "a2")
       (outbox (processOutbox second_fails_server true true three_reads tt))
     = [bump (read_of "a2" 20)].
Proof.
  assert (H1 : NoDup (id <$> three_reads))
    by (apply (bool_decide_unpack _); vm_compute; exact I).
  assert (H2 : NoDup second_fails.*1)
    by (apply (bool_decide_unpack _); vm_compute; exact I).
  split; [exact H1|]. split; [exact H2|].
  apply (batch_partial_failure second_fails_server three_reads tt tt
           (read_of "a2" 20) (mkResponse 200 (Some second_fails)) second_fails
           "failure" H1).
  - unfold three_reads. set_solver.
  - reflexivity.
  - reflexivity.
  - reflexivity.
  - reflexivity.
  - exact H2.
  - apply (bool_decide_unpack _); vm_compute; exact I.
Defined.

Example three_reads_outcome :
  outbox (processOutbox second_fails_server true true three_reads tt)
  = [bump (read_of "a2" 20)].
Proof. vm_compute. reflexivity. Qed.

(** A server that answers every request with 409 Conflict. *)
Definition conflict_server (_ : unit) (_ : Request) : unit * FetchResult :=
  (tt, Resolved (mkResponse 409 None)).

(** A server that answers every request with 404 Not Found. *)
Definition gone_server (_ : unit) (_ : Request) : unit * FetchResult :=
  (tt, Resolved (mkResponse 404 None)).

Definition queued (ty : ActionType) : SyncAction :=
  mkAction "a1" ty (mkPayload "e1" "s1" None None None None "{}") 1000 "phone" 0.

(** What a handler makes of a 409: only [handleChapterRead] accepts it. *)
Lemma executeAction_conflict {Server : Type}
    (respond : Server -> Request -> Server * FetchResult)
    (w : World Server) a s' r :
  reaches_fetch a = true ->
  respond (server w) (request_of a) = (s', Resolved r) ->
  status r = 409 ->
  fst (executeAction respond a w) = Some (bool_decide (type a = CHAPTER_READ)).
Proof.
  intros Hreach Hr H409.
  destruct (executeAction_spec respond a w Hreach) as (_ & _ & ->).
  rewrite Hr. cbn. f_equal. unfold accepted, ok. rewrite H409.
  destruct (type a); reflexivity.
Qed.

(** C6, at the failing input.  A queued LIBRARY_ADD answered 409 Conflict
    is counted as a failure: it stays in the outbox with its retry count
    raised (so do LIBRARY_UPDATE and SETTING_UPDATE), whereas a
    LIBRARY_DELETE answered 404 is dequeued. *)
Theorem library_add_conflict_is_retried :
  processOutbox conflict_server true true [queued LIBRARY_ADD] tt
  = mkWorld [bump (queued LIBRARY_ADD)] tt
      [EvFetch (LibraryPost "s1" "reading");
       EvSettled (Resolved (mkResponse 409 None));
       EvUpdateRetry "a1"]
  /\ outbox (processOutbox conflict_server true true [queued LIBRARY_UPDATE] tt)
     = [bump (queued LIBRARY_UPDATE)]
  /\ outbox (processOutbox conflict_server true true [queued SETTING_UPDATE] tt)
     = [bump (queued SETTING_UPDATE)]
  /\ outbox (processOutbox gone_server true true [queued LIBRARY_DELETE] tt) = []
  /\ fst (executeAction conflict_server (queued CHAPTER_READ)
            (mkWorld [queued CHAPTER_READ] tt [])) = Some true.
Proof.
  split; [vm_compute; reflexivity|].
  split; [vm_compute; reflexivity|].
  split; [vm_compute; reflexivity|].
  split; vm_compute; reflexivity.
Qed.

(** A chapter read stamped beyond what a [Date] holds: the handler throws
    while building the body, nothing is sent, and [executeAction] reports
    the failure. *)
Example read_beyond_date_range_throws :
  executeAction always_ok
    (mkAction "a1" CHAPTER_READ no_payload (MAX_TIME_VALUE + 1) "phone" 0)
    (mkWorld [] tt [])
  = (None, mkWorld [] tt []).
Proof. vm_compute. reflexivity. Qed.

(* --------------------------------------------------------------------- *)
(** *** Further properties of the drain pass *)
(* --------------------------------------------------------------------- *)

(** The batch answer failed as a whole: the request was rejected, the
    status is not 2xx, or the body has no readable [results]. *)
Definition batch_failed (res : FetchResult) : bool :=
  match res with
  | Rejected => true
  | Resolved r => negb (ok r) || match results r with None => true | Some _ => false end
  end.

(** The ids a successful batch answer lists. *)
Definition listed (res : FetchResult) : list string :=
  match res with
  | Resolved r => if ok r then match results r with Some rs => rs.*1 | None => [] end
                  else []
  | Rejected => []
  end.

(** Sorting and filtering commute: the sort is stable, so taking actions out
    of the outbox before or after sorting gives the same list. *)
Lemma insert_by_timestamp_first a l :
  Forall (by_timestamp a) l -> insert_by_timestamp a l = a :: l.
Proof.
  destruct l as [|b l]; [reflexivity|]. intros [Hb _]%Forall_cons.
  unfold by_timestamp in Hb. cbn.
  destruct (Z.leb_spec (timestamp a) (timestamp b)); [reflexivity|lia].
Qed.

Lemma filter_insert_by_timestamp (P : SyncAction -> Prop)
    `{forall a, Decision (P a)} a l :
  StronglySorted by_timestamp l ->
  filter P (insert_by_timestamp a l)
  = if decide (P a) then insert_by_timestamp a (filter P l) else filter P l.
Proof.
  induction 1 as [|b l Hl IH Hb].
  { cbn [insert_by_timestamp]. rewrite filter_cons, !filter_nil.
    destruct (decide (P a)); reflexivity. }
  cbn [insert_by_timestamp].
  destruct (Z.leb_spec (timestamp a) (timestamp b)) as [Hle|Hgt].
  - rewrite (filter_cons P a). destruct (decide (P a)) as [Pa|Pa]; [|reflexivity].
    symmetry. apply insert_by_timestamp_first.
    apply Forall_forall. intros c [_ Hc]%list_elem_of_filter.
    apply elem_of_cons in Hc as [->|Hc]; [exact Hle|].
    rewrite Forall_forall in Hb. specialize (Hb c Hc).
    unfold by_timestamp in *. lia.
  - rewrite (filter_cons P b (insert_by_timestamp a l)), IH, (filter_cons P b l).
    destruct (decide (P b)) as [Pb|Pb]; destruct (decide (P a)) as [Pa|Pa];
      try reflexivity.
    cbn [insert_by_timestamp].
    destruct (Z.leb_spec (timestamp a) (timestamp b)); [lia|reflexivity].
Qed.

Lemma sort_by_timestamp_filter (P : SyncAction -> Prop)
    `{forall a, Decision (P a)} l :
  sort_by_timestamp (filter P l) = filter P (sort_by_timestamp l).
Proof.
  induction l as [|a l IH]; [reflexivity|].
  rewrite filter_cons, (sort_by_timestamp_cons a l).
  rewrite filter_insert_by_timestamp by apply sort_by_timestamp_sorted.
  destruct (decide (P a)); [|exact IH].
  rewrite sort_by_timestamp_cons, IH. reflexivity.
Qed.

Section DrainMore.

Context {Server : Type} (respond : Server -> Request -> Server * FetchResult).

Implicit Types w : World Server.

(** *** The batch fails as a whole *)

Lemma retry_all_other l : forall w i,
  i ∉ id <$> l ->
  filter (fun b => id b = i) (outbox (retry_all l w))
  = filter (fun b => id b = i) (outbox w)
  /\ store_calls i (trace (retry_all l w)) = store_calls i (trace w).
Proof.
  induction l as [|a l IH]; intros w i Hi; [split; reflexivity|].
  rewrite fmap_cons in Hi. apply not_elem_of_cons in Hi as [Hia Hi].
  unfold retry_all. cbn [fold_left]. fold (retry_all l (updateRetry (id a) w)).
  destruct (IH (updateRetry (id a) w) i Hi) as [-> ->].
  cbn [outbox updateRetry]. rewrite at_id_updateRetry, decide_False by exact Hia.
  rewrite updateRetry_calls, decide_False, app_nil_r by exact Hia.
  split; reflexivity.
Qed.

Lemma retry_all_once l : forall w i,
  NoDup (id <$> l) -> i ∈ id <$> l ->
  filter (fun b => id b = i) (outbox (retry_all l w))
  = bump <$> filter (fun b => id b = i) (outbox w)
  /\ store_calls i (trace (retry_all l w))
     = store_calls i (trace w) ++ [EvUpdateRetry i].
Proof.
  induction l as [|a l IH]; intros w i Hnd Hi; [inversion Hi|].
  rewrite fmap_cons in Hnd, Hi. apply NoDup_cons in Hnd as [Ha Hnd].
  unfold retry_all. cbn [fold_left]. fold (retry_all l (updateRetry (id a) w)).
  apply elem_of_cons in Hi as [->|Hi].
  - destruct (retry_all_other l (updateRetry (id a) w) (id a) Ha) as [-> ->].
    cbn [outbox updateRetry]. rewrite at_id_updateRetry, decide_True by reflexivity.
    rewrite updateRetry_calls, decide_True by reflexivity. split; reflexivity.
  - assert (Hne : i <> id a) by (intros ->; contradiction).
    destruct (IH (updateRetry (id a) w) i Hnd Hi) as [-> ->].
    cbn [outbox updateRetry]. rewrite at_id_updateRetry, decide_False by exact Hne.
    rewrite updateRetry_calls, decide_False, app_nil_r by exact Hne.
    split; reflexivity.
Qed.

Lemma sorted_ids_NoDup (acts : list SyncAction) (P : SyncAction -> Prop)
    `{forall a, Decision (P a)} :
  NoDup (id <$> acts) -> NoDup (id <$> filter P (sort_by_timestamp acts)).
Proof.
  intros Hnd. eapply sublist_NoDup; [|apply fmap_sublist, sublist_filter].
  rewrite sort_by_timestamp_perm. exact Hnd.
Qed.

Lemma other_ids_apart (acts : list SyncAction) a :
  NoDup (id <$> acts) -> a ∈ acts -> type a = CHAPTER_READ ->
  id a ∉ id <$> filter (fun a => type a <> CHAPTER_READ) (sort_by_timestamp acts).
Proof.
  intros Hnd Ha Hty (b & Hid & Hb)%list_elem_of_fmap.
  apply list_elem_of_filter in Hb as [Hbty Hb].
  rewrite sort_by_timestamp_perm in Hb.
  assert (Hba : b ∈ filter (fun c => id c = id a) acts)
    by (apply list_elem_of_filter; split; [congruence|exact Hb]).
  rewrite (at_id_unique acts a Hnd Ha) in Hba.
  apply list_elem_of_singleton in Hba as ->. contradiction.
Qed.

(** X1. When the batch request fails as a whole (the fetch is rejected,
    the status is not 2xx, or the answer has no readable [results]), the
    pass calls [updateRetry] exactly once for every chapter-read action and
    dequeues none: with unique ids, each is still in the outbox with its
    retry count raised by one. *)
Theorem batch_failure_retries_all
    (acts : list SyncAction) (s s' : Server) (a : SyncAction) (res : FetchResult) :
  NoDup (id <$> acts) ->
  a ∈ acts ->
  type a = CHAPTER_READ ->
  respond s (ReplayBatch (filter (fun a => type a = CHAPTER_READ)
                                 (sort_by_timestamp acts)))
    = (s', res) ->
  batch_failed res = true ->
  let w := processOutbox respond true true acts s in
  store_calls (id a) (trace w) = [EvUpdateRetry (id a)]
  /\ filter (fun b => id b = id a) (outbox w) = [bump a].
Proof.
  intros Hnd Ha Hty Hresp Hfail w.
  pose proof (at_id_unique acts a Hnd Ha) as Hone.
  pose proof (other_ids_apart acts a Hnd Ha Hty) as Hoth.
  pose proof (sorted_ids_NoDup acts (fun a => type a = CHAPTER_READ) Hnd) as Hcrs.
  subst w. unfold processOutbox. cbn [negb orb].
  destruct acts as [|a0 acts']; [inversion Ha|].
  set (acts := a0 :: acts') in *.
  set (sorted := sort_by_timestamp acts) in *.
  assert (Hcr : id a ∈ id <$> filter (fun a => type a = CHAPTER_READ) sorted).
  { apply list_elem_of_fmap_2, list_elem_of_filter. split; [exact Hty|].
    subst sorted. rewrite sort_by_timestamp_perm. exact Ha. }
  rewrite fold_replay_outbox, fold_replay_calls by exact Hoth.
  destruct (filter (fun a => type a = CHAPTER_READ) sorted) as [|c crs] eqn:Ecrs;
    [inversion Hcr|].
  unfold replay_batch, fetch. cbn [server]. rewrite Hresp.
  match goal with
  | |- context [retry_all (c :: crs) ?w0] => set (w' := w0)
  end.
  assert (Hretry :
    filter (fun b => id b = id a) (outbox (retry_all (c :: crs) w')) = [bump a]
    /\ store_calls (id a) (trace (retry_all (c :: crs) w')) = [EvUpdateRetry (id a)]).
  { destruct (retry_all_once (c :: crs) w' (id a) Hcrs Hcr) as [-> ->].
    subst w'. cbn [outbox trace]. rewrite Hone. split; reflexivity. }
  destruct Hretry as [Hbox Hcalls].
  destruct res as [r|]; [|split; assumption].
  cbn in Hfail. destruct (ok r); [|split; assumption].
  destruct (results r); [discriminate|split; assumption].
Qed.

End DrainMore.

(** A server whose batch route is down. *)
Definition down_server (_ : unit) (_ : Request) : unit * FetchResult :=
  (tt, Resolved (mkResponse 503 None)).

Lemma batch_failure_retries_all_witness :
  NoDup (id <$> three_reads)
  /\ outbox (processOutbox down_server true true three_reads tt)
     = bump <$> three_reads
  /\ filter (fun b => id b = "a3")
       (outbox (processOutbox down_server true true three_reads tt))
     = [bump (read_of "a3" 30)].
Proof.
  assert (H1 : NoDup (id <$> three_reads))
    by (apply (bool_decide_unpack _); vm_compute; exact I).
  split; [exact H1|]. split; [vm_compute; reflexivity|].
  apply (batch_failure_retries_all down_server three_reads tt tt (read_of "a3" 30)
           (Resolved (mkResponse 503 None)) H1).
  - unfold three_reads. set_solver.
  - reflexivity.
  - reflexivity.
  - reflexivity.
Defined.

Section Sequential.

Context {Server : Type} (respond : Server -> Request -> Server * FetchResult).

Implicit Types w : World Server.

(** Whether the handler of [a] takes the settled fetch as a success. *)
Definition succeeded (a : SyncAction) (res : FetchResult) : bool :=
  match verdict (accepted (type a)) res with
  | Some true => true
  | Some false | None => false
  end.

(** The store call that follows the settled fetch of [a]. *)
Definition store_call (a : SyncAction) (res : FetchResult) : Event :=
  if succeeded a res then EvDequeue (id a) else EvUpdateRetry (id a).

Lemma other_reaches_fetch a : type a <> CHAPTER_READ -> reaches_fetch a = true.
Proof.
  unfold reaches_fetch. destruct (type a); [contradiction|reflexivity..].
Qed.

Lemma executeAction_trace a w :
  reaches_fetch a = true ->
  trace (snd (executeAction respond a w))
  = trace w ++ [EvFetch (request_of a);
                EvSettled (snd (respond (server w) (request_of a)))].
Proof.
  unfold reaches_fetch, executeAction, request_of, handleChapterRead,
    handleLibraryUpdate, handleLibraryDelete, handleLibraryAdd,
    handleSettingUpdate, fetch.
  destruct (type a); intros Hreach; rewrite ?Hreach;
    match goal with
    | |- context [respond (server w) ?req] =>
        destruct (respond (server w) req) as [s' res]; reflexivity
    end.
Qed.

Lemma replay_one_below a w :
  reaches_fetch a = true ->
  retryCount a < MAX_RETRIES ->
  let res := snd (respond (server w) (request_of a)) in
  trace (replay_one respond w a)
  = trace w ++ [EvFetch (request_of a); EvSettled res; store_call a res]
  /\ outbox (replay_one respond w a)
     = if succeeded a res then SyncOutbox_dequeue (id a) (outbox w)
       else SyncOutbox_updateRetry (id a) (outbox w).
Proof.
  intros Hreach Hlt res. unfold replay_one.
  destruct (Z.leb_spec MAX_RETRIES (retryCount a)) as [Hge|_]; [lia|].
  pose proof (executeAction_trace a w Hreach) as Ht.
  destruct (executeAction_spec respond a w Hreach) as (_ & Ho & Hv).
  destruct (executeAction respond a w) as [success w']. cbn [fst snd] in *.
  fold res in Ht, Hv. unfold store_call, succeeded. rewrite <- Hv.
  destruct success as [[|]|]; cbn [trace outbox dequeue updateRetry];
    rewrite Ht, Ho, <- app_assoc; split; reflexivity.
Qed.

(** A replay only adds events to the trace. *)
Lemma replay_one_grows a w :
  exists es, trace (replay_one respond w a) = trace w ++ es.
Proof.
  destruct (reaches_fetch a) eqn:Hreach.
  - destruct (replay_one_extends respond a w Hreach) as (es & Hes & _).
    exists es. exact Hes.
  - unfold replay_one. destruct (MAX_RETRIES <=? retryCount a).
    + exists [EvSkipped (id a)]. reflexivity.
    + rewrite (executeAction_throws respond a w Hreach).
      exists [EvUpdateRetry (id a)]. reflexivity.
Qed.

Lemma fold_replay_grows l : forall w,
  exists es, trace (fold_left (replay_one respond) l w) = trace w ++ es.
Proof.
  induction l as [|a l IH]; intros w; [exists []; symmetry; apply app_nil_r|].
  cbn [fold_left]. destruct (IH (replay_one respond w a)) as (es2 & ->).
  destruct (replay_one_grows a w) as (es1 & ->).
  exists (es1 ++ es2). symmetry. apply app_assoc.
Qed.

Lemma replay_batch_other crs w i :
  i ∉ id <$> crs ->
  i ∉ listed (snd (respond (server w) (ReplayBatch crs))) ->
  filter (fun b => id b = i) (outbox (replay_batch respond crs w))
  = filter (fun b => id b = i) (outbox w)
  /\ store_calls i (trace (replay_batch respond crs w)) = store_calls i (trace w).
Proof.
  intros Hcrs Hlisted. unfold replay_batch.
  pose proof (fetch_calls respond i (ReplayBatch crs) w) as Hc.
  destruct (fetch_extends respond (ReplayBatch crs) w) as (_ & Ho & Hr).
  destruct (fetch respond (ReplayBatch crs) w) as [res w']. cbn [fst snd] in *.
  rewrite Hr in Hlisted. cbn [snd] in Hlisted. rewrite <- Ho, <- Hc.
  unfold listed in Hlisted.
  destruct res as [r|]; [|apply retry_all_other, Hcrs].
  destruct (ok r); [|apply retry_all_other, Hcrs].
  destruct (results r) as [rs|]; [|apply retry_all_other, Hcrs].
  split; [apply fold_apply_result_other|apply fold_apply_result_calls_other];
    exact Hlisted.
Qed.

(** The pass, seen from one non-batched action [a] with a unique id: a
    world [w0] in which [a] is stored untouched, then the replay of [a],
    then replays of actions with other ids. *)
Lemma pass_around (acts : list SyncAction) (s : Server) a :
  NoDup (id <$> acts) -> a ∈ acts -> type a <> CHAPTER_READ ->
  id a ∉ listed (snd (respond s (ReplayBatch
           (filter (fun a => type a = CHAPTER_READ) (sort_by_timestamp acts))))) ->
  exists w0 l2,
    processOutbox respond true true acts s
    = fold_left (replay_one respond) l2 (replay_one respond w0 a)
    /\ (id a ∉ id <$> l2)
    /\ filter (fun b => id b = id a) (outbox w0) = [a]
    /\ store_calls (id a) (trace w0) = [].
Proof.
  intros Hnd Ha Hty Hlisted.
  pose proof (at_id_unique acts a Hnd Ha) as Hone.
  pose proof (sorted_ids_NoDup acts (fun a => type a <> CHAPTER_READ) Hnd) as Hoth.
  unfold processOutbox. cbn [negb orb].
  destruct acts as [|a0 acts']; [inversion Ha|].
  set (acts := a0 :: acts') in *.
  set (sorted := sort_by_timestamp acts) in *.
  set (crs := filter (fun a => type a = CHAPTER_READ) sorted) in *.
  assert (Hin : a ∈ filter (fun a => type a <> CHAPTER_READ) sorted).
  { apply list_elem_of_filter. split; [exact Hty|].
    subst sorted. rewrite sort_by_timestamp_perm. exact Ha. }
  apply list_elem_of_split in Hin as (l1 & l2 & Hsplit).
  rewrite Hsplit in Hoth |- *.
  rewrite fmap_app, fmap_cons in Hoth.
  apply NoDup_app in Hoth as (_ & Hl1 & [Hl2 _]%NoDup_cons).
  assert (Ha1 : id a ∉ id <$> l1).
  { intros H. apply (Hl1 _ H). apply list_elem_of_here. }
  set (w1 := match crs with
             | [] => mkWorld acts s []
             | _ :: _ => replay_batch respond crs (mkWorld acts s [])
             end).
  assert (Hw1 : filter (fun b => id b = id a) (outbox w1) = [a]
                /\ store_calls (id a) (trace w1) = []).
  { subst w1. destruct crs as [|c crs'] eqn:Ecrs; [split; [exact Hone|reflexivity]|].
    rewrite <- Ecrs in *.
    assert (Hcrs : id a ∉ id <$> crs).
    { intros (b & Hid & Hb)%list_elem_of_fmap. subst crs.
      apply list_elem_of_filter in Hb as [Hbty Hb].
      subst sorted. rewrite sort_by_timestamp_perm in Hb.
      assert (Hba : b ∈ filter (fun c => id c = id a) acts)
        by (apply list_elem_of_filter; split; [congruence|exact Hb]).
      rewrite Hone in Hba. apply list_elem_of_singleton in Hba as ->.
      contradiction. }
    destruct (replay_batch_other crs (mkWorld acts s []) (id a) Hcrs Hlisted)
      as [-> ->].
    split; [exact Hone|reflexivity]. }
  exists (fold_left (replay_one respond) l1 w1), l2.
  rewrite fold_left_app. cbn [fold_left].
  split; [reflexivity|]. split; [exact Hl2|].
  rewrite fold_replay_outbox, fold_replay_calls by exact Ha1. exact Hw1.
Qed.

(** X2. A non-batched action below the retry ceiling, with an id of its
    own, is replayed by one request whose settlement is followed at once by
    the one call the pass makes on the store for it: [dequeue] when its
    handler accepts the answer, [updateRetry] when the answer is refused or
    the fetch throws.  Afterwards the action is gone, or still queued with
    its retry count raised by exactly one. *)
Theorem sequential_outcome (acts : list SyncAction) (s : Server) (a : SyncAction) :
  NoDup (id <$> acts) ->
  a ∈ acts ->
  type a <> CHAPTER_READ ->
  retryCount a < MAX_RETRIES ->
  id a ∉ listed (snd (respond s (ReplayBatch
           (filter (fun a => type a = CHAPTER_READ) (sort_by_timestamp acts))))) ->
  let w := processOutbox respond true true acts s in
  exists t1 t2 res,
    trace w = t1 ++ [EvFetch (request_of a); EvSettled res; store_call a res] ++ t2
    /\ store_calls (id a) (trace w) = [store_call a res]
    /\ filter (fun b => id b = id a) (outbox w)
       = if succeeded a res then [] else [bump a].
Proof.
  intros Hnd Ha Hty Hlt Hlisted w.
  destruct (pass_around acts s a Hnd Ha Hty Hlisted)
    as (w0 & l2 & Hpass & Hl2 & Hbox & Hcalls).
  subst w. rewrite Hpass.
  destruct (replay_one_below a w0 (other_reaches_fetch a Hty) Hlt) as [Ht Ho].
  set (res := snd (respond (server w0) (request_of a))) in *.
  destruct (fold_replay_grows l2 (replay_one respond w0 a)) as (es & Hes).
  exists (trace w0), es, res.
  split; [rewrite Hes, Ht, <- app_assoc; reflexivity|].
  rewrite fold_replay_outbox, fold_replay_calls by exact Hl2.
  rewrite Ht, Ho, store_calls_app, Hcalls. split.
  - unfold store_call. destruct (succeeded a res); cbn;
      rewrite bool_decide_eq_true_2 by reflexivity; reflexivity.
  - destruct (succeeded a res).
    + rewrite at_id_dequeue, decide_True by reflexivity. reflexivity.
    + rewrite at_id_updateRetry, decide_True by reflexivity.
      rewrite Hbox. reflexivity.
Qed.

(** Filtering twice, when the inner filter keeps every member the outer
    one keeps. *)
Lemma filter_filter_members {A} (P Q : A -> Prop)
    `{forall x, Decision (P x)} `{forall x, Decision (Q x)} (l : list A) :
  (forall x, x ∈ l -> P x -> Q x) -> filter P (filter Q l) = filter P l.
Proof.
  induction l as [|x l IH]; intros Hl; [reflexivity|].
  assert (IH' : filter P (filter Q l) = filter P l).
  { apply IH. intros y Hy. apply Hl, list_elem_of_further, Hy. }
  rewrite (filter_cons Q x l), (filter_cons P x l).
  destruct (decide (Q x)) as [Qx|Qx].
  - rewrite filter_cons, IH'. reflexivity.
  - rewrite IH'. destruct (decide (P x)) as [Px|Px]; [|reflexivity].
    exfalso. apply Qx, Hl; [apply list_elem_of_here|exact Px].
Qed.

(** X3. In one pass over an outbox whose action ids are distinct, a
    non-batched action that has reached the retry ceiling, and whose id the
    batch answer does not list, is skipped: the pass sends no request for
    it (its requests are exactly those of the pass over the outbox without
    the action), logs the skip, makes no call on the store for its id, and
    leaves it in the outbox as it was. *)
Theorem exhausted_action_stays (acts : list SyncAction) (s : Server) (a : SyncAction) :
  NoDup (id <$> acts) ->
  a ∈ acts ->
  type a <> CHAPTER_READ ->
  MAX_RETRIES <= retryCount a ->
  id a ∉ listed (snd (respond s (ReplayBatch
           (filter (fun a => type a = CHAPTER_READ) (sort_by_timestamp acts))))) ->
  let w := processOutbox respond true true acts s in
  EvSkipped (id a) ∈ trace w
  /\ store_calls (id a) (trace w) = []
  /\ filter (fun b => id b = id a) (outbox w) = [a]
  /\ requests (trace w)
     = requests (trace (processOutbox respond true true
                          (filter (fun b => id b <> id a) acts) s)).
Proof.
  intros Hnd Ha Hty Hge Hlisted w.
  pose proof (at_id_unique acts a Hnd Ha) as Hone.
  destruct (pass_around acts s a Hnd Ha Hty Hlisted)
    as (w0 & l2 & Hpass & Hl2 & Hbox & Hcalls).
  subst w. rewrite Hpass at 1 2 3.
  rewrite (sequential_skips_at_ceiling respond w0 a Hge).
  destruct (fold_replay_grows l2 (emit [EvSkipped (id a)] w0)) as (es & Hes).
  split.
  { rewrite Hes. cbn [trace emit]. rewrite !elem_of_app.
    left; right. apply list_elem_of_here. }
  rewrite fold_replay_outbox, fold_replay_calls by exact Hl2.
  cbn [trace outbox emit]. rewrite store_calls_app, Hcalls.
  split; [reflexivity|]. split; [exact Hbox|].
  rewrite (proj1 (processOutbox_requests respond acts s)).
  rewrite (proj1 (processOutbox_requests respond
                    (filter (fun b => id b <> id a) acts) s)).
  rewrite sort_by_timestamp_filter.
  unfold batch_requests, sequential_requests.
  set (sorted := sort_by_timestamp acts).
  assert (Hsame : forall b, b ∈ sorted -> id b = id a -> b = a).
  { intros b Hb Hid. subst sorted. rewrite sort_by_timestamp_perm in Hb.
    assert (Hba : b ∈ filter (fun c => id c = id a) acts)
      by (apply list_elem_of_filter; split; assumption).
    rewrite Hone in Hba. apply list_elem_of_singleton in Hba. exact Hba. }
  f_equal.
  - rewrite (filter_filter_members (fun a => type a = CHAPTER_READ)); [reflexivity|].
    intros b Hb Hbty Hid. apply Hty. rewrite <- (Hsame b Hb Hid). exact Hbty.
  - f_equal.
    rewrite (list_filter_filter _ _ sorted),
      (list_filter_filter _ _ (filter _ sorted)).
    symmetry. apply filter_filter_members.
    intros b Hb [Hlt _] Hid. rewrite (Hsame b Hb Hid) in Hlt. lia.
Qed.

(** X4. The reconciler calls the outbox store only for ids it has been
    given: in a pass, whether or not it gets past the connectivity guard,
    neither [SyncOutbox.dequeue] nor [SyncOutbox.updateRetry] is called
    with an id that is neither the id of an action of the outbox snapshot
    nor an id listed in the answer to the batch request. *)
Theorem store_calls_only_for_known_ids (browser onLine : bool)
    (acts : list SyncAction) (s : Server) (i : string) :
  i ∉ id <$> acts ->
  i ∉ listed (snd (respond s (ReplayBatch
         (filter (fun a => type a = CHAPTER_READ) (sort_by_timestamp acts))))) ->
  store_calls i (trace (processOutbox respond browser onLine acts s)) = [].
Proof.
  intros Hi Hlisted. unfold processOutbox.
  destruct (negb browser || negb onLine); [reflexivity|].
  destruct acts as [|a0 acts']; [reflexivity|].
  set (acts := a0 :: acts') in *.
  set (sorted := sort_by_timestamp acts) in *.
  assert (Hin : forall (P : SyncAction -> Prop) `{forall a, Decision (P a)},
            i ∉ id <$> filter P sorted).
  { intros P HP (b & -> & Hb)%list_elem_of_fmap.
    apply list_elem_of_filter in Hb as [_ Hb].
    subst sorted. rewrite sort_by_timestamp_perm in Hb.
    apply Hi, list_elem_of_fmap_2, Hb. }
  rewrite fold_replay_calls by apply Hin.
  destruct (filter (fun a => type a = CHAPTER_READ) sorted) as [|c crs] eqn:Ecrs;
    [reflexivity|].
  rewrite <- Ecrs in *.
  apply (replay_batch_other _ (mkWorld acts s [])); [apply Hin|exact Hlisted].
Qed.

End Sequential.

(** A removal the server no longer knows (404) next to an update it
    refuses (500). *)
Definition picky_server (_ : unit) (req : Request) : unit * FetchResult :=
  match req with
  | LibraryDelete _ => (tt, Resolved (mkResponse 404 None))
  | _ => (tt, Resolved (mkResponse 500 None))
  end.

Definition two_queued : list SyncAction :=
  [mkAction "d1" LIBRARY_DELETE (mkPayload "e1" "" None None None None "") 10 "phone" 0;
   mkAction "u1" LIBRARY_UPDATE (mkPayload "e2" "" (Some "paused") None None None "")
     20 "phone" 4].

Lemma sequential_outcome_witness :
  NoDup (id <$> two_queued)
  /\ outbox (processOutbox picky_server true true two_queued tt)
     = [mkAction "u1" LIBRARY_UPDATE (mkPayload "e2" "" (Some "paused") None None None "")
          20 "phone" 5]
  /\ exists t1 t2 res,
       trace (processOutbox picky_server true true two_queued tt)
       = t1 ++ [EvFetch (LibraryDelete "e1"); EvSettled res;
                store_call (mkAction "d1" LIBRARY_DELETE
                             (mkPayload "e1" "" None None None None "") 10 "phone" 0) res]
            ++ t2.
Proof.
  assert (H1 : NoDup (id <$> two_queued))
    by (apply (bool_decide_unpack _); vm_compute; exact I).
  split; [exact H1|]. split; [vm_compute; reflexivity|].
  destruct (sequential_outcome picky_server two_queued tt
              (mkAction "d1" LIBRARY_DELETE
                 (mkPayload "e1" "" None None None None "") 10 "phone" 0) H1)
    as (t1 & t2 & res & Ht & _).
  - unfold two_queued. set_solver.
  - discriminate.
  - reflexivity.
  - vm_compute. intros H. inversion H.
  - exists t1, t2, res. exact Ht.
Defined.

Lemma exhausted_action_stays_witness :
  NoDup (id <$> [stuck_update; fresh_update])
  /\ filter (fun b => id b = "a7")
       (outbox (processOutbox always_ok true true [stuck_update; fresh_update] tt))
     = [stuck_update]
  /\ requests (trace (processOutbox always_ok true true
                        [stuck_update; fresh_update] tt))
     = requests (trace (processOutbox always_ok true true [fresh_update] tt)).
Proof.
  assert (H1 : NoDup (id <$> [stuck_update; fresh_update]))
    by (apply (bool_decide_unpack _); vm_compute; exact I).
  split; [exact H1|].
  destruct (exhausted_action_stays always_ok [stuck_update; fresh_update] tt
              stuck_update H1) as (_ & _ & Hbox & Hreq).
  - apply list_elem_of_here.
  - discriminate.
  - vm_compute. discriminate.
  - vm_compute. intros H. inversion H.
  - split; [exact Hbox|exact Hreq].
Defined.

(** A server whose batch answer lists an id that was never queued. *)
Definition stray_results : list (string * string) :=
  [("a1", "success"); ("zz", "failure")].

Definition stray_server (_ : unit) (_ : Request) : unit * FetchResult :=
  (tt, Resolved (mkResponse 200 (Some stray_results))).

Lemma store_calls_only_for_known_ids_witness :
  store_calls "zz" (trace (processOutbox stray_server true true three_reads tt))
  = [EvUpdateRetry "zz"]
  /\ store_calls "a9" (trace (processOutbox stray_server true true three_reads tt))
     = [].
Proof.
  split; [vm_compute; reflexivity|].
  apply (store_calls_only_for_known_ids stray_server true true three_reads tt "a9").
  - apply (bool_decide_unpack _). vm_compute. exact I.
  - apply (bool_decide_unpack _). vm_compute. exact I.
Defined.

(** X22. A pass never replays a read chapter on its own.  Whatever is
    queued, no request of a pass is the PATCH of a single chapter that
    [handleChapterRead] builds: read chapters only ever travel in the one
    batch, so the 409 that handler would accept plays no part in a pass.
    A pass sends at most one request per other action, and one batch. *)
Theorem pass_never_patches_progress {Server : Type}
    (respond : Server -> Request -> Server * FetchResult)
    (browser onLine : bool) (acts : list SyncAction) (s : Server) :
  let reqs := requests (trace (processOutbox respond browser onLine acts s)) in
  (forall e c src t d, ProgressPatch e c src t d ∉ reqs)
  /\ (length reqs
      <= 1 + length (filter (fun a => type a <> CHAPTER_READ) acts))%nat.
Proof.
  cbn zeta.
  assert (Hoff : forall w : World Server, trace w = [] ->
            (forall e c src t d, ProgressPatch e c src t d ∉ requests (trace w))
            /\ (length (requests (trace w))
                <= 1 + length (filter (fun a => type a <> CHAPTER_READ) acts))%nat).
  { intros w ->. split; [|cbn; lia]. intros e c src t d H. inversion H. }
  destruct browser; [|apply Hoff; reflexivity].
  destruct onLine; [|apply Hoff; reflexivity].
  clear Hoff.
  rewrite (proj1 (processOutbox_requests respond acts s)).
  unfold batch_requests, sequential_requests.
  set (sorted := sort_by_timestamp acts).
  assert (Hperm : filter (fun a => type a <> CHAPTER_READ) sorted
                  ≡ₚ filter (fun a => type a <> CHAPTER_READ) acts).
  { subst sorted. rewrite sort_by_timestamp_perm. reflexivity. }
  split.
  - intros e c src t d [Hb|Hs]%elem_of_app.
    + destruct (filter (fun a => type a = CHAPTER_READ) sorted); [inversion Hb|].
      apply list_elem_of_singleton in Hb. discriminate Hb.
    + apply list_elem_of_fmap in Hs as (a & Hreq & Ha).
      apply list_elem_of_filter in Ha as [_ Ha].
      apply list_elem_of_filter in Ha as [Hty _].
      unfold request_of in Hreq. destruct (type a); try discriminate Hreq.
      contradiction.
  - rewrite length_app, length_fmap, <- (Permutation_length Hperm).
    pose proof (length_filter (fun a => retryCount a < MAX_RETRIES)
                  (filter (fun a => type a <> CHAPTER_READ) sorted)) as Hle.
    destruct (filter (fun a => type a = CHAPTER_READ) sorted); cbn [length]; lia.
Qed.

End Reconciler.

(* ===================================================================== *)
(** ** Soft-delete client extension: [prismaClientSingleton], the
       [$allOperations] hook installed with [client.$extends]. *)
(* ===================================================================== *)
Module SoftDelete.

Definition SOFT_DELETE_MODELS : list string :=
  ["User"; "Series"; "Chapter"; "LibraryEntry"].

(** The operations of a Prisma model delegate. *)
Inductive Operation :=
| FindUnique | FindUniqueOrThrow | FindFirst | FindFirstOrThrow | FindMany
| Count | Aggregate | GroupBy
| Create | Update | UpdateMany | Upsert | Delete | DeleteMany.

Section Client.

(** The columns of a model other than its key and [deleted_at]. *)
Context {Fields : Type}.

Record Row := mkRow {
  row_id : string;
  deleted_at : option Z;
  fields : Fields;
}.

(** A [where] object: its [deleted_at] key, when present, and the
    conjunction of its other keys. *)
Record Where := mkWhere {
  w_deleted_at : option (option Z -> bool);
  w_rest : string -> Fields -> bool;
}.

(** A [data] / [update] object: its [deleted_at] key, when present, and
    what its other keys assign. *)
Record Data := mkData {
  d_deleted_at : option (option Z);
  d_fields : Fields -> Fields;
}.

Record Args := mkArgs {
  a_where : option Where;
  a_data : option Data;
  a_update : option Data;
  a_create : option Row;
}.

Inductive Result :=
| RRow (r : option Row)          (* a record or [null] *)
| RRows (l : list Row)           (* [findMany] *)
| RCount (n : nat)               (* [count], and the batch payloads *)
| RAggregate (over : list Row)   (* [aggregate], [groupBy]: computed over these rows *)
| RError (code : string).        (* the call rejects *)

(** *** The unextended client ([query(args)], [client[model].update]) *)

Definition matches (w : option Where) (r : Row) : bool :=
  match w with
  | None => true
  | Some w =>
      match w_deleted_at w with
      | Some c => c (deleted_at r)
      | None => true
      end && w_rest w (row_id r) (fields r)
  end.

Definition apply_data (d : option Data) (r : Row) : Row :=
  match d with
  | None => r
  | Some d =>
      mkRow (row_id r)
        match d_deleted_at d with Some v => v | None => deleted_at r end
        (d_fields d (fields r))
  end.

(** Rewrite the first row that satisfies [p]. *)
Fixpoint update_first (p : Row -> bool) (f : Row -> Row) (t : list Row)
  : option (list Row * Row) :=
  match t with
  | [] => None
  | r :: t' =>
      if p r then Some (f r :: t', f r)
      else match update_first p f t' with
           | Some (t'', r') => Some (r :: t'', r')
           | None => None
           end
  end.

(** Remove the first row that satisfies [p]. *)
Fixpoint delete_first (p : Row -> bool) (t : list Row) : option (list Row * Row) :=
  match t with
  | [] => None
  | r :: t' =>
      if p r then Some (t', r)
      else match delete_first p t' with
           | Some (t'', r') => Some (r :: t'', r')
           | None => None
           end
  end.

Definition selected (w : option Where) (t : list Row) : list Row :=
  List.filter (matches w) t.

(** One call on a model's table: the table afterwards and the result.
    The operations on one record reject without a [where]; a missing
    record is error P2025. *)
Definition base_query (op : Operation) (args : Args) (t : list Row)
  : list Row * Result :=
  let w := a_where args in
  match op with
  | FindUnique =>
      match w with
      | None => (t, RError "validation")
      | Some _ => (t, RRow (head (selected w t)))
      end
  | FindUniqueOrThrow =>
      match w, head (selected w t) with
      | None, _ => (t, RError "validation")
      | Some _, Some r => (t, RRow (Some r))
      | Some _, None => (t, RError "P2025")
      end
  | FindFirst => (t, RRow (head (selected w t)))
  | FindFirstOrThrow =>
      match head (selected w t) with
      | Some r => (t, RRow (Some r))
      | None => (t, RError "P2025")
      end
  | FindMany => (t, RRows (selected w t))
  | Count => (t, RCount (length (selected w t)))
  | Aggregate | GroupBy => (t, RAggregate (selected w t))
  | Create =>
      match a_create args with
      | Some r => (t ++ [r], RRow (Some r))
      | None => (t, RError "validation")
      end
  | Update =>
      match w with
      | None => (t, RError "validation")
      | Some _ =>
          match update_first (matches w) (apply_data (a_data args)) t with
          | Some (t', r') => (t', RRow (Some r'))
          | None => (t, RError "P2025")
          end
      end
  | UpdateMany =>
      ((fun r => if matches w r then apply_data (a_data args) r else r) <$> t,
       RCount (length (selected w t)))
  | Upsert =>
      match w with
      | None => (t, RError "validation")
      | Some _ =>
          match update_first (matches w) (apply_data (a_update args)) t with
          | Some (t', r') => (t', RRow (Some r'))
          | None =>
              match a_create args with
              | Some r => (t ++ [r], RRow (Some r))
              | None => (t, RError "validation")
              end
          end
      end
  | Delete =>
      match w with
      | None => (t, RError "validation")
      | Some _ =>
          match delete_first (matches w) t with
          | Some (t', r) => (t', RRow (Some r))
          | None => (t, RError "P2025")
          end
      end
  | DeleteMany =>
      (List.filter (fun r => negb (matches w r)) t, RCount (length (selected w t)))
  end.

(** *** The extension *)

Definition is_null (v : option Z) : bool :=
  match v with None => true | Some _ => false end.

(** [{ ...where, deleted_at: null }]. *)
Definition with_deleted_at_null (w : option Where) : Where :=
  mkWhere (Some is_null)
          match w with Some w => w_rest w | None => fun _ _ => true end.

(** [{ ...args.update, deleted_at: null }]. *)
Definition clearing_deleted_at (d : option Data) : Data :=
  mkData (Some None)
         match d with Some d => d_fields d | None => fun x => x end.

(** [{ deleted_at: new Date() }]. *)
Definition stamp (now : Z) : Data := mkData (Some (Some now)) (fun x => x).

Definition is_read (op : Operation) : bool :=
  match op with
  | FindUnique | FindUniqueOrThrow | FindFirst | FindFirstOrThrow | FindMany
  | Count | Aggregate | GroupBy => true
  | _ => false
  end.

Definition set_where (w : Where) (args : Args) : Args :=
  mkArgs (Some w) (a_data args) (a_update args) (a_create args).

Definition set_data (d : Data) (args : Args) : Args :=
  mkArgs (a_where args) (Some d) (a_update args) (a_create args).

Definition set_update (d : Data) (args : Args) : Args :=
  mkArgs (a_where args) (a_data args) (Some d) (a_create args).

(** [$allOperations({ model, operation, args, query })], on the table of
    [model]; [now] is [new Date()]. *)
Definition allOperations (now : Z) (model : string) (operation : Operation)
    (args : Args) (t : list Row) : list Row * Result :=
  if bool_decide (model ∈ SOFT_DELETE_MODELS) then
    (* 1. read operations *)
    let args :=
      if is_read operation
      then set_where (with_deleted_at_null (a_where args)) args
      else args in
    match operation with
    (* 2. delete operations, through the unextended client *)
    | Delete => base_query Update (set_data (stamp now) args) t
    | DeleteMany => base_query UpdateMany (set_data (stamp now) args) t
    | _ =>
        (* 3. update operations *)
        let args :=
          match operation, a_where args with
          | (Update | UpdateMany), Some _ =>
              set_where (with_deleted_at_null (a_where args)) args
          | _, _ => args
          end in
        (* 4. upsert *)
        let args :=
          match operation with
          | Upsert => set_update (clearing_deleted_at (a_update args)) args
          | _ => args
          end in
        base_query operation args t
    end
  else base_query operation args t.

(** The records a result hands back or is computed over. *)
Definition result_rows (res : Result) : list Row :=
  match res with
  | RRow (Some r) => [r]
  | RRow None => []
  | RRows l => l
  | RAggregate l => l
  | RCount _ | RError _ => []
  end.

End Client.

Arguments Row : clear implicits.
Arguments Where : clear implicits.
Arguments Data : clear implicits.
Arguments Args : clear implicits.
Arguments Result : clear implicits.

Section ClientFacts.

Context {Fields : Type}.
Implicit Types (t : list (Row Fields)) (r : Row Fields) (args : Args Fields).

(** The part of a [where] that is not its [deleted_at] key. *)
Definition rest_of (w : option (Where Fields)) r : bool :=
  match w with
  | Some w => w_rest w (row_id r) (fields r)
  | None => true
  end.

Lemma matches_with_deleted_at_null w r :
  matches (Some (with_deleted_at_null w)) r
  = is_null (deleted_at r) && rest_of w r.
Proof. destruct w; reflexivity. Qed.

Lemma selected_live w t r :
  r ∈ selected (Some (with_deleted_at_null w)) t ->
  r ∈ t /\ deleted_at r = None.
Proof.
  unfold selected. rewrite list_elem_of_In, filter_In, <- list_elem_of_In.
  rewrite matches_with_deleted_at_null.
  intros [Hin [Hnull _]%andb_true_iff]. split; [exact Hin|].
  destruct (deleted_at r); [discriminate|reflexivity].
Qed.

Lemma head_elem_of (l : list (Row Fields)) r : head l = Some r -> r ∈ l.
Proof. destruct l; [discriminate|]. intros [= ->]. apply list_elem_of_here. Qed.


Lemma update_first_Some (p : Row Fields -> bool) f t t' r' :
  update_first p f t = Some (t', r') ->
  Forall2 (fun a b => b = a \/ (p a = true /\ b = f a)) t t'
  /\ r' ∈ t' /\ exists r0, r0 ∈ t /\ p r0 = true /\ r' = f r0.
Proof.
  revert t'. induction t as [|r t IH]; intros t' H; [discriminate|].
  cbn in H. destruct (p r) eqn:Hp.
  - injection H as <- <-. split; [|split].
    + constructor; [right; split; [exact Hp|reflexivity]|].
      apply Forall2_same_length_lookup_2; [reflexivity|].
      intros i a b Ha Hb. left. congruence.
    + apply list_elem_of_here.
    + exists r. split; [apply list_elem_of_here|]. split; [exact Hp|reflexivity].
  - destruct (update_first p f t) as [[t'' r'']|]; [|discriminate].
    injection H as <- <-. destruct (IH t'' eq_refl) as (HF & Hin & r0 & Hr0 & Hp0 & E).
    split; [|split].
    + constructor; [left; reflexivity|exact HF].
    + apply list_elem_of_further, Hin.
    + exists r0. split; [apply list_elem_of_further, Hr0|]. split; assumption.
Qed.

Lemma update_first_is_Some (p : Row Fields -> bool) f t r :
  r ∈ t -> p r = true -> is_Some (update_first p f t).
Proof.
  induction t as [|r1 t IH]; intros Hin Hp; [inversion Hin|].
  cbn. destruct (p r1) eqn:Hp1; [eexists; reflexivity|].
  apply elem_of_cons in Hin as [->|Hin]; [congruence|].
  destruct (IH Hin Hp) as [[t'' r''] ->]. eexists; reflexivity.
Qed.

Lemma Forall2_row_id (R : Row Fields -> Row Fields -> Prop) t t' :
  (forall a b, R a b -> row_id b = row_id a) ->
  Forall2 R t t' -> row_id <$> t' = row_id <$> t.
Proof.
  intros HR. induction 1 as [|a b t t' Hab _ IH]; [reflexivity|].
  rewrite !fmap_cons, IH, (HR a b Hab). reflexivity.
Qed.

(** What a read of the unextended client returns comes from the rows its
    [where] selects, and the table stays as it is. *)
Lemma base_read_selected op args t :
  is_read op = true ->
  fst (base_query op args t) = t
  /\ forall r, r ∈ result_rows (snd (base_query op args t)) ->
               r ∈ selected (a_where args) t.
Proof.
  intros Hop.
  destruct op; try discriminate Hop; cbn [base_query];
    destruct (a_where args) as [w|];
    try destruct (head (selected _ t)) as [r0|] eqn:Hh;
    cbn [fst snd result_rows];
    (split; [reflexivity|]); intros r Hr;
    try (inversion Hr; fail); try exact Hr;
    apply list_elem_of_singleton in Hr as ->; apply head_elem_of, Hh.
Qed.

(** A read through the extension sees the live rows only. *)
Lemma read_is_live now model op args t :
  model ∈ SOFT_DELETE_MODELS -> is_read op = true ->
  fst (allOperations now model op args t) = t
  /\ (forall r, r ∈ result_rows (snd (allOperations now model op args t)) ->
        r ∈ t /\ deleted_at r = None)
  /\ (op = Count ->
      snd (allOperations now model op args t)
      = RCount (length (List.filter
                  (fun r => is_null (deleted_at r) && rest_of (a_where args) r) t)))
  /\ (op = FindMany ->
      snd (allOperations now model op args t)
      = RRows (List.filter
                 (fun r => is_null (deleted_at r) && rest_of (a_where args) r) t)).
Proof.
  intros Hm Hop.
  set (args' := set_where (with_deleted_at_null (a_where args)) args).
  assert (Hcall : allOperations now model op args t = base_query op args' t).
  { unfold allOperations. rewrite bool_decide_eq_true_2 by exact Hm.
    rewrite Hop. destruct op; try discriminate Hop; reflexivity. }
  assert (Hsel : selected (a_where args') t
                 = List.filter (fun r => is_null (deleted_at r)
                                         && rest_of (a_where args) r) t).
  { unfold selected. apply filter_ext. intros r.
    apply matches_with_deleted_at_null. }
  rewrite Hcall.
  destruct (base_read_selected op args' t Hop) as [Hfst Hrows].
  split; [exact Hfst|].
  split; [intros r Hr; apply (selected_live (a_where args)), Hrows, Hr|].
  split; intros ->; cbn [base_query snd]; rewrite Hsel; reflexivity.
Qed.


(** [deleteMany] becomes an [updateMany] that stamps every matching row. *)
Lemma deleteMany_is_stamp now model args t :
  model ∈ SOFT_DELETE_MODELS ->
  allOperations now model DeleteMany args t
  = base_query UpdateMany (set_data (stamp now) args) t
  /\ fst (allOperations now model DeleteMany args t)
     = (fun r => if matches (a_where args) r
                 then mkRow (row_id r) (Some now) (fields r) else r) <$> t.
Proof.
  intros Hm. unfold allOperations. rewrite bool_decide_eq_true_2 by exact Hm.
  split; reflexivity.
Qed.


Lemma filter_none (p : Row Fields -> bool) t :
  (forall r, r ∈ t -> p r = false) -> List.filter p t = [].
Proof.
  induction t as [|r t IH]; intros H; [reflexivity|].
  cbn [List.filter]. rewrite (H r) by apply list_elem_of_here.
  apply IH. intros r' Hr'. apply H, list_elem_of_further, Hr'.
Qed.



End ClientFacts.


(** A library-entry table with one live and one soft-deleted row. *)
Definition by_id (i : string) : Where unit :=
  mkWhere None (fun j _ => String.eqb j i).

Definition entries : list (Row unit) :=
  [mkRow "e1" None tt; mkRow "e2" (Some 5) tt].


Example delete_keeps_the_row :
  allOperations 9 "LibraryEntry" Delete (mkArgs (Some (by_id "e1")) None None None)
    entries
  = ([mkRow "e1" (Some 9) tt; mkRow "e2" (Some 5) tt],
     RRow (Some (mkRow "e1" (Some 9) tt))).
Proof. vm_compute. reflexivity. Qed.

Example count_skips_deleted :
  snd (allOperations 9 "LibraryEntry" Count (mkArgs None None None None) entries)
  = RCount 1.
Proof. vm_compute. reflexivity. Qed.

Example upsert_resurrects :
  fst (allOperations 9 "LibraryEntry" Upsert
         (mkArgs (Some (by_id "e2")) None (Some (mkData None (fun x => x))) None)
         entries)
  = [mkRow "e1" None tt; mkRow "e2" None tt].
Proof. vm_compute. reflexivity. Qed.

(** Models outside the list are passed through untouched. *)
Example other_model_really_deletes :
  fst (allOperations 9 "FeedEntry" Delete (mkArgs (Some (by_id "e1")) None None None)
         entries)
  = [mkRow "e2" (Some 5) tt].
Proof. vm_compute. reflexivity. Qed.

Section ClientMore.

Context {Fields : Type}.
Implicit Types (t : list (Row Fields)) (r : Row Fields) (args : Args Fields).

Lemma update_first_keeps_ids (p : Row Fields -> bool) d t t' r' :
  update_first p (apply_data d) t = Some (t', r') ->
  row_id <$> t' = row_id <$> t.
Proof.
  intros E. apply update_first_Some in E as (HF & _).
  eapply Forall2_row_id; [|exact HF].
  intros a b [->|[_ ->]]; [reflexivity|]. destruct d; reflexivity.
Qed.

(** Every call on the unextended client other than the two deletes keeps
    the rows it found, in place, and at most appends one. *)
Lemma base_query_keeps_ids op args t :
  op <> Delete -> op <> DeleteMany ->
  row_id <$> t `prefix_of` row_id <$> fst (base_query op args t).
Proof.
  intros Hd Hdm.
  destruct op; try congruence; cbn [base_query];
    first
      [ solve [ cbn [fst]; rewrite <- list_fmap_compose;
                erewrite list_fmap_ext; [reflexivity|];
                intros i r _; cbn; destruct (matches (a_where args) r); [|reflexivity];
                destruct (a_data args); reflexivity ]
      | solve [ try (destruct (a_where args) as [w|]);
                try (destruct (head (selected _ t)));
                try (destruct (update_first _ _ t) as [[t' r']|] eqn:E);
                try (destruct (a_create args) as [c|]);
                cbn [fst];
                first [ reflexivity
                      | rewrite (update_first_keeps_ids _ _ _ _ _ E); reflexivity
                      | rewrite fmap_app; apply prefix_app_r; reflexivity ] ] ].
Qed.

(** X7. For a soft-delete model no call through the extension, whatever
    the operation and its arguments, takes a row out of the table: the rows
    that were there are all still there, in the same positions, and new
    rows only come after them. *)
Theorem rows_are_never_removed (now : Z) (model : string) (op : Operation)
    args t :
  model ∈ SOFT_DELETE_MODELS ->
  row_id <$> t `prefix_of` row_id <$> fst (allOperations now model op args t).
Proof.
  intros Hm. unfold allOperations. rewrite bool_decide_eq_true_2 by exact Hm.
  destruct op; cbn [is_read]; apply base_query_keeps_ids; discriminate.
Qed.

Lemma matches_stamped w r :
  (forall w0, w = Some w0 -> w_deleted_at w0 = None) ->
  matches w r = rest_of w r.
Proof.
  intros Hw. destruct w as [w0|]; [|reflexivity].
  cbn. rewrite (Hw w0 eq_refl). reflexivity.
Qed.

(** X8. What [deleteMany] has deleted can no longer be read.  With a
    [where] that says nothing about [deleted_at], after a [deleteMany] the
    [count] and the [findMany] of the same [where] give 0 and the empty
    list, and the rows still live are rows the [where] does not select. *)
Theorem deleteMany_then_read (now now' : Z) (model : string) args t :
  model ∈ SOFT_DELETE_MODELS ->
  (forall w, a_where args = Some w -> w_deleted_at w = None) ->
  let t' := fst (allOperations now model DeleteMany args t) in
  allOperations now' model Count args t' = (t', RCount 0)
  /\ allOperations now' model FindMany args t' = (t', RRows [])
  /\ (forall r, r ∈ t' -> deleted_at r = None ->
        r ∈ t /\ rest_of (a_where args) r = false).
Proof.
  intros Hm Hw t'.
  assert (Ht' : t' = (fun r => if rest_of (a_where args) r
                               then mkRow (row_id r) (Some now) (fields r) else r) <$> t).
  { subst t'. rewrite (proj2 (deleteMany_is_stamp now model args t Hm)).
    apply list_fmap_ext. intros i r _.
    rewrite (matches_stamped _ r Hw). reflexivity. }
  assert (Hlive : forall r, r ∈ t' -> deleted_at r = None ->
                    r ∈ t /\ rest_of (a_where args) r = false).
  { intros r Hr Hnull. rewrite Ht' in Hr.
    apply list_elem_of_fmap in Hr as (r0 & -> & Hr0).
    destruct (rest_of (a_where args) r0) eqn:E; [discriminate Hnull|].
    split; [exact Hr0|exact E]. }
  assert (Hnone : List.filter (fun r => is_null (deleted_at r)
                                        && rest_of (a_where args) r) t' = []).
  { apply filter_none. intros r Hr.
    destruct (deleted_at r) eqn:Hd; [reflexivity|].
    rewrite (proj2 (Hlive r Hr Hd)). reflexivity. }
  destruct (read_is_live now' model Count args t' Hm eq_refl) as (Hf & _ & Hc & _).
  destruct (read_is_live now' model FindMany args t' Hm eq_refl) as (Hf' & _ & _ & Hl).
  split; [|split; [|exact Hlive]].
  - rewrite (surjective_pairing (allOperations now' model Count args t')).
    rewrite Hf, (Hc eq_refl), Hnone. reflexivity.
  - rewrite (surjective_pairing (allOperations now' model FindMany args t')).
    rewrite Hf', (Hl eq_refl), Hnone. reflexivity.
Qed.

(** X9. [delete] is not guarded the way [update] is: it reaches a row
    that is already soft-deleted.  Whenever some row satisfies the [where],
    the call succeeds and hands back a row whose [deleted_at] is the
    current time, so deleting a deleted row again overwrites the time of
    its first deletion instead of rejecting with P2025. *)
Theorem delete_restamps (now : Z) (model : string) args t w r :
  model ∈ SOFT_DELETE_MODELS ->
  a_where args = Some w -> r ∈ t -> matches (Some w) r = true ->
  exists t' r0,
    allOperations now model Delete args t
    = (t', RRow (Some (mkRow (row_id r0) (Some now) (fields r0))))
    /\ r0 ∈ t /\ matches (Some w) r0 = true
    /\ mkRow (row_id r0) (Some now) (fields r0) ∈ t'
    /\ row_id <$> t' = row_id <$> t.
Proof.
  intros Hm Hw Hr Hmatch. unfold allOperations.
  rewrite bool_decide_eq_true_2 by exact Hm.
  cbn [is_read base_query set_data a_where a_data]. rewrite Hw.
  destruct (update_first_is_Some (matches (Some w))
              (apply_data (Some (stamp now))) t r Hr Hmatch) as [[t' r'] E].
  rewrite E.
  pose proof (update_first_keeps_ids _ _ _ _ _ E) as Hids.
  apply update_first_Some in E as (_ & Hin & r0 & Hr0 & Hp0 & ->).
  exists t', r0. cbn [apply_data stamp d_deleted_at d_fields] in *.
  repeat split; assumption.
Qed.

End ClientMore.

Lemma deleteMany_then_read_witness :
  "LibraryEntry" ∈ SOFT_DELETE_MODELS
  /\ allOperations 10 "LibraryEntry" Count (mkArgs (Some (by_id "e1")) None None None)
       (fst (allOperations 9 "LibraryEntry" DeleteMany
               (mkArgs (Some (by_id "e1")) None None None) entries))
     = ([mkRow "e1" (Some 9) tt; mkRow "e2" (Some 5) tt], RCount 0).
Proof.
  assert (Hm : "LibraryEntry" ∈ SOFT_DELETE_MODELS)
    by (apply (bool_decide_unpack _); vm_compute; exact I).
  split; [exact Hm|].
  apply (deleteMany_then_read 9 10 "LibraryEntry"
           (mkArgs (Some (by_id "e1")) None None None) entries Hm).
  intros w [= <-]. reflexivity.
Defined.

Lemma delete_restamps_witness :
  "LibraryEntry" ∈ SOFT_DELETE_MODELS
  /\ exists t' r0,
       allOperations 9 "LibraryEntry" Delete (mkArgs (Some (by_id "e2")) None None None)
         entries
       = (t', RRow (Some (mkRow (row_id r0) (Some 9) (fields r0))))
       /\ r0 ∈ entries.
Proof.
  assert (Hm : "LibraryEntry" ∈ SOFT_DELETE_MODELS)
    by (apply (bool_decide_unpack _); vm_compute; exact I).
  split; [exact Hm|].
  destruct (delete_restamps 9 "LibraryEntry"
              (mkArgs (Some (by_id "e2")) None None None) entries
              (by_id "e2") (mkRow "e2" (Some 5) tt) Hm eq_refl)
    as (t' & r0 & E & Hr0 & _).
  - apply list_elem_of_further, list_elem_of_here.
  - reflexivity.
  - exists t', r0. split; [exact E|exact Hr0].
Defined.

Lemma rows_are_never_removed_witness :
  "LibraryEntry" ∈ SOFT_DELETE_MODELS
  /\ row_id <$> entries
     `prefix_of` row_id <$> fst (allOperations 9 "LibraryEntry" DeleteMany
                                    (mkArgs None None None None) entries).
Proof.
  assert (Hm : "LibraryEntry" ∈ SOFT_DELETE_MODELS)
    by (apply (bool_decide_unpack _); vm_compute; exact I).
  split; [exact Hm|].
  apply (rows_are_never_removed 9 "LibraryEntry" DeleteMany
           (mkArgs None None None None) entries Hm).
Defined.

End SoftDelete.

(* ===================================================================== *)
(** ** Crawl scheduler ([runMasterScheduler]).  The scheduler's source,
       [workers/schedulers/master.scheduler], is not among the sources;
       only its test is. *)
(* ===================================================================== *)
Module Scheduler.

Inductive Tier := A | B | C.

#[global] Instance Tier_eq_dec : EqDecision Tier.
Proof. solve_decision. Defined.

Record Series := mkSeries {
  title : string;
  catalog_tier : Tier;
}.

Record SeriesSource := mkSource {
  id : string;
  series_id : string;
  source_name : string;
  next_check_at : Z;
  failure_count : Z;
}.

Section Run.

(** Configuration the spec leaves open: the backlog ceiling, the failure
    ceiling, and the re-check interval of each tier. *)
Context (backlog_ceiling failure_ceiling : Z) (interval : Tier -> Z).

(** The tier of the series that owns a source, if the series exists. *)
Definition tier_of (series : gmap string Series) (src : SeriesSource) : option Tier :=
  catalog_tier <$> series !! series_id src.

Definition crawled_tier (t : option Tier) : bool :=
  match t with
  | Some A | Some B => true
  | Some C | None => false
  end.

(** Modelled from the spec: the selection of step 2 of the scheduler
    (section 4.3), "[next_check_at <= now] and the owning series' tier is A
    or B (tier C excluded unconditionally)", with the failure policy:
    "sources at or above a failure ceiling are excluded". *)
Definition due (series : gmap string Series) (now : Z) (src : SeriesSource) : bool :=
  (next_check_at src <=? now)
  && crawled_tier (tier_of series src)
  && (failure_count src <? failure_ceiling).

(** Modelled from the spec: step 3, "advance each source's [next_check_at]
    by a tier-dependent interval". *)
Definition advance (series : gmap string Series) (src : SeriesSource) : SeriesSource :=
  match tier_of series src with
  | Some t => mkSource (id src) (series_id src) (source_name src)
                (next_check_at src + interval t) (failure_count src)
  | None => src
  end.

(** What a run leaves behind: the batch handed to the crawl queue and the
    source table. *)
Record Run := mkRun {
  enqueued : list SeriesSource;
  sources_after : list SeriesSource;
}.

(** Modelled from the spec: [runMasterScheduler], steps 1 to 3 of section
    4.3: skip the whole cycle when the queue's waiting count exceeds the
    ceiling; otherwise select the due sources, enqueue them as one batch and
    advance their [next_check_at] by the interval of their tier. *)
Definition runMasterScheduler (waiting now : Z) (series : gmap string Series)
    (sources : list SeriesSource) : Run :=
  if backlog_ceiling <? waiting then mkRun [] sources
  else
    mkRun (List.filter (due series now) sources)
          ((fun src => if due series now src then advance series src else src)
             <$> sources).

Lemma enqueued_due waiting now series sources src :
  src ∈ enqueued (runMasterScheduler waiting now series sources) ->
  src ∈ sources /\ due series now src = true.
Proof.
  unfold runMasterScheduler. destruct (backlog_ceiling <? waiting); cbn.
  - intros H. inversion H.
  - rewrite list_elem_of_In, filter_In, <- list_elem_of_In. tauto.
Qed.

(** C7. Every source in the batch a scheduler run enqueues belongs to a
    series of tier A or B and has [next_check_at <= now]; a source whose
    series has tier C is in no batch, whatever its [next_check_at]; and when
    the backlog allows a run, every healthy due source of a tier A or B
    series is in the batch. *)
Theorem tier_c_never_enqueued (waiting now : Z) (series : gmap string Series)
    (sources : list SeriesSource) :
  let batch := enqueued (runMasterScheduler waiting now series sources) in
  (forall src, src ∈ batch ->
     src ∈ sources
     /\ (tier_of series src = Some A \/ tier_of series src = Some B)
     /\ next_check_at src <= now)
  /\ (forall src, tier_of series src = Some C -> src ∉ batch)
  /\ (forall src, waiting <= backlog_ceiling -> src ∈ sources ->
        tier_of series src <> Some C -> tier_of series src <> None ->
        next_check_at src <= now -> failure_count src < failure_ceiling ->
        src ∈ batch).
Proof.
  intros batch. subst batch. split; [|split].
  - intros src [Hin Hdue]%enqueued_due. split; [exact Hin|].
    unfold due in Hdue.
    apply andb_true_iff in Hdue as [[Hnext Htier]%andb_true_iff _].
    split; [|apply Z.leb_le, Hnext].
    destruct (tier_of series src) as [[]|]; try discriminate; auto.
  - intros src HC [_ Hdue]%enqueued_due. unfold due in Hdue.
    rewrite HC in Hdue. cbn in Hdue. rewrite andb_false_r in Hdue. discriminate.
  - intros src Hback Hin HnC Hsome Hnext Hfail.
    unfold runMasterScheduler.
    destruct (Z.ltb_spec backlog_ceiling waiting); [lia|]. cbn.
    rewrite list_elem_of_In, filter_In, <- list_elem_of_In.
    split; [exact Hin|]. unfold due.
    rewrite (proj2 (Z.leb_le _ _) Hnext), (proj2 (Z.ltb_lt _ _) Hfail).
    destruct (tier_of series src) as [[]|]; try reflexivity; congruence.
Qed.

End Run.

(** The scheduler test: a tier A and a tier C series, both with a due source. *)
Definition two_series : gmap string Series :=
  {[ "sa" := mkSeries "Tier A Series" A; "sc" := mkSeries "Tier C Series" C ]}.

Definition two_sources : list SeriesSource :=
  [mkSource "a1" "sa" "mangadex" (-1000) 0; mkSource "c1" "sc" "mangadex" (-1000) 0].

Example tier_c_is_filtered_out :
  id <$> enqueued (runMasterScheduler 10000 5 (fun _ => 60000) 0 0 two_series two_sources)
  = ["a1"].
Proof. vm_compute. reflexivity. Qed.

End Scheduler.

(* ===================================================================== *)
(** ** Gap recovery ([processGapRecovery]).  The processor's source,
       [workers/processors/gap-recovery.processor], is not among the
       sources; only its tests are. *)
(* ===================================================================== *)
Module GapRecovery.

(** The "no chapter number" sentinel, [-1]. *)
Definition NO_NUMBER_SENTINEL : Q := (-1 # 1)%Q.

(** [failure_count: { lt: 5 }] in the test of the processor's query. *)
Definition FAILURE_CEILING : Z := 5.

Record LogicalChapter := mkChapter {
  lc_series_id : string;
  chapter_number : Q;
}.

Record SeriesSource := mkSource {
  id : string;
  series_id : string;
  failure_count : Z;
}.

Inductive Job := Recrawl (seriesSourceId : string).

Inductive GapResult :=
| NoGaps
| Triggered (gapCount sourceCount : nat).

Definition is_integer (q : Q) : bool := Qnum q mod Zpos (Qden q) =? 0.

Definition integer_value (q : Q) : Z := Qnum q / Zpos (Qden q).

(** Modelled from the spec: the integer chapter numbers of a listing,
    "excluding the sentinel"; a number such as 10.5 is left out. *)
Definition observed_integers (numbers : list Q) : list Z :=
  integer_value <$>
    List.filter is_integer
      (List.filter (fun q => negb (Qeq_bool q NO_NUMBER_SENTINEL)) numbers).

(** Modelled from the spec: the gap scan of section 4.5, "fetch all
    LogicalChapter numbers (excluding the sentinel), sort ascending, and
    report every missing integer strictly between the minimum and maximum
    observed integer chapter number". *)
Definition detect_gaps (numbers : list Q) : list Z :=
  let sorted := merge_sort Z.le (observed_integers numbers) in
  match head sorted, last sorted with
  | Some lo, Some hi => filter (fun g => g ∉ sorted) (seqZ (lo + 1) (hi - lo - 1))
  | _, _ => []
  end.

(** Modelled from the spec: "the series' healthy sources ([failure_count]
    below ceiling)". *)
Definition healthy (seriesId : string) (sources : list SeriesSource) : list SeriesSource :=
  filter (fun s => series_id s = seriesId /\ failure_count s < FAILURE_CEILING) sources.

(** Modelled from the spec: [processGapRecovery] (section 4.5): on N > 0
    gaps, one re-crawl job per healthy source of the series and the result
    [{status: 'triggered', gapCount, sourceCount}]; with no gap, nothing. *)
Definition processGapRecovery (seriesId : string)
    (chapters : list LogicalChapter) (sources : list SeriesSource)
  : GapResult * list Job :=
  let numbers :=
    chapter_number <$> filter (fun c => lc_series_id c = seriesId) chapters in
  match detect_gaps numbers with
  | [] => (NoGaps, [])
  | gaps =>
      (Triggered (length gaps) (length (healthy seriesId sources)),
       (fun s => Recrawl (id s)) <$> healthy seriesId sources)
  end.

Lemma sorted_head_least (l : list Z) lo :
  StronglySorted Z.le l -> head l = Some lo -> forall x, x ∈ l -> lo <= x.
Proof.
  intros Hs Hh x Hx. destruct l as [|y l]; [discriminate|].
  injection Hh as ->. apply StronglySorted_inv in Hs as [_ Hall].
  apply elem_of_cons in Hx as [->|Hx]; [lia|].
  rewrite Forall_forall in Hall. apply Hall, Hx.
Qed.

Lemma sorted_last_greatest (l : list Z) hi :
  StronglySorted Z.le l -> last l = Some hi -> forall x, x ∈ l -> x <= hi.
Proof.
  induction 1 as [|y l Hs IH Hall]; intros Hl x Hx; [inversion Hx|].
  destruct l as [|z l].
  - injection Hl as <-. apply list_elem_of_singleton in Hx as ->. lia.
  - rewrite last_cons_cons in Hl.
    apply elem_of_cons in Hx as [->|Hx]; [|apply IH; assumption].
    rewrite Forall_forall in Hall.
    transitivity z; [apply Hall, list_elem_of_here|].
    apply IH; [exact Hl|apply list_elem_of_here].
Qed.

Lemma detect_gaps_spec numbers g :
  g ∈ detect_gaps numbers
  <-> (g ∉ observed_integers numbers)
      /\ exists lo hi, lo ∈ observed_integers numbers
                       /\ hi ∈ observed_integers numbers /\ lo < g < hi.
Proof.
  unfold detect_gaps.
  set (obs := observed_integers numbers).
  set (sorted := merge_sort Z.le obs).
  assert (Hperm : sorted ≡ₚ obs) by apply merge_sort_Permutation.
  assert (Hsorted : StronglySorted Z.le sorted)
    by apply (StronglySorted_merge_sort Z.le).
  destruct (head sorted) as [lo|] eqn:Hlo.
  - destruct (last sorted) as [hi|] eqn:Hhi.
    2:{ apply last_None in Hhi. rewrite Hhi in Hlo. discriminate. }
    rewrite list_elem_of_filter, elem_of_seqZ, Hperm.
    split.
    + intros [Hg Hrange]. split; [exact Hg|]. exists lo, hi.
      rewrite <- !Hperm.
      split; [apply head_Some_elem_of, Hlo|].
      split; [apply last_Some_elem_of, Hhi|lia].
    + intros [Hg (lo' & hi' & Hlo' & Hhi' & Hrange)]. split; [exact Hg|].
      rewrite <- Hperm in Hlo', Hhi'.
      pose proof (sorted_head_least sorted lo Hsorted Hlo lo' Hlo').
      pose proof (sorted_last_greatest sorted hi Hsorted Hhi hi' Hhi').
      lia.
  - apply head_None in Hlo. split; [intros H; inversion H|].
    intros [_ (lo' & _ & Hlo' & _)]. rewrite <- Hperm, Hlo in Hlo'.
    inversion Hlo'.
Qed.

Lemma detect_gaps_NoDup numbers : NoDup (detect_gaps numbers).
Proof.
  unfold detect_gaps.
  destruct (head _); [|constructor]. destruct (last _); [|constructor].
  apply NoDup_filter, NoDup_seqZ.
Qed.

(** C8. A gap is exactly a missing integer strictly between two observed
    integer chapter numbers of the series (so between the least and the
    greatest), the sentinel and non-integer numbers aside, each reported
    once; chapters 1, 2, 5, 10 give the six gaps 3, 4, 6, 7, 8, 9 and
    chapters 1, 2, 3 give none; with a gap the processor answers
    [Triggered gapCount sourceCount] and enqueues one re-crawl per source of
    the series whose [failure_count] is below 5; without one it does
    nothing. *)
Theorem gap_detection (seriesId : string) (chapters : list LogicalChapter)
    (sources : list SeriesSource) :
  let numbers :=
    chapter_number <$> filter (fun c => lc_series_id c = seriesId) chapters in
  (forall g, g ∈ detect_gaps numbers
     <-> (g ∉ observed_integers numbers)
         /\ exists lo hi, lo ∈ observed_integers numbers
                          /\ hi ∈ observed_integers numbers /\ lo < g < hi)
  /\ NoDup (detect_gaps numbers)
  /\ detect_gaps [(1 # 1); (2 # 1); (5 # 1); (10 # 1)]%Q = [3; 4; 6; 7; 8; 9]
  /\ detect_gaps [(1 # 1); (2 # 1); (3 # 1)]%Q = []
  /\ (detect_gaps numbers = [] ->
      processGapRecovery seriesId chapters sources = (NoGaps, []))
  /\ (detect_gaps numbers <> [] ->
      processGapRecovery seriesId chapters sources
      = (Triggered (length (detect_gaps numbers))
                   (length (healthy seriesId sources)),
         (fun s => Recrawl (id s)) <$> healthy seriesId sources)
      /\ forall s, s ∈ healthy seriesId sources
           <-> s ∈ sources /\ series_id s = seriesId /\ failure_count s < 5).
Proof.
  intros numbers.
  split; [intros g; apply detect_gaps_spec|].
  split; [apply detect_gaps_NoDup|].
  split; [vm_compute; reflexivity|].
  split; [vm_compute; reflexivity|].
  unfold processGapRecovery. fold numbers.
  split.
  - intros ->. reflexivity.
  - intros Hne. split.
    + destruct (detect_gaps numbers); [congruence|reflexivity].
    + intros s. unfold healthy, FAILURE_CEILING.
      rewrite list_elem_of_filter. tauto.
Qed.

(** The processor's test: chapters 1, 2, 5, 10 and no source. *)
Example gaps_of_test_listing :
  processGapRecovery "s1"
    [mkChapter "s1" (1 # 1); mkChapter "s1" (2 # 1);
     mkChapter "s1" (5 # 1); mkChapter "s1" (10 # 1)] []
  = (Triggered 6 0, []).
Proof. vm_compute. reflexivity. Qed.

(** A half chapter and the sentinel neither bound nor block the scan. *)
Example gaps_around_half_chapter :
  detect_gaps [(-1 # 1); (1 # 1); (21 # 2); (3 # 1)]%Q = [2].
Proof. vm_compute. reflexivity. Qed.

End GapRecovery.

(* ===================================================================== *)
(** ** Chapter ingestion ([processChapterIngest]).  The processor's source,
       [workers/processors/chapter-ingest.processor], is not among the
       sources; only its tests are. *)
(* ===================================================================== *)
Module Ingest.

#[global] Instance Q_eq_dec : EqDecision Q.
Proof. solve_decision. Defined.

(** The "no chapter number" sentinel, [-1]. *)
Definition NO_NUMBER_SENTINEL : Q := (-1 # 1)%Q.

(** One normalized chapter report of a crawl adapter. *)
Record Report := mkReport {
  seriesSourceId : string;
  seriesId : string;
  chapterNumber : option Q;
  chapterTitle : string;
  chapterUrl : string;
  sourceChapterId : option string;
  publishedAt : Z;
}.

(** A logical chapter is identified by [(series_id, chapter_number)]; the
    decimal is kept in lowest terms, so equal numbers are equal keys. *)
Definition ChapterKey : Type := string * Q.

Record LogicalChapter := mkLogical {
  lc_key : ChapterKey;
  first_seen_at : Z;
}.

Record ChapterSource := mkBinding {
  cs_key : string * option string;   (* (seriesSourceId, sourceChapterId) *)
  cs_chapter : ChapterKey;           (* the logical chapter it is attached to *)
  cs_title : string;
  cs_url : string;
  is_available : bool;
}.

Record FeedEntry := mkFeed {
  fe_chapter : ChapterKey;
  fe_published_at : Z;
}.

Record Store := mkStore {
  logical_chapters : list LogicalChapter;
  chapter_sources : list ChapterSource;
  feed_entries : list FeedEntry;
}.

Definition empty_store : Store := mkStore [] [] [].

Definition chapter_key (r : Report) : ChapterKey :=
  (seriesId r, Qred (default NO_NUMBER_SENTINEL (chapterNumber r))).

Definition source_key (r : Report) : string * option string :=
  (seriesSourceId r, sourceChapterId r).

Definition refresh (r : Report) (c : ChapterSource) : ChapterSource :=
  mkBinding (cs_key c) (cs_chapter c) (chapterTitle r) (chapterUrl r) true.

(** Modelled from the spec: [processChapterIngest], steps 1 to 3 of section
    4.4, as one atomic step.  1: resolve or create the logical chapter of
    [(seriesId, chapterNumber ?? SENTINEL)].  2: resolve or create the
    binding keyed by [(seriesSourceId, sourceChapterId)]; a known key has its
    title, URL and availability updated.  3: when the binding is new and the
    logical chapter had no binding before, create one feed entry.  (Step 4
    touches the series row only.) *)
Definition processChapterIngest (r : Report) (st : Store) : Store :=
  let L := chapter_key r in
  let k := source_key r in
  let lcs := logical_chapters st in
  let css := chapter_sources st in
  let known := filter (fun c => cs_key c = k) css in
  let siblings := filter (fun c => cs_chapter c = L) css in
  mkStore
    (if decide (filter (fun lc => lc_key lc = L) lcs = [])
     then lcs ++ [mkLogical L (publishedAt r)] else lcs)
    (if decide (known = [])
     then css ++ [mkBinding k L (chapterTitle r) (chapterUrl r) true]
     else (fun c => if decide (cs_key c = k) then refresh r c else c) <$> css)
    (if decide (known = [] /\ siblings = [])
     then feed_entries st ++ [mkFeed L (publishedAt r)] else feed_entries st).

Definition ingest_all (rs : list Report) (st : Store) : Store :=
  fold_left (fun st r => processChapterIngest r st) rs st.






















(** The ingestion test: chapter 1 of one series from MangaPark, then from
    MangaDex, the MangaDex report delivered twice. *)
Definition from_mangapark : Report :=
  mkReport "src-mp" "one-piece" (Some (1 # 1)%Q) "Dawn"
    "https://mangapark.net/manga/mp-1/1" (Some "mp-ch-1") 100.

Definition from_mangadex : Report :=
  mkReport "src-md" "one-piece" (Some (1 # 1)%Q) "Romance Dawn"
    "https://mangadex.org/chapter/md-ch-1" (Some "md-ch-1") 200.

Definition test_reports : list Report :=
  [from_mangapark; from_mangadex; from_mangadex].




Example test_reports_store :
  let st := ingest_all test_reports empty_store in
  length (logical_chapters st) = 1%nat
  /\ length (feed_entries st) = 1%nat
  /\ cs_key <$> chapter_sources st
     = [("src-mp", Some "mp-ch-1"); ("src-md", Some "md-ch-1")]
  /\ cs_title <$> chapter_sources st = ["Dawn"; "Romance Dawn"].
Proof. vm_compute. repeat split. Qed.





End Ingest.

(* ===================================================================== *)
(** ** Retrying database calls: [isTransientError], [withRetry] and
       [safeQuery] of the Prisma client module. *)
(* ===================================================================== *)
Module Retry.

(** How a call settles: with a value, or by throwing. *)
Inductive Settled (T E : Type) :=
| Fulfilled (v : T)
| Threw (e : E).

Arguments Fulfilled {T E} v.
Arguments Threw {T E} e.

(** The TypeErrors the engine raises in this code: calling a method the
    receiver does not have, and reading a property of [null] or
    [undefined]. *)
Inductive TypeError :=
| NotAFunction (method : string)
| CannotReadProperty (property : string).

(** *** Strings *)

(** A JavaScript string, as its UTF-16 code units. *)
Definition JsString := list N.

(** The code units of an ASCII literal of the source. *)
Definition units (s : string) : JsString :=
  N_of_ascii <$> String.list_ascii_of_string s.

Fixpoint startsWith (s p : JsString) : bool :=
  match p, s with
  | [], _ => true
  | _ :: _, [] => false
  | a :: p', b :: s' => (a =? b)%N && startsWith s' p'
  end.

(** [s.includes(p)]. *)
Fixpoint includes (s p : JsString) : bool :=
  startsWith s p
  || match s with
     | [] => false
     | _ :: s' => includes s' p
     end.

(** *** The two patterns compiled with [new RegExp(pattern, 'i')]

    Both are a literal, [.*], and a literal, the literals made of ASCII
    letters and spaces.  Under the [i] flag a code unit matches an ASCII
    letter when it is that letter in either case (a code unit outside ASCII
    never does), and [.] matches any code unit but a line terminator. *)
Definition upper (c : N) : N :=
  if (97 <=? c)%N && (c <=? 122)%N then (c - 32)%N else c.

Definition matches_char (p c : N) : bool := (upper p =? upper c)%N.

Definition LineTerminator (c : N) : bool :=
  (c =? 10)%N || (c =? 13)%N || (c =? 8232)%N || (c =? 8233)%N.

(** The literal [p] at the start of [s]: what follows it. *)
Fixpoint match_literal (p s : JsString) : option JsString :=
  match p, s with
  | [], _ => Some s
  | _ :: _, [] => None
  | a :: p', b :: s' => if matches_char a b then match_literal p' s' else None
  end.

(** [.*] and then the literal [post], from the start of [s]. *)
Fixpoint match_rest (post s : JsString) : bool :=
  match match_literal post s with
  | Some _ => true
  | None =>
      match s with
      | [] => false
      | c :: s' => negb (LineTerminator c) && match_rest post s'
      end
  end.

(** [/pre.*post/i.test(s)]: a match may start anywhere in [s]. *)
Fixpoint RegExp_test (pre post s : JsString) : bool :=
  match match_literal pre s with
  | Some rest => match_rest post rest
  | None => false
  end
  || match s with
     | [] => false
     | _ :: s' => RegExp_test pre post s'
     end.

(** A pattern cut at its first [.*]. *)
Fixpoint wildcard (pattern : JsString) : option (JsString * JsString) :=
  match pattern with
  | [] => None
  | c :: rest =>
      match rest with
      | [] => None
      | d :: post =>
          if (c =? 46)%N && (d =? 42)%N then Some ([], post)
          else (fun parts => (c :: fst parts, snd parts)) <$> wildcard rest
      end
  end.

(** The test of one entry of [nonTransientPatterns] in the [for] loop. *)
Definition hits (errorMessage : JsString) (pattern : string) : bool :=
  if includes (units pattern) (units ".*") then
    match wildcard (units pattern) with
    | Some (pre, post) => RegExp_test pre post errorMessage
    | None => false
    end
  else includes errorMessage (units pattern).

(** *** Thrown values *)

(** What reading a property gives, as far as this code tells values apart. *)
Inductive Field :=
| Absent                (* [undefined] or [null] *)
| Zero                  (* falsy, not nullish, not a string: [false], [0], [NaN] *)
| Text (s : JsString)   (* a string *)
| Thing.                (* truthy and not a string, with none of the string
                           methods: a number, [true], a plain object *)

(** What [isTransientError] and [safeQuery] read of a truthy thrown value:
    [error.message], [error.code], [error.name] and
    [error.constructor?.name].  Reading them is taken to have no effect. *)
Record ErrorView := mkError {
  message : Field;
  code : Field;
  name : Field;
  constructor_name : Field;
}.

(** A thrown value: [null] or [undefined], another falsy value ([0], the
    empty string, [false]), or a truthy one. *)
Inductive Thrown :=
| Nullish
| Falsy
| Truthy (error : ErrorView).

Definition truthy (f : Field) : bool :=
  match f with
  | Absent | Zero => false
  | Text [] => false
  | Text (_ :: _) => true
  | Thing => true
  end.

(** [a || b]. *)
Definition or_else (a b : Field) : Field := if truthy a then a else b.

(** [codes.includes(errorCode)], on an array of strings: only a string is
    equal to a string. *)
Definition lists (codes : list string) (errorCode : Field) : bool :=
  match errorCode with
  | Text s => existsb (fun c => bool_decide (units c = s)) codes
  | Absent | Zero | Thing => false
  end.

Definition nonTransientPatterns : list string :=
  [ "password authentication failed";
    "authentication failed";
    "invalid password";
    "access denied";
    "permission denied";
    "role .* does not exist";
    "database .* does not exist";
    "invalid credentials" ].

Definition nonTransientCodes : list string := ["P1000"; "P1003"].

Definition transientPatterns : list string :=
  [ "circuit breaker";
    "can't reach database";
    "connection refused";
    "connection reset";
    "connection timed out";
    "econnrefused";
    "econnreset";
    "etimedout";
    "unable to establish connection";
    "connection pool timeout";
    "too many connections";
    "tenant or user not found";
    "pool_timeout";
    "server closed the connection unexpectedly";
    "prepared statement";
    "ssl connection has been closed unexpectedly" ].

Definition transientCodes : list string :=
  ["P1001"; "P1002"; "P1008"; "P1017"; "P2024"; "P2028"; "40001"; "40P01"; "57P01"].

Section WithRetry.

(** [String.prototype.toLowerCase]. *)
Variable toLowerCase : JsString -> JsString.

(** [isTransientError(error)].  It throws where it calls a string method on
    a value that is not a string: [toLowerCase] on a truthy [message], and
    [includes] on a truthy [name], the latter only when no non-transient
    pattern or code has returned first. *)
Definition isTransientError (error : Thrown) : Settled bool TypeError :=
  match error with
  | Nullish | Falsy => Fulfilled false
  | Truthy error =>
      match or_else (message error) (Text []) with
      | Text m =>
          let errorMessage := toLowerCase m in
          let errorCode := or_else (code error) (Text []) in
          let errorName :=
            or_else (name error) (or_else (constructor_name error) (Text [])) in
          if existsb (hits errorMessage) nonTransientPatterns then Fulfilled false
          else if lists nonTransientCodes errorCode then Fulfilled false
          else
            match errorName with
            | Text n =>
                let isInitError :=
                  includes n (units "PrismaClientInitializationError")
                  || includes n (units "PrismaClientKnownRequestError")
                  || (includes errorMessage (units "prisma")
                      && (includes errorMessage (units "initialization")
                          || includes errorMessage (units "invocation"))) in
                let patternMatch :=
                  existsb (fun pattern => includes errorMessage (units pattern))
                    transientPatterns in
                let codeMatch := lists transientCodes errorCode in
                Fulfilled (isInitError || patternMatch || codeMatch)
            | Absent | Zero | Thing => Threw (NotAFunction "includes")
            end
      | Absent | Zero | Thing => Threw (NotAFunction "toLowerCase")
      end
  end.

(** [S] is whatever the operation reads and writes, [T] what it returns. *)
Context {S T : Type}.

(** The successive values of [Math.random()]. *)
Variable random : nat -> Q.

Variable operation : S -> S * Settled T Thrown.

(** A run so far: the operation's state, how each call of the operation
    settled, and the delays slept through, in milliseconds. *)
Record Run := mkRun {
  state : S;
  answers : list (Settled T Thrown);
  sleeps : list Q;
}.

(** What [withRetry] rejects with: a value the operation threw (or
    [lastError] as it was), or the TypeError that [isTransientError] raised
    inside the [catch] block. *)
Inductive Raised :=
| Original (error : Thrown)
| Internal (t : TypeError).

(** [baseDelayMs * Math.pow(2, attempt) + Math.random() * 100]. *)
Definition delay (baseDelayMs attempt : Z) (k : nat) : Q :=
  (inject_Z (baseDelayMs * 2 ^ attempt) + random k * 100)%Q.

(** The [for] loop of [withRetry], with [fuel] iterations left.  Falling
    out of the loop is [throw lastError!]. *)
Fixpoint loop (maxRetries baseDelayMs : Z) (fuel : nat) (attempt : Z)
    (lastError : Thrown) (w : Run) : Run * Settled T Raised :=
  match fuel with
  | O => (w, Threw (Original lastError))
  | Datatypes.S fuel' =>
      let (s', res) := operation (state w) in
      let w := mkRun s' (answers w ++ [res]) (sleeps w) in
      match res with
      | Fulfilled v => (w, Fulfilled v)
      | Threw error =>
          match isTransientError error with
          | Threw t => (w, Threw (Internal t))
          | Fulfilled transient =>
              if negb transient || (attempt =? maxRetries - 1)
              then (w, Threw (Original error))
              else
                let d := delay baseDelayMs attempt (length (sleeps w)) in
                loop maxRetries baseDelayMs fuel' (attempt + 1) error
                  (mkRun (state w) (answers w) (sleeps w ++ [d]))
          end
      end
  end.

(** [withRetry(operation, maxRetries, baseDelayMs)]: [attempt] runs from 0
    while [attempt < maxRetries]; [lastError] starts as [null]. *)
Definition withRetry (maxRetries baseDelayMs : Z) (s : S)
  : Run * Settled T Raised :=
  loop maxRetries baseDelayMs (Z.to_nat maxRetries) 0 Nullish (mkRun s [] []).

(** [error.message?.slice(0, 200)] in the [catch] block of [safeQuery]: the
    read throws on [null] and [undefined], the call on a [message] that is
    there and has no [slice]. *)
Definition message_slice (error : Raised) : Settled unit TypeError :=
  match error with
  | Internal _ => Fulfilled tt
  | Original Nullish => Threw (CannotReadProperty "message")
  | Original Falsy => Fulfilled tt
  | Original (Truthy error) =>
      match message error with
      | Absent | Text _ => Fulfilled tt
      | Zero | Thing => Threw (NotAFunction "slice")
      end
  end.

(** [safeQuery(operation, fallback)]: the record [{ data, error }] it
    resolves with, [None] standing for [null]; what its [catch] block
    throws is what it rejects with. *)
Definition safeQuery (fallback : option T) (s : S)
  : Run * Settled (option T * option Raised) TypeError :=
  match withRetry 3 200 s with
  | (w, Fulfilled data) => (w, Fulfilled (Some data, None))
  | (w, Threw error) =>
      match message_slice error with
      | Fulfilled _ => (w, Fulfilled (fallback, Some error))
      | Threw t => (w, Threw t)
      end
  end.

(** The first [n] calls of the operation from state [s]. *)
Fixpoint calls (n : nat) (s : S) : S * list (Settled T Thrown) :=
  match n with
  | O => (s, [])
  | Datatypes.S n' =>
      let (s', res) := operation s in
      let (s'', rest) := calls n' s' in
      (s'', res :: rest)
  end.

(** Every answer but the last is a throw of an error that
    [isTransientError] returns [true] for. *)
Definition retried (l : list (Settled T Thrown)) : Prop :=
  forall k res, l !! k = Some res -> (Datatypes.S k < length l)%nat ->
    exists e, res = Threw e /\ isTransientError e = Fulfilled true.

Lemma retried_cons e l :
  isTransientError e = Fulfilled true -> retried l -> retried (Threw e :: l).
Proof.
  intros He Hl [|k] res Hk Hlt; cbn in *.
  - injection Hk as <-. exists e. split; [reflexivity|exact He].
  - apply (Hl k res Hk). lia.
Qed.

Lemma retried_one res : retried [res].
Proof. intros [|k] r Hk Hlt; cbn in Hlt; lia. Qed.

Lemma loop_spec maxRetries baseDelayMs fuel : forall attempt lastError w,
  attempt + Z.of_nat fuel = maxRetries \/ fuel = O ->
  let r := loop maxRetries baseDelayMs fuel attempt lastError w in
  exists new ds,
    answers (fst r) = answers w ++ new
    /\ sleeps (fst r) = sleeps w ++ ds
    /\ (state (fst r), new) = calls (length new) (state w)
    /\ (length new <= fuel)%nat
    /\ length ds = pred (length new)
    /\ retried new
    /\ (forall k d, ds !! k = Some d ->
          d = delay baseDelayMs (attempt + Z.of_nat k) (length (sleeps w) + k))
    /\ match snd r with
       | Fulfilled v => last new = Some (Fulfilled v)
       | Threw (Internal t) =>
           exists e, last new = Some (Threw e) /\ isTransientError e = Threw t
       | Threw (Original e) =>
           (new = [] /\ e = lastError /\ fuel = O)
           \/ (last new = Some (Threw e)
               /\ (isTransientError e = Fulfilled false
                   \/ (isTransientError e = Fulfilled true /\ length new = fuel)))
       end.
Proof.
  induction fuel as [|fuel IH]; intros attempt lastError w Hfuel r.
  - exists [], []. subst r. cbn. rewrite !app_nil_r.
    repeat split; try reflexivity; try lia.
    + intros k res Hk. discriminate Hk.
    + intros k d Hk. discriminate Hk.
    + left. auto.
  - destruct Hfuel as [Hfuel|Hfuel]; [|discriminate].
    subst r. cbn [loop].
    destruct (operation (state w)) as [s' res] eqn:Hop.
    assert (Hstop : forall out : Settled T Raised,
      match out with
      | Fulfilled v => res = Fulfilled v
      | Threw (Internal t) => exists e, res = Threw e /\ isTransientError e = Threw t
      | Threw (Original e) =>
          res = Threw e
          /\ (isTransientError e = Fulfilled false
              \/ (isTransientError e = Fulfilled true /\ attempt = maxRetries - 1))
      end ->
      let r := (mkRun s' (answers w ++ [res]) (sleeps w), out) in
      exists new ds,
        answers (fst r) = answers w ++ new
        /\ sleeps (fst r) = sleeps w ++ ds
        /\ (state (fst r), new) = calls (length new) (state w)
        /\ (length new <= Datatypes.S fuel)%nat
        /\ length ds = pred (length new)
        /\ retried new
        /\ (forall k d, ds !! k = Some d ->
              d = delay baseDelayMs (attempt + Z.of_nat k) (length (sleeps w) + k))
        /\ match snd r with
           | Fulfilled v => last new = Some (Fulfilled v)
           | Threw (Internal t) =>
               exists e, last new = Some (Threw e) /\ isTransientError e = Threw t
           | Threw (Original e) =>
               (new = [] /\ e = lastError /\ Datatypes.S fuel = O)
               \/ (last new = Some (Threw e)
                   /\ (isTransientError e = Fulfilled false
                       \/ (isTransientError e = Fulfilled true
                           /\ length new = Datatypes.S fuel)))
           end).
    { intros out Hout r. exists [res], []. subst r.
      cbn [fst snd answers sleeps state length calls pred].
      rewrite Hop, app_nil_r.
      split; [reflexivity|]. split; [reflexivity|]. split; [reflexivity|].
      split; [lia|]. split; [reflexivity|]. split; [apply retried_one|].
      split; [intros k d Hk; discriminate Hk|].
      destruct out as [v|[e|t]].
      - rewrite Hout. reflexivity.
      - destruct Hout as [-> Hwhy]. right. split; [reflexivity|].
        destruct Hwhy as [Hf|[Ht Hlast]]; [left; exact Hf|right].
        split; [exact Ht|]. cbn. lia.
      - destruct Hout as (e & -> & He). exists e. split; [reflexivity|exact He]. }
    destruct res as [v|e].
    { apply (Hstop (Fulfilled v)). reflexivity. }
    destruct (isTransientError e) as [[|]|t] eqn:He; cbn [negb orb].
    3:{ apply (Hstop (Threw (Internal t))). exists e. auto. }
    2:{ apply (Hstop (Threw (Original e))). auto. }
    destruct (Z.eqb_spec attempt (maxRetries - 1)) as [Hlast|Hmore].
    { apply (Hstop (Threw (Original e))). auto. }
    clear Hstop. cbn [state answers sleeps].
    set (w1 := mkRun s' (answers w ++ [Threw e])
                 (sleeps w ++ [delay baseDelayMs attempt (length (sleeps w))])).
    assert (Hf : attempt + 1 + Z.of_nat fuel = maxRetries \/ fuel = O)
      by (left; lia).
    destruct (IH (attempt + 1) e w1 Hf)
      as (new & ds & Ha & Hs & Hc & Hlen & Hds & Hret & Hd & Hout).
    assert (Hne : new <> []).
    { destruct (snd (loop maxRetries baseDelayMs fuel (attempt + 1) e w1))
        as [v|[e'|t]].
      - intros ->. discriminate Hout.
      - destruct Hout as [(_ & _ & ->)|(Hl & _)]; [lia|].
        intros ->. discriminate Hl.
      - destruct Hout as (e' & Hl & _). intros ->. discriminate Hl. }
    exists (Threw e :: new), (delay baseDelayMs attempt (length (sleeps w)) :: ds).
    rewrite Ha, Hs. subst w1. cbn [answers sleeps state] in *.
    rewrite <- !app_assoc. cbn [app length calls pred].
    rewrite Hop, <- Hc.
    split; [reflexivity|]. split; [reflexivity|]. split; [reflexivity|].
    split; [lia|].
    split; [destruct new; [congruence|cbn in *; lia]|].
    split; [apply retried_cons; assumption|].
    split.
    + intros [|k] d Hk; cbn in Hk.
      * injection Hk as <-. rewrite Z.add_0_r, Nat.add_0_r. reflexivity.
      * rewrite (Hd k d Hk). rewrite length_app. cbn [length].
        f_equal; [lia|lia].
    + destruct (snd (loop maxRetries baseDelayMs fuel (attempt + 1) e _))
        as [v|[e'|t]].
      * rewrite last_cons, Hout. reflexivity.
      * right. destruct Hout as [(-> & _)|(Hl & Hwhy)]; [congruence|].
        split; [rewrite last_cons, Hl; reflexivity|].
        destruct Hwhy as [Hnt|[Ht Hall]]; [left; exact Hnt|right].
        split; [exact Ht|lia].
      * destruct Hout as (e' & Hl & He'). exists e'.
        split; [rewrite last_cons, Hl; reflexivity|exact He'].
Qed.

Lemma numeric_message_throws v :
  message v = Thing ->
  isTransientError (Truthy v) = Threw (NotAFunction "toLowerCase").
Proof. intros Hm. unfold isTransientError. rewrite Hm. reflexivity. Qed.

(** X10. [withRetry] calls the operation at most [maxRetries] times, one
    call after the other on the state the previous call left.  Every call
    but the last threw a value for which [isTransientError] returned
    [true]; between two calls, and only there, it sleeps, the [k]-th time
    for [baseDelayMs * 2^k] ms plus a random part.  The last call either
    returned, and its value is the result; or threw a value on which
    [isTransientError] itself threw, and that TypeError is what
    [withRetry] rejects with; or threw a value that is rethrown, one for
    which [isTransientError] returned [false], or [true] at the
    [maxRetries]-th call.  With [maxRetries <= 0] the operation is never
    called and [null] is thrown.  In particular a thrown value whose
    [message] is truthy and not a string ends the run with the TypeError of
    [toLowerCase]. *)
Theorem withRetry_attempts (maxRetries baseDelayMs : Z) (s : S) :
  let r := withRetry maxRetries baseDelayMs s in
  let n := length (answers (fst r)) in
  (n <= Z.to_nat maxRetries)%nat
  /\ (state (fst r), answers (fst r)) = calls n s
  /\ retried (answers (fst r))
  /\ length (sleeps (fst r)) = pred n
  /\ (forall k d, sleeps (fst r) !! k = Some d ->
        d = delay baseDelayMs (Z.of_nat k) k)
  /\ match snd r with
     | Fulfilled v => last (answers (fst r)) = Some (Fulfilled v)
     | Threw (Internal t) =>
         exists e, last (answers (fst r)) = Some (Threw e)
                   /\ isTransientError e = Threw t
     | Threw (Original e) =>
         (last (answers (fst r)) = Some (Threw e)
          /\ (isTransientError e = Fulfilled false
              \/ (isTransientError e = Fulfilled true
                  /\ n = Z.to_nat maxRetries)))
         \/ (e = Nullish /\ n = O /\ maxRetries <= 0)
     end
  /\ (forall v, last (answers (fst r)) = Some (Threw (Truthy v)) ->
        message v = Thing ->
        snd r = Threw (Internal (NotAFunction "toLowerCase"))).
Proof.
  intros r n. subst n r. unfold withRetry.
  assert (Hfuel : 0 + Z.of_nat (Z.to_nat maxRetries) = maxRetries
                  \/ Z.to_nat maxRetries = O) by lia.
  destruct (loop_spec maxRetries baseDelayMs (Z.to_nat maxRetries) 0 Nullish
              (mkRun s [] []) Hfuel)
    as (new & ds & Ha & Hs & Hc & Hlen & Hds & Hret & Hd & Hout).
  cbn [answers sleeps state app] in *. rewrite Ha, Hs.
  split; [exact Hlen|]. split; [exact Hc|]. split; [exact Hret|].
  split; [exact Hds|]. split; [exact Hd|].
  destruct (snd (loop maxRetries baseDelayMs (Z.to_nat maxRetries) 0 Nullish _))
    as [v|[e|t]].
  - split; [exact Hout|]. intros v' Hl. rewrite Hout in Hl. discriminate Hl.
  - split.
    + destruct Hout as [(-> & -> & H0)|Hlast].
      * right. split; [reflexivity|]. split; [reflexivity|lia].
      * left. exact Hlast.
    + intros v Hl Hm. exfalso. pose proof (numeric_message_throws v Hm) as Hthrow.
      destruct Hout as [(-> & _)|(Hl' & Hwhy)]; [discriminate Hl|].
      rewrite Hl' in Hl. injection Hl as ->.
      destruct Hwhy as [Hf|[Ht _]]; congruence.
  - split; [exact Hout|]. intros v Hl Hm.
    destruct Hout as (e & Hl' & He). rewrite Hl' in Hl. injection Hl as ->.
    rewrite (numeric_message_throws v Hm) in He. congruence.
Qed.

(** X11. [safeQuery] calls the operation at most three times and sleeps
    at most twice.  It resolves with the value of the last call and no
    error; or, when the last call threw, with the fallback as data and as
    error the value thrown, or the TypeError that [isTransientError] threw
    on that value.  It rejects only when its own [catch] block throws on
    reading [error.message?.slice]: the value thrown is [null] or
    [undefined], or its [message] is falsy without being nullish or a
    string.  In particular a thrown value whose [message] is truthy and not
    a string makes it resolve with the fallback and the TypeError of
    [toLowerCase]. *)
Theorem safeQuery_settles (fallback : option T) (s : S) :
  let r := safeQuery fallback s in
  (1 <= length (answers (fst r)) <= 3)%nat
  /\ (length (sleeps (fst r)) <= 2)%nat
  /\ (state (fst r), answers (fst r)) = calls (length (answers (fst r))) s
  /\ match snd r with
     | Fulfilled (data, None) =>
         exists v, data = Some v /\ last (answers (fst r)) = Some (Fulfilled v)
     | Fulfilled (data, Some (Original e)) =>
         data = fallback
         /\ last (answers (fst r)) = Some (Threw e)
         /\ (exists b, isTransientError e = Fulfilled b)
         /\ message_slice (Original e) = Fulfilled tt
     | Fulfilled (data, Some (Internal t)) =>
         data = fallback
         /\ exists e, last (answers (fst r)) = Some (Threw e)
                      /\ isTransientError e = Threw t
     | Threw t =>
         exists e, last (answers (fst r)) = Some (Threw e)
                   /\ (exists b, isTransientError e = Fulfilled b)
                   /\ message_slice (Original e) = Threw t
     end
  /\ (forall v, last (answers (fst r)) = Some (Threw (Truthy v)) ->
        message v = Thing ->
        snd r = Fulfilled (fallback, Some (Internal (NotAFunction "toLowerCase")))).
Proof.
  intros r. subst r. unfold safeQuery, withRetry.
  assert (Hfuel : 0 + Z.of_nat (Z.to_nat 3) = 3 \/ Z.to_nat 3 = O) by lia.
  destruct (loop_spec 3 200 (Z.to_nat 3) 0 Nullish (mkRun s [] []) Hfuel)
    as (new & ds & Ha & Hs & Hc & Hlen & Hds & _ & _ & Hout).
  destruct (loop 3 200 (Z.to_nat 3) 0 Nullish (mkRun s [] [])) as [w out].
  cbn [fst snd answers sleeps state app] in *.
  change (Z.to_nat 3) with 3%nat in *.
  assert (Hne : (1 <= length new)%nat).
  { destruct out as [v|[e|t]].
    - destruct new; [discriminate Hout|cbn; lia].
    - destruct Hout as [(_ & _ & H0)|(Hl & _)]; [discriminate H0|].
      destruct new; [discriminate Hl|cbn; lia].
    - destruct Hout as (e & Hl & _). destruct new; [discriminate Hl|cbn; lia]. }
  assert (Hfacts : (1 <= length (answers w) <= 3)%nat
                   /\ (length (sleeps w) <= 2)%nat
                   /\ (state w, answers w) = calls (length (answers w)) s).
  { rewrite Ha, Hs. split; [lia|]. split; [lia|exact Hc]. }
  destruct Hfacts as (H1 & H2 & H3). rewrite <- Ha in Hout. clear Ha Hs Hc.
  destruct out as [v|[e|t]].
  - cbn [fst snd]. split; [exact H1|]. split; [exact H2|]. split; [exact H3|].
    split; [exists v; auto|].
    intros v' Hl. rewrite Hout in Hl. discriminate Hl.
  - destruct Hout as [(_ & _ & H0)|(Hl & Hwhy)]; [discriminate H0|].
    assert (Hb : exists b, isTransientError e = Fulfilled b).
    { destruct Hwhy as [Hf|[Ht _]]; eauto. }
    destruct (message_slice (Original e)) as [[]|t] eqn:Hread; cbn [fst snd];
      (split; [exact H1|]); (split; [exact H2|]); (split; [exact H3|]).
    + split; [auto|]. intros v Hl' Hm. exfalso.
      rewrite Hl in Hl'. injection Hl' as ->.
      rewrite (numeric_message_throws v Hm) in Hb. destruct Hb as [b Hb]. discriminate Hb.
    + split; [exists e; auto|]. intros v Hl' Hm. exfalso.
      rewrite Hl in Hl'. injection Hl' as ->.
      rewrite (numeric_message_throws v Hm) in Hb. destruct Hb as [b Hb]. discriminate Hb.
  - cbn [message_slice fst snd].
    split; [exact H1|]. split; [exact H2|]. split; [exact H3|].
    split; [split; [reflexivity|exact Hout]|].
    intros v Hl Hm. destruct Hout as (e & Hl' & He).
    rewrite Hl' in Hl. injection Hl as ->.
    rewrite (numeric_message_throws v Hm) in He. injection He as <-. reflexivity.
Qed.

End WithRetry.

(** *** Examples *)

(** [toLowerCase] on the ASCII letters. *)
Definition lower_ascii (s : JsString) : JsString :=
  (fun c => if (65 <=? c)%N && (c <=? 90)%N then (c + 32)%N else c) <$> s.

(** An [Error] with a message and a Prisma code. *)
Definition an_error (msg code : string) : Thrown :=
  Truthy (mkError (Text (units msg)) (Text (units code))
            (Text (units "Error")) (Text (units "Error"))).

(** [{ message: 42 }]. *)
Definition numeric_message : Thrown :=
  Truthy (mkError Thing Absent Absent (Text (units "Object"))).

Example unreachable_is_transient :
  isTransientError lower_ascii (an_error "Can't reach database server at db:5432" "P1001")
  = Fulfilled true.
Proof. vm_compute. reflexivity. Qed.

(** A non-transient pattern wins over a transient one and over a
    transient code. *)
Example bad_password_is_not_transient :
  isTransientError lower_ascii
    (an_error "Connection refused: password authentication failed for user app" "P1001")
  = Fulfilled false
  /\ isTransientError lower_ascii (an_error "Role Admin does not exist" "P1001")
     = Fulfilled false.
Proof. split; vm_compute; reflexivity. Qed.

(** [.] does not match a line feed: the wildcard pattern misses a message
    broken between its two parts, and the code decides. *)
Example wildcard_stops_at_line_end :
  isTransientError lower_ascii
    (Truthy (mkError (Text (units "role admin" ++ [10%N] ++ units " does not exist"))
               (Text (units "P1001")) (Text (units "Error")) Absent))
  = Fulfilled true.
Proof. vm_compute. reflexivity. Qed.

Example numeric_message_is_a_type_error :
  isTransientError lower_ascii numeric_message = Threw (NotAFunction "toLowerCase").
Proof. reflexivity. Qed.

(** A [name] that is not a string is only called upon when no
    non-transient pattern has returned first. *)
Example numeric_name :
  isTransientError lower_ascii
    (Truthy (mkError (Text (units "Access denied")) Absent Thing Absent))
  = Fulfilled false
  /\ isTransientError lower_ascii
       (Truthy (mkError (Text (units "timeout")) Absent Thing Absent))
     = Threw (NotAFunction "includes").
Proof. split; vm_compute; reflexivity. Qed.

(** A database that is unreachable twice and then answers. *)
Definition flaky (n : nat) : nat * Settled string Thrown :=
  (Datatypes.S n,
   if (n <? 2)%nat then Threw (an_error "Connection refused" "P1001")
   else Fulfilled "row").

Example third_attempt_succeeds :
  let r := withRetry lower_ascii (fun _ => 0%Q) flaky 3 200 0%nat in
  snd r = Fulfilled "row"
  /\ state (fst r) = 3%nat
  /\ sleeps (fst r) = [delay (fun _ => 0%Q) 200 0 0; delay (fun _ => 0%Q) 200 1 1].
Proof. vm_compute. repeat split. Qed.

(** An operation that throws [{ message: 42 }], and one that throws [null]. *)
Definition throws (e : Thrown) (n : nat) : nat * Settled string Thrown :=
  (Datatypes.S n, Threw e).

Example safeQuery_on_numeric_message :
  let r := safeQuery lower_ascii (fun _ => 0%Q) (throws numeric_message)
             (Some "none") 0%nat in
  snd r = Fulfilled (Some "none", Some (Internal (NotAFunction "toLowerCase")))
  /\ state (fst r) = 1%nat
  /\ sleeps (fst r) = [].
Proof. vm_compute. repeat split. Qed.

Example safeQuery_on_null :
  let r := safeQuery lower_ascii (fun _ => 0%Q) (throws Nullish) (Some "none") 0%nat in
  snd r = Threw (CannotReadProperty "message")
  /\ state (fst r) = 1%nat.
Proof. vm_compute. repeat split. Qed.

End Retry.

(* ===================================================================== *)
(** ** Request helpers of the API routes: [checkRateLimit] with its
       in-memory store, [parsePaginationParams], [escapeILikePattern],
       [htmlEncode] and [isIpInRange]. *)
(* ===================================================================== *)
Module ApiUtils.

(** *** Rate limiting *)

Record RateLimitEntry := mkLimit {
  count : Z;
  resetTime : Z;
}.

(** The [Map] inside [InMemoryRateLimitStore]. *)
Abbreviation RateLimitStore := (gmap string RateLimitEntry).

Definition MAX_ENTRIES : Z := 50000.

(** [cleanup()]: drop the entries whose [resetTime] lies before [now]. *)
Definition cleanup (now : Z) (m : RateLimitStore) : RateLimitStore :=
  filter (fun kv => now <= resetTime kv.2) m.

(** [set(key, entry)]; [later] is the clock as [cleanup] reads it. *)
Definition store_set (later : Z) (key : string) (entry : RateLimitEntry)
    (m : RateLimitStore) : RateLimitStore :=
  let m :=
    if MAX_ENTRIES <=? Z.of_nat (size m) then
      let m := cleanup later m in
      if MAX_ENTRIES <=? Z.of_nat (size m) then ∅ else m
    else m in
  <[key := entry]> m.

(** The clock of one call, and what Redis said: [Some count] when it was
    ready and its [INCR] answered, [None] when the call falls back to the
    in-memory store. *)
Record Tick := mkTick {
  now : Z;
  later : Z;
  redis : option Z;
}.

(** [checkRateLimit(key, maxRequests, windowMs)]: the store afterwards and
    whether the request is allowed. *)
Definition checkRateLimit (tick : Tick) (key : string)
    (maxRequests windowMs : Z) (m : RateLimitStore) : RateLimitStore * bool :=
  match redis tick with
  | Some count => (m, count <=? maxRequests)
  | None =>
      let fresh := mkLimit 1 (now tick + windowMs) in
      match m !! key with
      | None => (store_set (later tick) key fresh m, true)
      | Some record =>
          if resetTime record <? now tick
          then (store_set (later tick) key fresh m, true)
          else if maxRequests <=? count record then (m, false)
          else (<[key := mkLimit (count record + 1) (resetTime record)]> m, true)
      end
  end.






(** X17. A full store forgets everyone.  When the map already holds
    [MAX_ENTRIES] records that are all still running and a call arrives for
    a key it has no record of, the call is allowed and the map is cleared:
    afterwards it holds the new record alone, so every other key starts a
    fresh window with its count forgotten. *)
Theorem full_store_is_cleared (tick : Tick) (key : string)
    (maxRequests windowMs : Z) (m : RateLimitStore) :
  redis tick = None ->
  m !! key = None ->
  MAX_ENTRIES <= Z.of_nat (size m) ->
  (forall k record, m !! k = Some record -> later tick <= resetTime record) ->
  checkRateLimit tick key maxRequests windowMs m
  = ({[ key := mkLimit 1 (now tick + windowMs) ]}, true).
Proof.
  intros Hredis Hkey Hfull Hlive. unfold checkRateLimit. rewrite Hredis, Hkey.
  unfold store_set.
  assert (Hsame : cleanup (later tick) m = m).
  { unfold cleanup. apply map_filter_id. intros k record Hk. cbn.
    apply (Hlive k record Hk). }
  rewrite Hsame.
  destruct (Z.leb_spec MAX_ENTRIES (Z.of_nat (size m))) as [_|Hlt]; [|lia].
  rewrite insert_empty. reflexivity.
Qed.

(** A store at its ceiling: [MAX_ENTRIES] running records of other keys. *)
Definition busy_key (i : nat) : string := String "k"%char (pretty i).

Definition crowd : RateLimitStore :=
  list_to_map ((fun i : nat => (busy_key i, mkLimit 1 100))
                 <$> seq 0 (Z.to_nat MAX_ENTRIES)).

Lemma crowd_facts :
  crowd !! "library-add:u1" = None
  /\ MAX_ENTRIES <= Z.of_nat (size crowd)
  /\ (forall k record, crowd !! k = Some record -> 50 <= resetTime record).
Proof.
  unfold crowd. split; [|split].
  - apply not_elem_of_list_to_map. rewrite <- list_fmap_compose.
    intros (i & H & _)%list_elem_of_fmap. discriminate H.
  - rewrite map_size_list_to_map.
    + rewrite length_fmap, length_seq. unfold MAX_ENTRIES. lia.
    + rewrite <- list_fmap_compose. apply NoDup_fmap_2; [|apply NoDup_seq].
      intros i j [= H]. apply (inj pretty), H.
  - intros k record H%elem_of_list_to_map_2.
    apply list_elem_of_fmap in H as (i & [= _ ->] & _). cbn. lia.
Qed.

Lemma full_store_is_cleared_witness :
  checkRateLimit (mkTick 50 50 None) "library-add:u1" 30 60000 crowd
  = ({[ "library-add:u1" := mkLimit 1 60050 ]}, true).
Proof.
  destruct crowd_facts as (Hkey & Hfull & Hlive).
  exact (full_store_is_cleared (mkTick 50 50 None) "library-add:u1" 30 60000 crowd
           eq_refl Hkey Hfull Hlive).
Defined.

(** *** Pagination *)

Section Pagination.

(** [parseInt(s, 10)]: an integer, or [None] for [NaN]. *)
Variable parseInt : string -> option Z.

(** [Math.min] and [Math.max] of two numbers: [NaN] as soon as one is. *)
Definition Math_min (a b : option Z) : option Z :=
  match a, b with
  | Some a, Some b => Some (Z.min a b)
  | _, _ => None
  end.

Definition Math_max (a b : option Z) : option Z :=
  match a, b with
  | Some a, Some b => Some (Z.max a b)
  | _, _ => None
  end.

(** [value || fallback] on a string that may be [null]. *)
Definition or_else (value : option string) (fallback : string) : string :=
  match value with
  | Some s => if String.eqb s "" then fallback else s
  | None => fallback
  end.

(** What [searchParams.get] gives for the four keys. *)
Record SearchParams := mkParams {
  get_limit : option string;
  get_offset : option string;
  get_page : option string;
  get_cursor : option string;
}.

Record Pagination := mkPagination {
  page : option Z;
  limit : option Z;
  offset : option Z;
  cursor : option string;
}.

Definition MAX_OFFSET : Z := 1000000.

(** [parsePaginationParams(searchParams)].  [Math.floor(offset / limit)]
    is the quotient rounded down; a zero divisor gives no integer. *)
Definition parsePaginationParams (searchParams : SearchParams) : Pagination :=
  let limit :=
    Math_min (Some 100) (Math_max (Some 1)
      (parseInt (or_else (get_limit searchParams) "20"))) in
  match get_offset searchParams with
  | Some providedOffset =>
      let offset :=
        Math_min (Some MAX_OFFSET) (Math_max (Some 0) (parseInt providedOffset)) in
      let page :=
        match offset, limit with
        | Some o, Some l => if l =? 0 then None else Some (o / l + 1)
        | _, _ => None
        end in
      mkPagination page limit offset (get_cursor searchParams)
  | None =>
      let page :=
        Math_max (Some 1) (parseInt (or_else (get_page searchParams) "1")) in
      let offset :=
        Math_min (Some MAX_OFFSET)
          match page, limit with
          | Some p, Some l => Some ((p - 1) * l)
          | _, _ => None
          end in
      mkPagination page limit offset (get_cursor searchParams)
  end.

(** X18. Whatever numbers a query asks for, the page size handed on lies
    between 1 and 100, the offset between 0 and 1000000 and the page is at
    least 1, provided every parameter that is read is numeric.  With an
    [offset] parameter the page is the one that offset falls on; without,
    the offset is the start of the page, capped. *)
Theorem pagination_is_clamped (searchParams : SearchParams) :
  is_Some (parseInt (or_else (get_limit searchParams) "20")) ->
  (forall s, get_offset searchParams = Some s -> is_Some (parseInt s)) ->
  (get_offset searchParams = None ->
   is_Some (parseInt (or_else (get_page searchParams) "1"))) ->
  exists p l o,
    parsePaginationParams searchParams
    = mkPagination (Some p) (Some l) (Some o) (get_cursor searchParams)
    /\ 1 <= l <= 100 /\ 0 <= o <= MAX_OFFSET /\ 1 <= p
    /\ match get_offset searchParams with
       | Some _ => p = o / l + 1
       | None => o = Z.min MAX_OFFSET ((p - 1) * l)
       end.
Proof.
  intros [l0 Hl] Hoff Hpage. unfold parsePaginationParams. rewrite Hl.
  cbn [Math_max Math_min].
  destruct (get_offset searchParams) as [providedOffset|].
  - destruct (Hoff providedOffset eq_refl) as [o0 Ho]. rewrite Ho.
    cbn [Math_max Math_min].
    destruct (Z.eqb_spec (Z.min 100 (Z.max 1 l0)) 0) as [H0|_]; [lia|].
    eexists _, _, _. split; [reflexivity|].
    unfold MAX_OFFSET.
    assert (0 <= Z.min 1000000 (Z.max 0 o0) / Z.min 100 (Z.max 1 l0))
      by (apply Z.div_pos; lia).
    split; [lia|]. split; [lia|]. split; [lia|reflexivity].
  - destruct (Hpage eq_refl) as [p0 Hp]. rewrite Hp.
    cbn [Math_max Math_min].
    eexists _, _, _. split; [reflexivity|].
    unfold MAX_OFFSET.
    split; [lia|]. split; [|split; [lia|reflexivity]].
    split; [|lia].
    apply Z.min_glb; [lia|]. apply Z.mul_nonneg_nonneg; lia.
Qed.

End Pagination.

(** A reader of plain decimal numerals, on which [parseInt] and [Number]
    agree. *)
Fixpoint digits (s : string) (acc : Z) : option Z :=
  match s with
  | EmptyString => Some acc
  | String c s' =>
      let n := Z.of_nat (nat_of_ascii c) - 48 in
      if (0 <=? n) && (n <=? 9) then digits s' (10 * acc + n) else None
  end.

Definition read_decimal (s : string) : option Z :=
  match s with
  | EmptyString => None
  | String _ _ => digits s 0
  end.

Lemma pagination_is_clamped_witness :
  exists p l o,
    parsePaginationParams read_decimal (mkParams (Some "500") None (Some "0") None)
    = mkPagination (Some p) (Some l) (Some o) None
    /\ 1 <= l <= 100 /\ 0 <= o <= MAX_OFFSET /\ 1 <= p.
Proof.
  destruct (pagination_is_clamped read_decimal
              (mkParams (Some "500") None (Some "0") None))
    as (p & l & o & E & Hl & Ho & Hp & _).
  - eexists. reflexivity.
  - intros s H. discriminate H.
  - intros _. eexists. reflexivity.
  - exists p, l, o. auto.
Defined.

(** *** Escaping for ILIKE and for HTML.  Strings are read as their UTF-8
        bytes; every character the two functions look for is ASCII. *)

Definition backslash : ascii := Eval cbv in ascii_of_nat 92.
Definition double_quote : ascii := Eval cbv in ascii_of_nat 34.

(** [s.replace(/c/g, rep)] for a pattern of one character. *)
Fixpoint replace_all (c : ascii) (rep : string) (s : string) : string :=
  match s with
  | EmptyString => EmptyString
  | String x s' =>
      if Ascii.eqb x c then rep +:+ replace_all c rep s'
      else String x (replace_all c rep s')
  end.

(** A backslash followed by [c]. *)
Definition escaped (c : ascii) : string := String backslash (String c "").

Definition escapeILikePattern (input : string) : string :=
  replace_all "_" (escaped "_")
    (replace_all "%" (escaped "%")
       (replace_all backslash (escaped backslash) input)).

(** How PostgreSQL reads a LIKE pattern with the default escape character:
    a backslash makes the next character literal, and may not come last. *)
Inductive LikeToken :=
| Literal (c : ascii)
| AnyString
| AnyChar.

Fixpoint like_tokens (pattern : string) : option (list LikeToken) :=
  match pattern with
  | EmptyString => Some []
  | String c rest =>
      if Ascii.eqb c backslash then
        match rest with
        | EmptyString => None
        | String d rest' => cons (Literal d) <$> like_tokens rest'
        end
      else if Ascii.eqb c "%" then cons AnyString <$> like_tokens rest
      else if Ascii.eqb c "_" then cons AnyChar <$> like_tokens rest
      else cons (Literal c) <$> like_tokens rest
  end.

(** Escaping in one pass: a backslash before each special character. *)
Fixpoint escape_each (s : string) : string :=
  match s with
  | EmptyString => EmptyString
  | String x s' =>
      if Ascii.eqb x backslash || Ascii.eqb x "%" || Ascii.eqb x "_"
      then String backslash (String x (escape_each s'))
      else String x (escape_each s')
  end.

Lemma escapeILikePattern_cons x s :
  escapeILikePattern (String x s)
  = if Ascii.eqb x backslash || Ascii.eqb x "%" || Ascii.eqb x "_"
    then String backslash (String x (escapeILikePattern s))
    else String x (escapeILikePattern s).
Proof.
  unfold escapeILikePattern. cbn [replace_all].
  destruct (Ascii.eqb_spec x backslash) as [->|H1]; [reflexivity|].
  cbn [replace_all orb].
  destruct (Ascii.eqb_spec x "%") as [->|H2]; [reflexivity|].
  cbn [replace_all orb].
  destruct (Ascii.eqb_spec x "_") as [->|H3]; reflexivity.
Qed.

(** X19. The three replacements of [escapeILikePattern], in the order
    they are made, put exactly one backslash before every backslash,
    percent sign and underscore of the input and change nothing else.  Read
    as a LIKE pattern the result has no wildcard left: it is the input,
    character for character. *)
Theorem escaped_pattern_is_literal (input : string) :
  escapeILikePattern input = escape_each input
  /\ like_tokens (escapeILikePattern input)
     = Some (Literal <$> String.list_ascii_of_string input).
Proof.
  induction input as [|x s [IH1 IH2]]; [split; reflexivity|].
  rewrite escapeILikePattern_cons. cbn [escape_each String.list_ascii_of_string fmap list_fmap].
  rewrite <- IH1.
  destruct (Ascii.eqb_spec x backslash) as [->|H1].
  { split; [reflexivity|]. cbn [orb like_tokens].
    change (Ascii.eqb backslash backslash) with true. cbn iota.
    rewrite IH2. reflexivity. }
  destruct (Ascii.eqb_spec x "%") as [->|H2].
  { split; [reflexivity|]. cbn [orb like_tokens].
    change (Ascii.eqb backslash backslash) with true. cbn iota.
    rewrite IH2. reflexivity. }
  destruct (Ascii.eqb_spec x "_") as [->|H3].
  { split; [reflexivity|]. cbn [orb like_tokens].
    change (Ascii.eqb backslash backslash) with true. cbn iota.
    rewrite IH2. reflexivity. }
  split; [reflexivity|]. cbn [orb like_tokens].
  rewrite (proj2 (Ascii.eqb_neq _ _) H1), (proj2 (Ascii.eqb_neq _ _) H2),
    (proj2 (Ascii.eqb_neq _ _) H3), IH2.
  reflexivity.
Qed.

Example escape_percent_and_backslash :
  escapeILikePattern ("100%_" +:+ String backslash "x")
  = "100" +:+ escaped "%" +:+ escaped "_" +:+ escaped backslash +:+ "x".
Proof. vm_compute. reflexivity. Qed.

(** The table [entities] of [htmlEncode]. *)
Definition entity (c : ascii) : option string :=
  if Ascii.eqb c "&" then Some "&amp;"
  else if Ascii.eqb c "<" then Some "&lt;"
  else if Ascii.eqb c ">" then Some "&gt;"
  else if Ascii.eqb c double_quote then Some "&quot;"
  else if Ascii.eqb c "'" then Some "&#x27;"
  else if Ascii.eqb c "/" then Some "&#x2F;"
  else None.

(** [input.replace(/[&<>...]/g, (char) => entities[char] || char)]. *)
Fixpoint htmlEncode (input : string) : string :=
  match input with
  | EmptyString => EmptyString
  | String c rest =>
      match entity c with
      | Some e => e +:+ htmlEncode rest
      | None => String c (htmlEncode rest)
      end
  end.

(** The characters that open or close markup, an attribute or a tag. *)
Definition markup : list ascii := ["<"; ">"; double_quote; "'"; "/"]%char.

Lemma entity_None c : entity c = None -> c ∉ markup.
Proof.
  unfold entity, markup.
  destruct (Ascii.eqb c "&"); [discriminate|].
  destruct (Ascii.eqb_spec c "<"); [discriminate|].
  destruct (Ascii.eqb_spec c ">"); [discriminate|].
  destruct (Ascii.eqb_spec c double_quote); [discriminate|].
  destruct (Ascii.eqb_spec c "'"); [discriminate|].
  destruct (Ascii.eqb_spec c "/"); [discriminate|].
  intros _. rewrite !elem_of_cons, elem_of_nil. tauto.
Qed.

Lemma entity_Some c e :
  entity c = Some e -> Forall (fun x => x ∉ markup) (String.list_ascii_of_string e).
Proof.
  unfold entity.
  repeat match goal with
         | |- context [Ascii.eqb c ?x] => destruct (Ascii.eqb c x)
         end;
    intros [= <-];
    repeat constructor;
    unfold markup; rewrite !elem_of_cons, elem_of_nil;
    intros H; repeat destruct H as [H|H]; try discriminate H; exact H.
Qed.

Lemma list_ascii_of_string_app a b :
  String.list_ascii_of_string (a +:+ b) = String.list_ascii_of_string a ++ String.list_ascii_of_string b.
Proof. induction a as [|c a IH]; [reflexivity|]. cbn. rewrite <- IH. reflexivity. Qed.

(** X20. The output of [htmlEncode] holds no character that could open a
    tag, close one or end an attribute value: no angle bracket, no quote of
    either kind and no slash.  An input without any of the six characters
    of the table comes back unchanged. *)
Theorem htmlEncode_leaves_no_markup (input : string) :
  Forall (fun c => c ∉ markup) (String.list_ascii_of_string (htmlEncode input))
  /\ (Forall (fun c => entity c = None) (String.list_ascii_of_string input) ->
      htmlEncode input = input).
Proof.
  induction input as [|c s [IH1 IH2]]; [split; [constructor|reflexivity]|].
  cbn [htmlEncode]. split.
  - destruct (entity c) as [e|] eqn:E.
    + rewrite list_ascii_of_string_app. apply Forall_app.
      split; [eapply entity_Some, E|exact IH1].
    + cbn. constructor; [apply entity_None, E|exact IH1].
  - cbn [String.list_ascii_of_string]. intros [Hc Hs]%Forall_cons.
    rewrite Hc, (IH2 Hs). reflexivity.
Qed.

(** *** Address ranges *)

(** [ToInt32]: the value modulo 2^32, read as a signed 32-bit integer. *)
Definition toInt32 (x : Z) : Z :=
  let m := x mod 2 ^ 32 in
  if m <? 2 ^ 31 then m else m - 2 ^ 32.

(** The operators [<<], [|], [&] and [~] on numbers. *)
Definition shl (a n : Z) : Z := toInt32 (Z.shiftl (toInt32 a) (n mod 32)).
Definition bor (a b : Z) : Z := toInt32 (Z.lor (toInt32 a) (toInt32 b)).
Definition band (a b : Z) : Z := toInt32 (Z.land (toInt32 a) (toInt32 b)).
Definition bnot (a : Z) : Z := toInt32 (Z.lnot (toInt32 a)).

(** [s.split(sep)] for a separator of one character. *)
Fixpoint split_on (sep : ascii) (s : string) : list string :=
  match s with
  | EmptyString => [EmptyString]
  | String c s' =>
      if Ascii.eqb c sep then EmptyString :: split_on sep s'
      else match split_on sep s' with
           | first :: others => String c first :: others
           | [] => [String c EmptyString]
           end
  end.

Section IpRange.

(** [parseInt(s, 10)]: an integer, or [None] for [NaN]. *)
Variable parseInt : string -> option Z.

(** [Number(s)] as [isNaN] and the bit operators see it: [None] for [NaN],
    otherwise the integer the operators convert the number to. *)
Variable Number : string -> option Z.

Definition isNaN (v : option Z) : bool :=
  match v with None => true | Some _ => false end.

(** [parts[i]] as an operand of a bit operator; [undefined] counts 0. *)
Definition operand (parts : list (option Z)) (i : nat) : Z :=
  match parts !! i with
  | Some (Some v) => v
  | _ => 0
  end.

(** [(parts[0] << 24) | (parts[1] << 16) | (parts[2] << 8) | parts[3]]. *)
Definition to_int (parts : list (option Z)) : Z :=
  bor (bor (bor (shl (operand parts 0) 24) (shl (operand parts 1) 16))
           (shl (operand parts 2) 8))
      (operand parts 3).

Definition isIpInRange (ip cidr : string) : bool :=
  let pieces := split_on "/" cidr in
  let range := match pieces !! 0%nat with Some r => r | None => "" end in
  let bits := match pieces !! 1%nat with Some bitsStr => parseInt bitsStr | None => None end in
  match bits with
  | None => String.eqb ip range
  | Some bits =>
      let ipParts := Number <$> split_on "." ip in
      let rangeParts := Number <$> split_on "." range in
      if existsb isNaN ipParts || existsb isNaN rangeParts then false
      else
        let ipInt := to_int ipParts in
        let rangeInt := to_int rangeParts in
        let mask := bnot (shl 1 (32 - bits) - 1) in
        band ipInt mask =? band rangeInt mask
  end.

End IpRange.

Lemma toInt32_mod x : toInt32 x mod 2 ^ 32 = x mod 2 ^ 32.
Proof.
  unfold toInt32. destruct (x mod 2 ^ 32 <? 2 ^ 31).
  - apply Z.mod_mod. lia.
  - rewrite <- (Z.mod_mod x (2 ^ 32)) at 2 by lia.
    replace (x mod 2 ^ 32 - 2 ^ 32) with (x mod 2 ^ 32 + (-1) * 2 ^ 32) by lia.
    apply Z.mod_add. lia.
Qed.

Lemma low_bits_mod x y :
  x mod 2 ^ 32 = y mod 2 ^ 32 <->
  forall n, 0 <= n < 32 -> Z.testbit x n = Z.testbit y n.
Proof.
  split.
  - intros H n Hn.
    rewrite <- (Z.mod_pow2_bits_low x 32 n), <- (Z.mod_pow2_bits_low y 32 n) by lia.
    rewrite H. reflexivity.
  - intros H. apply Z.bits_inj'. intros n Hn.
    destruct (Z.lt_ge_cases n 32).
    + rewrite !Z.mod_pow2_bits_low by lia. apply H. lia.
    + rewrite !Z.mod_pow2_bits_high by lia. reflexivity.
Qed.

Lemma testbit_toInt32 x n : 0 <= n < 32 -> Z.testbit (toInt32 x) n = Z.testbit x n.
Proof. intros Hn. apply (proj1 (low_bits_mod _ _) (toInt32_mod x)), Hn. Qed.

Lemma toInt32_inj_iff x y :
  toInt32 x = toInt32 y <->
  forall n, 0 <= n < 32 -> Z.testbit x n = Z.testbit y n.
Proof.
  rewrite <- low_bits_mod. split.
  - intros H. rewrite <- (toInt32_mod x), <- (toInt32_mod y), H. reflexivity.
  - intros H. unfold toInt32. rewrite H. reflexivity.
Qed.

Lemma testbit_shl a s n :
  0 <= s < 32 -> 0 <= n < 32 ->
  Z.testbit (shl a s) n = if n <? s then false else Z.testbit a (n - s).
Proof.
  intros Hs Hn. unfold shl. rewrite testbit_toInt32 by lia.
  rewrite Z.mod_small by lia. rewrite Z.shiftl_spec by lia.
  destruct (Z.ltb_spec n s).
  - apply Z.testbit_neg_r. lia.
  - apply testbit_toInt32. lia.
Qed.

Lemma testbit_bor a b n :
  0 <= n < 32 -> Z.testbit (bor a b) n = Z.testbit a n || Z.testbit b n.
Proof.
  intros Hn. unfold bor. rewrite testbit_toInt32, Z.lor_spec by lia.
  rewrite !testbit_toInt32 by lia. reflexivity.
Qed.

Lemma octet_bit p m : 0 <= p < 256 -> m < 0 \/ 8 <= m -> Z.testbit p m = false.
Proof.
  intros Hp [Hm|Hm]; [apply Z.testbit_neg_r, Hm|].
  rewrite <- (Z.mod_small p (2 ^ 8)) by lia.
  apply Z.mod_pow2_bits_high. lia.
Qed.

Lemma testbit_join a b k n :
  0 <= b < 2 ^ k -> 0 <= k -> 0 <= n ->
  Z.testbit (a * 2 ^ k + b) n = if n <? k then Z.testbit b n else Z.testbit a (n - k).
Proof.
  intros Hb Hk Hn. destruct (Z.ltb_spec n k).
  - rewrite <- (Z.mod_pow2_bits_low (a * 2 ^ k + b) k n) by lia.
    rewrite Z.add_comm, Z.mod_add, Z.mod_small by lia. reflexivity.
  - replace n with ((n - k) + k) at 1 by lia.
    rewrite <- Z.div_pow2_bits by lia.
    rewrite Z.add_comm, Z.div_add, Z.div_small by lia. reflexivity.
Qed.

(** The address of a dotted quad as a number. *)
Definition address (a b c d : Z) : Z := a * 2 ^ 24 + b * 2 ^ 16 + c * 2 ^ 8 + d.

Lemma testbit_to_int a b c d n :
  0 <= a < 256 -> 0 <= b < 256 -> 0 <= c < 256 -> 0 <= d < 256 ->
  0 <= n < 32 ->
  Z.testbit (to_int [Some a; Some b; Some c; Some d]) n
  = Z.testbit (address a b c d) n.
Proof.
  intros Ha Hb Hc Hd Hn. unfold to_int, operand. cbn [lookup list_lookup].
  rewrite !testbit_bor, !testbit_shl by lia.
  unfold address.
  replace (a * 2 ^ 24 + b * 2 ^ 16 + c * 2 ^ 8 + d)
    with (((a * 2 ^ 8 + b) * 2 ^ 8 + c) * 2 ^ 8 + d) by lia.
  rewrite testbit_join by lia.
  destruct (Z.ltb_spec n 8).
  { destruct (Z.ltb_spec n 24); [|lia]. destruct (Z.ltb_spec n 16); [|lia].
    reflexivity. }
  rewrite testbit_join by lia.
  destruct (Z.ltb_spec (n - 8) 8).
  { destruct (Z.ltb_spec n 24); [|lia]. destruct (Z.ltb_spec n 16); [|lia].
    cbn [orb]. rewrite (octet_bit d n) by lia. apply orb_false_r. }
  rewrite testbit_join by lia.
  destruct (Z.ltb_spec (n - 8 - 8) 8).
  { destruct (Z.ltb_spec n 24); [|lia]. destruct (Z.ltb_spec n 16); [lia|].
    cbn [orb]. rewrite (octet_bit d n), (octet_bit c (n - 8)) by lia.
    rewrite !orb_false_r. f_equal. lia. }
  destruct (Z.ltb_spec n 24); [lia|]. destruct (Z.ltb_spec n 16); [lia|].
  rewrite (octet_bit d n), (octet_bit c (n - 8)), (octet_bit b (n - 16)) by lia.
  rewrite !orb_false_r. f_equal. lia.
Qed.

Lemma testbit_mask bits n :
  0 <= bits <= 32 -> 0 <= n < 32 ->
  Z.testbit (bnot (shl 1 (32 - bits) - 1)) n = ((32 - bits) mod 32 <=? n).
Proof.
  intros Hb Hn. set (k := (32 - bits) mod 32).
  assert (Hk : 0 <= k < 32) by (apply Z.mod_pos_bound; lia).
  unfold bnot. rewrite testbit_toInt32, Z.lnot_spec, testbit_toInt32 by lia.
  assert (E : (shl 1 (32 - bits) - 1) mod 2 ^ 32 = Z.ones k mod 2 ^ 32).
  { unfold shl. fold k. rewrite Zminus_mod, toInt32_mod, <- Zminus_mod.
    change (toInt32 1) with 1. rewrite Z.shiftl_1_l, Z.ones_equiv.
    f_equal; lia. }
  rewrite (proj1 (low_bits_mod _ _) E n Hn).
  destruct (Z.leb_spec k n).
  - rewrite Z.ones_spec_high by lia. reflexivity.
  - rewrite Z.ones_spec_low by lia. reflexivity.
Qed.

Lemma masked_eq_iff A B k :
  0 <= A < 2 ^ 32 -> 0 <= B < 2 ^ 32 -> 0 <= k < 32 ->
  (forall n, 0 <= n < 32 ->
     Z.testbit A n && (k <=? n) = Z.testbit B n && (k <=? n))
  <-> A / 2 ^ k = B / 2 ^ k.
Proof.
  intros HA HB Hk. split.
  - intros H. apply Z.bits_inj'. intros m Hm.
    rewrite !Z.div_pow2_bits by lia.
    destruct (Z.lt_ge_cases (m + k) 32).
    + specialize (H (m + k) ltac:(lia)).
      destruct (Z.leb_spec k (m + k)); [|lia].
      rewrite !andb_true_r in H. exact H.
    + rewrite <- (Z.mod_small A (2 ^ 32)), <- (Z.mod_small B (2 ^ 32)) by lia.
      rewrite !Z.mod_pow2_bits_high by lia. reflexivity.
  - intros H n Hn. destruct (Z.leb_spec k n); [|rewrite !andb_false_r; reflexivity].
    rewrite !andb_true_r.
    replace n with ((n - k) + k) by lia.
    rewrite <- !Z.div_pow2_bits by lia. rewrite H. reflexivity.
Qed.

(** X21. On dotted quads [isIpInRange] compares prefixes: with a prefix
    length from 1 to 32 the address is in the range exactly when the two
    addresses agree once their last [32 - bits] bits are dropped.  A prefix
    length of 0 does not match every address: the shift by 32 is a shift by
    0, the mask keeps all 32 bits, and only the range address itself is in
    the range. *)
Theorem cidr_prefix_match (parseInt Number : string -> option Z)
    (ip cidr range bitsStr : string) (bits a1 a2 a3 a4 b1 b2 b3 b4 : Z) :
  split_on "/" cidr = [range; bitsStr] ->
  parseInt bitsStr = Some bits ->
  0 <= bits <= 32 ->
  Number <$> split_on "." ip = [Some a1; Some a2; Some a3; Some a4] ->
  Number <$> split_on "." range = [Some b1; Some b2; Some b3; Some b4] ->
  Forall (fun octet => 0 <= octet < 256) [a1; a2; a3; a4; b1; b2; b3; b4] ->
  (1 <= bits ->
   (isIpInRange parseInt Number ip cidr = true
    <-> address a1 a2 a3 a4 / 2 ^ (32 - bits)
        = address b1 b2 b3 b4 / 2 ^ (32 - bits)))
  /\ (bits = 0 ->
      (isIpInRange parseInt Number ip cidr = true
       <-> address a1 a2 a3 a4 = address b1 b2 b3 b4)).
Proof.
  intros Hcidr Hbits Hrange Hip Hrg Hoct.
  repeat match goal with
         | H : Forall _ (_ :: _) |- _ => apply Forall_cons in H as [? H]
         end.
  assert (HA : 0 <= address a1 a2 a3 a4 < 2 ^ 32) by (unfold address; lia).
  assert (HB : 0 <= address b1 b2 b3 b4 < 2 ^ 32) by (unfold address; lia).
  assert (Hk : 0 <= (32 - bits) mod 32 < 32) by (apply Z.mod_pos_bound; lia).
  assert (Hcall : isIpInRange parseInt Number ip cidr = true
                  <-> address a1 a2 a3 a4 / 2 ^ ((32 - bits) mod 32)
                      = address b1 b2 b3 b4 / 2 ^ ((32 - bits) mod 32)).
  { unfold isIpInRange. rewrite Hcidr. cbn [lookup list_lookup].
    rewrite Hbits, Hip, Hrg. cbn [existsb isNaN orb].
    rewrite Z.eqb_eq. unfold band. rewrite toInt32_inj_iff.
    rewrite <- (masked_eq_iff _ _ _ HA HB Hk).
    split; intros Hall n Hn; specialize (Hall n Hn);
      rewrite !Z.land_spec, !testbit_toInt32, !testbit_to_int,
        !testbit_mask in * by lia; exact Hall. }
  split.
  - intros Hone. rewrite Z.mod_small in Hcall by lia. exact Hcall.
  - intros ->. change ((32 - 0) mod 32) with 0 in Hcall.
    rewrite !Z.div_1_r in Hcall. exact Hcall.
Qed.

Lemma cidr_prefix_match_witness :
  (isIpInRange read_decimal read_decimal "10.1.2.3" "10.0.0.0/8" = true
   <-> address 10 1 2 3 / 2 ^ (32 - 8) = address 10 0 0 0 / 2 ^ (32 - 8))
  /\ isIpInRange read_decimal read_decimal "10.1.2.3" "10.0.0.0/8" = true.
Proof.
  split; [|vm_compute; reflexivity].
  apply (cidr_prefix_match read_decimal read_decimal "10.1.2.3" "10.0.0.0/8"
           "10.0.0.0" "8" 8 10 1 2 3 10 0 0 0).
  - reflexivity.
  - reflexivity.
  - lia.
  - reflexivity.
  - reflexivity.
  - repeat constructor; lia.
  - lia.
Defined.

(** The range of every address holds one address. *)
Example slash_zero_matches_itself_only :
  isIpInRange read_decimal read_decimal "10.1.2.3" "0.0.0.0/0" = false
  /\ isIpInRange read_decimal read_decimal "0.0.0.0" "0.0.0.0/0" = true.
Proof. vm_compute. split; reflexivity. Qed.

End ApiUtils.

(* ===================================================================== *)
(** ** Adding to and removing from the library over HTTP: the transactions
       of [POST /api/library] and [DELETE /api/library/[id]], on the
       soft-delete client. *)
(* ===================================================================== *)
Module LibraryRoute.

Import SoftDelete.

(** The columns of a library entry the two routes look at or assign. *)
Record EntryFields := mkFields {
  user_id : string;
  source_url : string;
  source_name : string;
  series_id : option string;
  status : string;
}.

Record SeriesFields := mkSeries {
  total_follows : Z;
}.

Record Db := mkDb {
  library_entries : list (Row EntryFields);
  series : list (Row SeriesFields);
}.

(** What a route answers: the entry with 201, success, or an error whose
    status is [None] when [handleApiError] picks it from the message. *)
Inductive Reply :=
| Created (entry : Row EntryFields)
| Removed
| Refused (statusCode : option Z).

(** [{ user_id_source_url: { user_id, source_url } }]. *)
Definition by_user_and_url (user url : string) : Where EntryFields :=
  mkWhere None (fun _ f => String.eqb (user_id f) user && String.eqb (source_url f) url).

(** [{ id, user_id }]. *)
Definition by_id_and_user (entryId user : string) : Where EntryFields :=
  mkWhere None (fun i f => String.eqb i entryId && String.eqb (user_id f) user).

(** [{ id }] on the series table. *)
Definition series_by_id (seriesId : string) : Where SeriesFields :=
  mkWhere None (fun i _ => String.eqb i seriesId).

(** A validated request to add a series, with what else the handler
    meets on its way: the series' first source by trust score, when it has
    one ([source_url], [source_name]); the id the database gives a new row;
    and whether [promoteSeriesTier] returns rather than throws. *)
Record AddRequest := mkAdd {
  add_user : string;
  seriesId : string;
  add_status : string;
  primarySource : option (string * string);
  new_id : string;
  promoted : bool;
}.

(** [POST /api/library] from the lookup of the series on.  An exception
    inside [prisma.$transaction] leaves the database as it was. *)
Definition POST (now : Z) (req : AddRequest) (db : Db) : Db * Reply :=
  let the_series := mkArgs (Some (series_by_id (seriesId req))) None None None in
  match snd (allOperations now "Series" FindUnique the_series (series db)) with
  | RRow (Some _) =>
      match primarySource req with
      | None => (db, Refused (Some 400))
      | Some (url, name) =>
          let key := by_user_and_url (add_user req) url in
          let existingEntry :=
            snd (allOperations now "LibraryEntry" FindUnique
                   (mkArgs (Some key) None None None) (library_entries db)) in
          let update :=
            mkData None (fun f => mkFields (user_id f) (source_url f) (source_name f)
                                    (Some (seriesId req)) (add_status req)) in
          let create :=
            mkRow (new_id req) None
              (mkFields (add_user req) url name (Some (seriesId req)) (add_status req)) in
          match allOperations now "LibraryEntry" Upsert
                  (mkArgs (Some key) None (Some update) (Some create))
                  (library_entries db) with
          | (entries', RRow (Some entry)) =>
              match existingEntry with
              | RRow (Some _) => (mkDb entries' (series db), Created entry)
              | _ =>
                  let increment :=
                    mkData None (fun f => mkSeries (total_follows f + 1)) in
                  match allOperations now "Series" Update
                          (mkArgs (Some (series_by_id (seriesId req)))
                             (Some increment) None None)
                          (series db) with
                  | (series', RRow (Some _)) =>
                      if promoted req then (mkDb entries' series', Created entry)
                      else (db, Refused None)
                  | _ => (db, Refused (Some 404))
                  end
              end
          | _ => (db, Refused None)
          end
      end
  | _ => (db, Refused (Some 404))
  end.

(** [UPDATE series SET total_follows = GREATEST(0, total_follows - 1)
     WHERE id = sid], raw SQL that the client extension does not see. *)
Definition decrement_follows (sid : string) (t : list (Row SeriesFields))
  : list (Row SeriesFields) :=
  (fun r => if String.eqb (row_id r) sid
            then mkRow (row_id r) (deleted_at r)
                   (mkSeries (Z.max 0 (total_follows (fields r) - 1)))
            else r) <$> t.

(** [DELETE /api/library/[id]] from the transaction on. *)
Definition DELETE (now : Z) (user entryId : string) (db : Db) : Db * Reply :=
  let the_entry := mkArgs (Some (by_id_and_user entryId user)) None None None in
  match snd (allOperations now "LibraryEntry" FindUnique the_entry
               (library_entries db)) with
  | RRow (Some entry) =>
      match allOperations now "LibraryEntry" Delete the_entry (library_entries db) with
      | (entries', RRow (Some _)) =>
          let series' :=
            match series_id (fields entry) with
            | Some sid => if String.eqb sid "" then series db
                          else decrement_follows sid (series db)
            | None => series db
            end in
          (mkDb entries' series', Removed)
      | _ => (db, Refused (Some 404))
      end
  | _ => (db, Refused (Some 404))
  end.

(** *** The client calls the routes make, spelt out *)

Lemma entry_model : "LibraryEntry" ∈ SOFT_DELETE_MODELS.
Proof. apply (bool_decide_unpack _). vm_compute. exact I. Qed.

Lemma series_model : "Series" ∈ SOFT_DELETE_MODELS.
Proof. apply (bool_decide_unpack _). vm_compute. exact I. Qed.

Section Calls.

Context {Fields : Type}.
Implicit Types (t : list (Row Fields)) (r : Row Fields) (w : Where Fields).

(** A row that is live and satisfies the rest of the [where]. *)
Definition live_match w r : bool :=
  is_null (deleted_at r) && w_rest w (row_id r) (fields r).

Definition any_match w r : bool := w_rest w (row_id r) (fields r).

Lemma call_findUnique now model w d u c t :
  model ∈ SOFT_DELETE_MODELS ->
  allOperations now model FindUnique (mkArgs (Some w) d u c) t
  = (t, RRow (head (List.filter (live_match w) t))).
Proof.
  intros Hm. unfold allOperations. rewrite bool_decide_eq_true_2 by exact Hm.
  reflexivity.
Qed.

Lemma call_update now model w d u c t :
  model ∈ SOFT_DELETE_MODELS ->
  allOperations now model Update (mkArgs (Some w) (Some d) u c) t
  = match update_first (live_match w) (apply_data (Some d)) t with
    | Some (t', r') => (t', RRow (Some r'))
    | None => (t, RError "P2025")
    end.
Proof.
  intros Hm. unfold allOperations. rewrite bool_decide_eq_true_2 by exact Hm.
  reflexivity.
Qed.

Lemma call_delete now model w d u c t :
  model ∈ SOFT_DELETE_MODELS ->
  w_deleted_at w = None ->
  allOperations now model Delete (mkArgs (Some w) d u c) t
  = match update_first (any_match w) (apply_data (Some (stamp now))) t with
    | Some (t', r') => (t', RRow (Some r'))
    | None => (t, RError "P2025")
    end.
Proof.
  intros Hm Hw. unfold allOperations. rewrite bool_decide_eq_true_2 by exact Hm.
  cbn [is_read base_query set_data a_where a_data].
  unfold matches, any_match. rewrite Hw. reflexivity.
Qed.

Lemma call_upsert now model w d u c t :
  model ∈ SOFT_DELETE_MODELS ->
  w_deleted_at w = None ->
  allOperations now model Upsert (mkArgs (Some w) d (Some u) (Some c)) t
  = match update_first (any_match w)
            (apply_data (Some (clearing_deleted_at (Some u)))) t with
    | Some (t', r') => (t', RRow (Some r'))
    | None => (t ++ [c], RRow (Some c))
    end.
Proof.
  intros Hm Hw. unfold allOperations. rewrite bool_decide_eq_true_2 by exact Hm.
  cbn [is_read base_query set_update a_where a_update a_create].
  unfold matches, any_match. rewrite Hw. reflexivity.
Qed.

Lemma update_first_at (p : Row Fields -> bool) f l1 r l2 :
  (forall x, x ∈ l1 -> p x = false) -> p r = true ->
  update_first p f (l1 ++ r :: l2) = Some (l1 ++ f r :: l2, f r).
Proof.
  intros Hl1 Hr. induction l1 as [|x l1 IH]; cbn.
  - rewrite Hr. reflexivity.
  - rewrite (Hl1 x) by apply list_elem_of_here.
    rewrite IH; [reflexivity|].
    intros y Hy. apply Hl1, list_elem_of_further, Hy.
Qed.

Lemma update_first_split (p : Row Fields -> bool) f t t' r' :
  update_first p f t = Some (t', r') ->
  exists l1 r l2, t = l1 ++ r :: l2 /\ t' = l1 ++ f r :: l2 /\ r' = f r
                  /\ (forall x, x ∈ l1 -> p x = false) /\ p r = true.
Proof.
  revert t'. induction t as [|x t IH]; intros t' H; [discriminate|].
  cbn in H. destruct (p x) eqn:Hp.
  - injection H as <- <-. exists [], x, t. repeat split; [|exact Hp].
    intros y Hy. inversion Hy.
  - destruct (update_first p f t) as [[t'' r'']|]; [|discriminate].
    injection H as <- <-.
    destruct (IH t'' eq_refl) as (l1 & r & l2 & -> & -> & -> & Hl1 & Hr).
    exists (x :: l1), r, l2. repeat split; [|exact Hr].
    intros y [->|Hy]%elem_of_cons; [exact Hp|apply Hl1, Hy].
Qed.

Lemma update_first_is_None (p : Row Fields -> bool) f t :
  update_first p f t = None -> forall x, x ∈ t -> p x = false.
Proof.
  induction t as [|y t IH]; intros H x Hx; [inversion Hx|].
  cbn in H. destruct (p y) eqn:Hp; [discriminate|].
  destruct (update_first p f t) as [[t' r']|]; [discriminate|].
  apply elem_of_cons in Hx as [->|Hx]; [exact Hp|apply (IH eq_refl), Hx].
Qed.

Lemma head_filter_at (q : Row Fields -> bool) l1 r l2 :
  (forall x, x ∈ l1 -> q x = false) -> q r = true ->
  head (List.filter q (l1 ++ r :: l2)) = Some r.
Proof.
  intros Hl1 Hr. rewrite List.filter_app, (filter_none q l1 Hl1).
  cbn. rewrite Hr. reflexivity.
Qed.

End Calls.

(** The [update] object of the upsert, as the extension completes it. *)
Definition revive (req : AddRequest) (r : Row EntryFields) : Row EntryFields :=
  mkRow (row_id r) None
    (mkFields (user_id (fields r)) (source_url (fields r)) (source_name (fields r))
       (Some (seriesId req)) (add_status req)).

Definition follow (r : Row SeriesFields) : Row SeriesFields :=
  mkRow (row_id r) (deleted_at r) (mkSeries (total_follows (fields r) + 1)).

(** [POST] with its client calls spelt out. *)
Lemma POST_unfold now req db :
  POST now req db
  = match head (List.filter (live_match (series_by_id (seriesId req))) (series db)) with
    | Some _ =>
        match primarySource req with
        | None => (db, Refused (Some 400))
        | Some (url, name) =>
            let key := by_user_and_url (add_user req) url in
            let create :=
              mkRow (new_id req) None
                (mkFields (add_user req) url name (Some (seriesId req)) (add_status req)) in
            let (entries', entry) :=
              match update_first (any_match key) (revive req) (library_entries db) with
              | Some (t', r') => (t', r')
              | None => (library_entries db ++ [create], create)
              end in
            match head (List.filter (live_match key) (library_entries db)) with
            | Some _ => (mkDb entries' (series db), Created entry)
            | None =>
                match update_first (live_match (series_by_id (seriesId req))) follow
                        (series db) with
                | Some (series', _) =>
                    if promoted req then (mkDb entries' series', Created entry)
                    else (db, Refused None)
                | None => (db, Refused (Some 404))
                end
            end
        end
    | None => (db, Refused (Some 404))
    end.
Proof.
  unfold POST. rewrite (call_findUnique _ _ _ _ _ _ _ series_model). cbn [snd].
  destruct (head (List.filter _ (series db))); [|reflexivity].
  destruct (primarySource req) as [[url name]|]; [|reflexivity].
  rewrite (call_findUnique _ _ _ _ _ _ _ entry_model). cbn [snd].
  rewrite (call_upsert now "LibraryEntry" (by_user_and_url (add_user req) url)
             None _ _ _ entry_model eq_refl).
  rewrite (call_update _ _ _ _ _ _ _ series_model).
  change (apply_data (Some (clearing_deleted_at (Some _)))) with (revive req).
  change (apply_data (Some (mkData None (fun f => mkSeries (total_follows f + 1)))))
    with follow.
  cbn zeta.
  destruct (update_first (any_match _) (revive req) (library_entries db)) as [[t' r']|];
    destruct (head (List.filter (live_match (by_user_and_url _ _)) (library_entries db)));
    try reflexivity;
    destruct (update_first _ follow (series db)) as [[s' r'']|]; reflexivity.
Qed.

(** The row a soft delete leaves. *)
Definition bury (now : Z) (r : Row EntryFields) : Row EntryFields :=
  mkRow (row_id r) (Some now) (fields r).

Lemma DELETE_unfold now user entryId db :
  DELETE now user entryId db
  = let key := by_id_and_user entryId user in
    match head (List.filter (live_match key) (library_entries db)) with
    | Some entry =>
        match update_first (any_match key) (bury now) (library_entries db) with
        | Some (entries', _) =>
            (mkDb entries'
               match series_id (fields entry) with
               | Some sid => if String.eqb sid "" then series db
                             else decrement_follows sid (series db)
               | None => series db
               end,
             Removed)
        | None => (db, Refused (Some 404))
        end
    | None => (db, Refused (Some 404))
    end.
Proof.
  unfold DELETE. rewrite (call_findUnique _ _ _ _ _ _ _ entry_model). cbn [snd].
  destruct (head (List.filter _ (library_entries db))) as [entry|]; [|reflexivity].
  rewrite (call_delete now "LibraryEntry" (by_id_and_user entryId user)
             None _ _ _ entry_model eq_refl).
  change (apply_data (Some (stamp now))) with (bury now).
  cbn zeta.
  destruct (update_first _ (bury now) (library_entries db)) as [[t' r']|]; reflexivity.
Qed.

Lemma live_match_false {Fields} (w : Where Fields) r :
  any_match w r = false -> live_match w r = false.
Proof. unfold live_match, any_match. intros ->. apply andb_false_r. Qed.

Lemma upsert_settles req url name id1 (t : list (Row EntryFields)) :
  let key := by_user_and_url (add_user req) url in
  let create :=
    mkRow id1 None
      (mkFields (add_user req) url name (Some (seriesId req)) (add_status req)) in
  let res := match update_first (any_match key) (revive req) t with
             | Some (t', r') => (t', r')
             | None => (t ++ [create], create)
             end in
  update_first (any_match key) (revive req) (fst res) = Some res
  /\ is_Some (head (List.filter (live_match key) (fst res))).
Proof.
  intros key create res. subst res.
  destruct (update_first (any_match key) (revive req) t) as [[t' r']|] eqn:E.
  - apply update_first_split in E as (l1 & r & l2 & -> & -> & -> & Hl1 & Hr).
    cbn [fst]. split.
    + apply (update_first_at (any_match key) (revive req) l1 (revive req r) l2 Hl1).
      exact Hr.
    + rewrite (head_filter_at (live_match key) l1 (revive req r) l2).
      * eexists; reflexivity.
      * intros x Hx. apply live_match_false, Hl1, Hx.
      * exact Hr.
  - pose proof (update_first_is_None _ _ _ E) as Hnone.
    assert (Hc : any_match key create = true).
    { unfold any_match, key, create; cbn. rewrite !String.eqb_refl. reflexivity. }
    cbn [fst]. split.
    + apply (update_first_at (any_match key) (revive req) t create [] Hnone Hc).
    + rewrite (head_filter_at (live_match key) t create []).
      * eexists; reflexivity.
      * intros x Hx. apply live_match_false, Hnone, Hx.
      * exact Hc.
Qed.

Lemma follow_settles sid (t t' : list (Row SeriesFields)) r' :
  update_first (live_match (series_by_id sid)) follow t = Some (t', r') ->
  is_Some (head (List.filter (live_match (series_by_id sid)) t')).
Proof.
  intros (l1 & r & l2 & -> & -> & -> & Hl1 & Hr)%update_first_split.
  rewrite (head_filter_at _ l1 (follow r) l2 Hl1); [eexists; reflexivity|].
  exact Hr.
Qed.

(** X23. Adding is idempotent.  Once a request to add a series has been
    answered with the entry, the same request made again, whatever id the
    database would hand out and whether or not the tier promotion works
    this time, is answered with the same entry and leaves the database as
    it is: the series is not followed a second time and no second row
    appears. *)
Theorem add_twice_counts_once (now now' : Z) (req : AddRequest) (id' : string)
    (promoted' : bool) (db db1 : Db) (entry : Row EntryFields) :
  POST now req db = (db1, Created entry) ->
  POST now' (mkAdd (add_user req) (seriesId req) (add_status req)
               (primarySource req) id' promoted') db1
  = (db1, Created entry).
Proof.
  rewrite !POST_unfold. cbn [add_user seriesId add_status primarySource new_id promoted].
  change (revive (mkAdd (add_user req) (seriesId req) (add_status req)
                    (primarySource req) id' promoted')) with (revive req).
  destruct (head (List.filter _ (series db))) as [s0|] eqn:Hs; [|discriminate].
  destruct (primarySource req) as [[url name]|]; [|discriminate].
  cbn zeta.
  destruct (upsert_settles req url name (new_id req) (library_entries db))
    as [Hagain [e1 Hfound]].
  destruct (match update_first _ (revive req) (library_entries db) with
            | Some (t', r') => (t', r')
            | None => _
            end) as [entries' entry'].
  cbn [fst] in Hagain, Hfound.
  assert (Hdone : forall series1,
            is_Some (head (List.filter (live_match (series_by_id (seriesId req)))
                             series1)) ->
            match head (List.filter (live_match (series_by_id (seriesId req)))
                          series1) with
            | Some _ =>
                let (entries'', entry'') :=
                  match update_first
                          (any_match (by_user_and_url (add_user req) url))
                          (revive req) entries' with
                  | Some (t', r') => (t', r')
                  | None =>
                      (entries' ++
                         [mkRow id' None
                            (mkFields (add_user req) url name (Some (seriesId req))
                               (add_status req))],
                       mkRow id' None
                         (mkFields (add_user req) url name (Some (seriesId req))
                            (add_status req)))
                  end in
                match head (List.filter
                              (live_match (by_user_and_url (add_user req) url))
                              entries') with
                | Some _ => (mkDb entries'' series1, Created entry'')
                | None =>
                    match update_first (live_match (series_by_id (seriesId req)))
                            follow series1 with
                    | Some (series', _) =>
                        if promoted' then (mkDb entries'' series', Created entry'')
                        else (mkDb entries' series1, Refused None)
                    | None => (mkDb entries' series1, Refused (Some 404))
                    end
                end
            | None => (mkDb entries' series1, Refused (Some 404))
            end = (mkDb entries' series1, Created entry')).
  { intros series1 [s1 ->]. rewrite Hagain, Hfound. reflexivity. }
  destruct (head (List.filter _ (library_entries db))) as [e0|].
  - intros [= <- <-]. cbn [series library_entries].
    apply Hdone. rewrite Hs. eexists; reflexivity.
  - destruct (update_first _ follow (series db)) as [[series' s']|] eqn:Hup;
      [|discriminate].
    destruct (promoted req); [|discriminate].
    intros [= <- <-]. cbn [series library_entries].
    apply Hdone. eapply follow_settles, Hup.
Qed.

Lemma decrement_other sid (m : list (Row SeriesFields)) :
  (forall x, x ∈ m -> row_id x <> sid) -> decrement_follows sid m = m.
Proof.
  intros H. unfold decrement_follows. rewrite <- (list_fmap_id m) at 2.
  apply list_fmap_ext. intros i x Hx.
  rewrite (proj2 (String.eqb_neq _ _)); [reflexivity|].
  eapply H, list_elem_of_lookup_2, Hx.
Qed.

Lemma apart_in_split {Fields} (l1 l2 : list (Row Fields)) r :
  NoDup (row_id <$> l1 ++ r :: l2) ->
  forall x, x ∈ l1 \/ x ∈ l2 -> row_id x <> row_id r.
Proof.
  rewrite fmap_app, fmap_cons. intros (_ & Hl1 & [Hl2 _]%NoDup_cons)%NoDup_app.
  intros x [Hx|Hx] E.
  - apply (Hl1 (row_id x)); [apply list_elem_of_fmap_2, Hx|].
    rewrite E. apply list_elem_of_here.
  - apply Hl2. rewrite <- E. apply list_elem_of_fmap_2, Hx.
Qed.

(** X24. Removing an entry and adding the series again undoes itself.
    For a live entry of the user that follows the series through its first
    source, with a follow count of at least one, the removal soft-deletes
    the entry and lowers the count by one, and the addition that follows
    revives that same row and raises the count again: the database is back
    where it was, with no second row for the series. *)
Theorem remove_then_add_restores (now now' : Z) (req : AddRequest)
    (url name : string) (db : Db) (r : Row EntryFields) (s : Row SeriesFields) :
  NoDup (row_id <$> library_entries db) ->
  NoDup (row_id <$> series db) ->
  r ∈ library_entries db ->
  deleted_at r = None ->
  fields r = mkFields (add_user req) url (source_name (fields r))
               (Some (seriesId req)) (add_status req) ->
  (forall x, x ∈ library_entries db ->
     user_id (fields x) = add_user req -> source_url (fields x) = url ->
     row_id x = row_id r) ->
  primarySource req = Some (url, name) ->
  promoted req = true ->
  seriesId req <> "" ->
  s ∈ series db ->
  row_id s = seriesId req ->
  deleted_at s = None ->
  1 <= total_follows (fields s) ->
  exists db1,
    DELETE now (add_user req) (row_id r) db = (db1, Removed)
    /\ bury now r ∈ library_entries db1
    /\ mkRow (row_id s) None (mkSeries (total_follows (fields s) - 1)) ∈ series db1
    /\ POST now' req db1 = (db, Created r).
Proof.
  intros Hids Hsids Hr Hlive Hfields Huniq Hsource Hprom Hsid Hs Hsrow Hslive Hcount.
  destruct db as [entries rows]. cbn [library_entries series] in *.
  apply list_elem_of_split in Hr as (l1 & l2 & ->).
  apply list_elem_of_split in Hs as (m1 & m2 & ->).
  pose proof (apart_in_split l1 l2 r Hids) as Hapart.
  pose proof (apart_in_split m1 m2 s Hsids) as Hsapart.
  set (key := by_id_and_user (row_id r) (add_user req)).
  set (ukey := by_user_and_url (add_user req) url).
  set (skey := series_by_id (seriesId req)).
  assert (Hkr : any_match key r = true).
  { unfold any_match, key; cbn. rewrite Hfields; cbn.
    rewrite !String.eqb_refl. reflexivity. }
  assert (Hk : forall x, x ∈ l1 \/ x ∈ l2 -> any_match key x = false).
  { intros x Hx. unfold any_match, key; cbn.
    rewrite (proj2 (String.eqb_neq _ _) (Hapart x Hx)). reflexivity. }
  assert (Hu : forall x, x ∈ l1 \/ x ∈ l2 -> any_match ukey x = false).
  { intros x Hx. unfold any_match, ukey; cbn.
    destruct (String.eqb_spec (user_id (fields x)) (add_user req)) as [E1|_];
      [|reflexivity].
    destruct (String.eqb_spec (source_url (fields x)) url) as [E2|_];
      [|reflexivity].
    exfalso. apply (Hapart x Hx). apply Huniq; [|exact E1|exact E2].
    rewrite elem_of_app, elem_of_cons. tauto. }
  assert (Hsk : forall x, x ∈ m1 \/ x ∈ m2 -> any_match skey x = false).
  { intros x Hx. unfold any_match, skey; cbn. rewrite <- Hsrow.
    apply String.eqb_neq, (Hsapart x Hx). }
  set (s1 := mkRow (row_id s) None (mkSeries (total_follows (fields s) - 1)) : Row SeriesFields).
  assert (Hdec : decrement_follows (seriesId req) (m1 ++ s :: m2) = m1 ++ s1 :: m2).
  { unfold decrement_follows at 1. rewrite fmap_app, fmap_cons.
    fold (decrement_follows (seriesId req) m1).
    fold (decrement_follows (seriesId req) m2).
    rewrite !decrement_other.
    - rewrite Hsrow, String.eqb_refl, Hslive. subst s1.
      rewrite Z.max_r by lia. rewrite Hsrow. reflexivity.
    - intros x Hx E. apply (Hsapart x (or_intror Hx)). congruence.
    - intros x Hx E. apply (Hsapart x (or_introl Hx)). congruence. }
  exists (mkDb (l1 ++ bury now r :: l2) (m1 ++ s1 :: m2)).
  split; [|split; [|split]].
  - rewrite DELETE_unfold. cbn zeta. cbn [library_entries series]. fold key.
    rewrite (head_filter_at (live_match key) l1 r l2).
    + rewrite (update_first_at (any_match key) (bury now) l1 r l2);
        [|intros x Hx; apply Hk; auto|exact Hkr].
      rewrite Hfields. cbn [series_id].
      rewrite (proj2 (String.eqb_neq _ _) Hsid), Hdec. reflexivity.
    + intros x Hx. apply live_match_false, Hk. auto.
    + unfold live_match. fold (any_match key r). rewrite Hlive, Hkr. reflexivity.
  - cbn. rewrite elem_of_app, elem_of_cons. auto.
  - cbn. rewrite elem_of_app, elem_of_cons. auto.
  - rewrite POST_unfold. cbn [library_entries series]. fold skey.
    rewrite (head_filter_at (live_match skey) m1 s1 m2);
      [|intros x Hx; apply live_match_false, Hsk; auto
       |unfold live_match, skey, s1; cbn; rewrite Hsrow; apply String.eqb_refl].
    rewrite Hsource. cbn zeta. fold ukey.
    assert (Hur : any_match ukey (bury now r) = true).
    { unfold any_match, ukey; cbn. rewrite Hfields; cbn.
      rewrite !String.eqb_refl. reflexivity. }
    rewrite (update_first_at (any_match ukey) (revive req) l1 (bury now r) l2);
      [|intros x Hx; apply Hu; auto|exact Hur].
    assert (Hback : revive req (bury now r) = r).
    { clear -Hfields Hlive. destruct r as [i d [u0 url0 n0 sid0 st0]].
      cbn in *. subst d. injection Hfields as -> -> -> ->. reflexivity. }
    rewrite Hback.
    rewrite (filter_none (live_match ukey) (l1 ++ bury now r :: l2)).
    2:{ intros x [Hx|[->|Hx]%elem_of_cons]%elem_of_app.
        - apply live_match_false, Hu. auto.
        - reflexivity.
        - apply live_match_false, Hu. auto. }
    cbn [head].
    rewrite (update_first_at (live_match skey) follow m1 s1 m2);
      [|intros x Hx; apply live_match_false, Hsk; auto
       |unfold live_match, skey, s1; cbn; rewrite Hsrow; apply String.eqb_refl].
    rewrite Hprom.
    assert (Hsback : follow s1 = s).
    { destruct s as [i d f]. destruct f as [n]. cbn in *. subst d.
      unfold follow, s1; cbn. do 2 f_equal. lia. }
    rewrite Hsback. reflexivity.
Qed.

(** A user who follows one series through its MangaDex source. *)
Definition one_follow : Db :=
  mkDb [mkRow "e1" None
          (mkFields "u1" "https://mangadex.org/title/a1" "mangadex" (Some "s1") "reading")]
       [mkRow "s1" None (mkSeries 3)].

Definition follow_again : AddRequest :=
  mkAdd "u1" "s1" "reading" (Some ("https://mangadex.org/title/a1", "mangadex"))
    "e9" true.

Lemma add_twice_counts_once_witness :
  POST 10 follow_again (mkDb [] [mkRow "s1" None (mkSeries 3)])
  = (mkDb [mkRow "e9" None
             (mkFields "u1" "https://mangadex.org/title/a1" "mangadex" (Some "s1")
                "reading")]
          [mkRow "s1" None (mkSeries 4)],
     Created (mkRow "e9" None
                (mkFields "u1" "https://mangadex.org/title/a1" "mangadex" (Some "s1")
                   "reading")))
  /\ POST 11 (mkAdd "u1" "s1" "reading"
                (Some ("https://mangadex.org/title/a1", "mangadex")) "e10" false)
       (mkDb [mkRow "e9" None
                (mkFields "u1" "https://mangadex.org/title/a1" "mangadex" (Some "s1")
                   "reading")]
             [mkRow "s1" None (mkSeries 4)])
     = (mkDb [mkRow "e9" None
                (mkFields "u1" "https://mangadex.org/title/a1" "mangadex" (Some "s1")
                   "reading")]
             [mkRow "s1" None (mkSeries 4)],
        Created (mkRow "e9" None
                   (mkFields "u1" "https://mangadex.org/title/a1" "mangadex" (Some "s1")
                      "reading"))).
Proof.
  assert (H : POST 10 follow_again (mkDb [] [mkRow "s1" None (mkSeries 3)])
              = (mkDb [mkRow "e9" None
                         (mkFields "u1" "https://mangadex.org/title/a1" "mangadex"
                            (Some "s1") "reading")]
                      [mkRow "s1" None (mkSeries 4)],
                 Created (mkRow "e9" None
                            (mkFields "u1" "https://mangadex.org/title/a1" "mangadex"
                               (Some "s1") "reading"))))
    by (vm_compute; reflexivity).
  split; [exact H|].
  exact (add_twice_counts_once 10 11 follow_again "e10" false _ _ _ H).
Defined.

Lemma remove_then_add_restores_witness :
  exists db1,
    DELETE 20 "u1" "e1" one_follow = (db1, Removed)
    /\ POST 21 follow_again db1
       = (one_follow,
          Created (mkRow "e1" None
                     (mkFields "u1" "https://mangadex.org/title/a1" "mangadex"
                        (Some "s1") "reading"))).
Proof.
  destruct (remove_then_add_restores 20 21 follow_again
              "https://mangadex.org/title/a1" "mangadex" one_follow
              (mkRow "e1" None
                 (mkFields "u1" "https://mangadex.org/title/a1" "mangadex"
                    (Some "s1") "reading"))
              (mkRow "s1" None (mkSeries 3)))
    as (db1 & Hdel & _ & _ & Hadd).
  - apply NoDup_singleton.
  - apply NoDup_singleton.
  - apply list_elem_of_here.
  - reflexivity.
  - reflexivity.
  - intros x Hx _ _. apply list_elem_of_singleton in Hx as ->. reflexivity.
  - reflexivity.
  - reflexivity.
  - discriminate.
  - apply list_elem_of_here.
  - reflexivity.
  - reflexivity.
  - cbn. lia.
  - exists db1. split; [exact Hdel|exact Hadd].
Defined.

End LibraryRoute.
